(** * Gaussian mixture fitting by expectation-maximisation

    A shallow embedding of the GMM cells of
    [EM Algorithms/Kmeans & Gaussian Mixture Model.ipynb]:
    [multivariate_gaussian], [initialize_parameters], [e_step], [m_step]
    and [gmm_step], together with the numpy primitives they call.

    Numbers.  A numpy [float64] is modelled as a real number or one of the
    three IEEE special values: arithmetic on finite values is exact, and
    the special values follow the IEEE rules, so that numpy's silent
    division by zero ([0/0 = nan], [x/0 = inf]) is visible in the model.
    Rounding, overflow, underflow and the sign of zero are not modelled;
    where a property would not survive an underflow it is stated for
    values within the range of float64 ([float_min]).

    Arrays.  A 1-D array is a list, a 2-D array a list of rows.  numpy
    arrays are rectangular; an array with no row is modelled with no
    column either, so the embedding covers data with at least one row.

    Exceptions.  A Python function that can raise returns a [result].

    Randomness.  The generator behind [np.random] is a parameter; its
    state, global in Python, is passed in and out of the functions that
    touch it.

    Objective.  The GMM cells compute no log-likelihood; the one the
    turns of the loop are measured with is defined from the Gaussian
    density over the reals, with determinants and inverses of matrices
    given as functions of their indices. *)

From Stdlib Require Import Reals Lra Lia List ZArith Bool Permutation Sorted.
Import ListNotations.
Open Scope R_scope.

(** ** Python exceptions *)

Inductive exn : Type :=
| ValueError
| IndexError
| LinAlgError.

Inductive result (A : Type) : Type :=
| Ok (a : A)
| Raise (e : exn).
Arguments Ok {A} a.
Arguments Raise {A} e.

Definition bind {A B : Type} (r : result A) (k : A -> result B) : result B :=
  match r with
  | Ok a => k a
  | Raise e => Raise e
  end.

Notation "'let*' x ':=' r 'in' k" := (bind r (fun x => k))
  (at level 10, x pattern, r at level 100, k at level 200).

(** [for x in l: ...] collecting one value per turn; the first exception
    raised ends the loop. *)
Fixpoint mapM {A B : Type} (f : A -> result B) (l : list A) : result (list B) :=
  match l with
  | [] => Ok []
  | x :: l' =>
      let* y := f x in
      let* ys := mapM f l' in
      Ok (y :: ys)
  end.

(** [a[i]] for a non-negative [i]. *)
Definition index {A : Type} (a : list A) (i : nat) : result A :=
  match nth_error a i with
  | Some x => Ok x
  | None => Raise IndexError
  end.

(** ** float64 *)

Inductive float64 : Type :=
| Fin (r : R)
| PInf
| NInf
| NaN.

Definition is_finite (x : float64) : Prop :=
  match x with
  | Fin _ => True
  | _ => False
  end.

Definition fopp (x : float64) : float64 :=
  match x with
  | Fin r => Fin (- r)
  | PInf => NInf
  | NInf => PInf
  | NaN => NaN
  end.

Definition fadd (x y : float64) : float64 :=
  match x, y with
  | Fin a, Fin b => Fin (a + b)
  | NaN, _ | _, NaN => NaN
  | PInf, NInf | NInf, PInf => NaN
  | PInf, _ | _, PInf => PInf
  | NInf, _ | _, NInf => NInf
  end.

Definition fsub (x y : float64) : float64 := fadd x (fopp y).

(** An infinity times, or divided by, a finite [r]. *)
Definition scale_inf (inf : float64) (r : R) : float64 :=
  if Rlt_dec 0 r then inf else if Rlt_dec r 0 then fopp inf else NaN.

Definition fmul (x y : float64) : float64 :=
  match x, y with
  | Fin a, Fin b => Fin (a * b)
  | NaN, _ | _, NaN => NaN
  | Fin a, inf => scale_inf inf a
  | inf, Fin b => scale_inf inf b
  | PInf, PInf | NInf, NInf => PInf
  | PInf, NInf | NInf, PInf => NInf
  end.

(** numpy's true division: dividing by zero raises nothing, it yields
    [nan] for [0/0] and an infinity otherwise. *)
Definition fdiv (x y : float64) : float64 :=
  match x, y with
  | Fin a, Fin b =>
      if Req_dec_T b 0
      then (if Req_dec_T a 0 then NaN else if Rlt_dec 0 a then PInf else NInf)
      else Fin (a / b)
  | NaN, _ | _, NaN => NaN
  | Fin _, _ => Fin 0
  | inf, Fin b => if Rlt_dec b 0 then fopp inf else inf
  | _, _ => NaN
  end.

(** [np.sqrt]: [nan] below zero. *)
Definition np_sqrt (x : float64) : float64 :=
  match x with
  | Fin r => if Rlt_dec r 0 then NaN else Fin (sqrt r)
  | PInf => PInf
  | NInf | NaN => NaN
  end.

(** [np.exp], exact on finite values: a result below the range of
    float64 is not turned into 0 here, nor one above it into [inf]. *)
Definition np_exp (x : float64) : float64 :=
  match x with
  | Fin r => Fin (exp r)
  | PInf => PInf
  | NInf => Fin 0
  | NaN => NaN
  end.

(** ** numpy arrays *)

Definition vec : Type := list float64.
Definition mat : Type := list vec.

(** What [np.cov] returns and what a covariance argument can be: a 0-d
    array (a scalar) or a 2-d array. *)
Inductive ndarray : Type :=
| Arr0 (x : float64)
| Arr2 (m : mat).

(** The entry read where a list is too short; never reached on a
    rectangular array indexed within its shape. *)
Class Zero (A : Type) : Type := zero : A.
#[export] Instance float64_zero : Zero float64 := Fin 0.
#[export] Instance R_zero : Zero R := 0.

Section Shape.

Context {A : Type} `{Zero A}.

(** [m.shape[1]] *)
Definition shape1 (m : list (list A)) : nat :=
  match m with
  | [] => O
  | r :: _ => length r
  end.

(** [m[i, j]] *)
Definition entry (m : list (list A)) (i j : nat) : A := nth j (nth i m []) zero.

(** [m[:, j]] for [j] within the shape *)
Definition col (m : list (list A)) (j : nat) : list A := map (fun r => nth j r zero) m.

(** [m.T] *)
Definition transpose (m : list (list A)) : list (list A) := map (col m) (seq 0 (shape1 m)).

(** Every row has [d] entries. *)
Definition rows_of (d : nat) (m : list (list A)) : Prop := Forall (fun r => length r = d) m.

End Shape.

(** [[f 0; ...; f (n-1)]] *)
Definition tab {A : Type} (n : nat) (f : nat -> A) : list A := map f (seq 0 n).

Fixpoint zip_with {A B C : Type} (f : A -> B -> C) (u : list A) (v : list B) : list C :=
  match u, v with
  | a :: u', b :: v' => f a b :: zip_with f u' v'
  | _, _ => []
  end.

(** [v.sum()] *)
Definition fsum (v : vec) : float64 := fold_right fadd (Fin 0) v.

(** [m.sum(axis=0)] and [m.sum(1)] *)
Definition sum_axis0 (m : mat) : vec := map (fun j => fsum (col m j)) (seq 0 (shape1 m)).
Definition sum_axis1 (m : mat) : vec := map fsum m.

(** [u - v] for 1-D arrays, with numpy's broadcasting of a length-1 operand. *)
Definition vsub (u v : vec) : result vec :=
  if (length u =? length v)%nat then Ok (zip_with fsub u v)
  else match u, v with
       | [a], _ => Ok (map (fun b => fsub a b) v)
       | _, [b] => Ok (map (fun a => fsub a b) u)
       | _, _ => Raise ValueError
       end.

(** [np.dot(u, v)] for two 1-D arrays. *)
Definition dot_vv (u v : vec) : result float64 :=
  if (length u =? length v)%nat then Ok (fsum (zip_with fmul u v))
  else Raise ValueError.

(** [np.dot(a, b)] for two 2-D arrays. *)
Definition np_dot (a b : mat) : result mat :=
  match a with
  | [] => Ok []
  | _ =>
      if (shape1 a =? length b)%nat
      then Ok (map (fun r => map (fun j => fsum (zip_with fmul r (col b j)))
                                 (seq 0 (shape1 b))) a)
      else Raise ValueError
  end.

(** [np.dot(u, b)] for a 1-D [u] and a 2-D [b]. *)
Definition dot_vm (u : vec) (b : mat) : result vec :=
  if (length u =? length b)%nat
  then Ok (map (fun j => fsum (zip_with fmul u (col b j))) (seq 0 (shape1 b)))
  else Raise ValueError.

(** ** np.linalg: determinant and inverse

    LAPACK's LU-based routines are modelled by what they compute in exact
    arithmetic: the determinant (by expansion along the first row) and
    the inverse (the transposed cofactors over the determinant).  Both
    reject an array that is not a square 2-d array; [inv] also rejects a
    singular one.  Where rounding decides, numpy goes by the pivots it
    has rounded: on a matrix that is singular or nearly so it raises
    only when a rounded pivot is exactly zero, and the exact determinant
    here stands for that test. *)

Fixpoint drop_nth {A : Type} (j : nat) (l : list A) : list A :=
  match l, j with
  | [], _ => []
  | _ :: l', O => l'
  | x :: l', S j' => x :: drop_nth j' l'
  end.

(** The matrix without its row [i] and its column [j]. *)
Definition minor {A : Type} (i j : nat) (m : list (list A)) : list (list A) :=
  map (drop_nth j) (drop_nth i m).

Definition alt_sign (j : nat) : float64 := if Nat.even j then Fin 1 else Fin (-1).

Fixpoint det (n : nat) (m : mat) : float64 :=
  match n with
  | O => Fin 1
  | S n' =>
      match m with
      | [] => Fin 0
      | r :: rest =>
          fsum (map (fun j => fmul (fmul (alt_sign j) (nth j r zero))
                                   (det n' (map (drop_nth j) rest)))
                    (seq 0 n))
      end
  end.

Definition is_square (m : mat) : bool :=
  forallb (fun r => (length r =? length m)%nat) m.

Definition linalg_det (a : ndarray) : result float64 :=
  match a with
  | Arr0 _ => Raise LinAlgError
  | Arr2 m => if is_square m then Ok (det (length m) m) else Raise LinAlgError
  end.

Definition is_zero (x : float64) : bool :=
  match x with
  | Fin r => if Req_dec_T r 0 then true else false
  | _ => false
  end.

Definition linalg_inv (a : ndarray) : result mat :=
  match a with
  | Arr0 _ => Raise LinAlgError
  | Arr2 m =>
      if is_square m then
        let n := length m in
        let d := det n m in
        if is_zero d then Raise LinAlgError
        else Ok (map (fun i => map (fun j =>
                        fdiv (fmul (alt_sign (i + j)) (det (pred n) (minor j i m))) d)
                      (seq 0 n)) (seq 0 n))
      else Raise LinAlgError
  end.

(** ** np.cov(data, rowvar=False)

    The rows of [data] are observations, unless there is exactly one row:
    numpy then leaves the array as it is and reads it as one variable.
    The sum of products of deviations is multiplied by [1 / (M - 1)] for
    [M] observations, and a single variable gives a 0-d array. *)

Definition average (v : vec) : float64 := fdiv (fsum v) (Fin (INR (length v))).

Definition centre (v : vec) : vec := let a := average v in map (fun x => fsub x a) v.

(** [variables] holds one row per variable. *)
Definition cov_rows (variables : mat) : ndarray :=
  let m := shape1 variables in
  let fact := if (m <=? 1)%nat then 0 else INR m - 1 in
  let x := map centre variables in
  let c := map (fun r => map (fun r' =>
                  fmul (fsum (zip_with fmul r r')) (fdiv (Fin 1) (Fin fact))) x) x in
  match c with
  | [[v]] => Arr0 v
  | _ => Arr2 c
  end.

Definition np_cov (data : mat) : ndarray :=
  match data with
  | [_] => cov_rows data
  | _ => cov_rows (transpose data)
  end.

(** ** np.random

    The generator behind [np.random] is a parameter of the development:
    a type of states, the state [np.random.seed] installs, and
    [permutation], which returns a shuffled [range(n)] and the state it
    leaves behind.  The state is global in Python and threaded explicitly
    here. *)

Record generator : Type := {
  random_state : Type;
  seed : Z -> random_state;
  permutation : nat -> random_state -> list nat * random_state
}.

(** What the documentation of [permutation] promises. *)
Definition shuffles (G : generator) : Prop :=
  forall n s, Permutation (fst (permutation G n s)) (seq 0 n).

(** [np.random.choice(a, size, replace=False)] for an integer population
    [a]: numpy checks the population and the size, then keeps the first
    [size] entries of a permutation. *)
Definition random_choice (G : generator) (a : nat) (size : Z) (s : random_state G)
  : result (list nat) * random_state G :=
  if ((a =? 0)%nat && negb (size =? 0)%Z) then (Raise ValueError, s)
  else if (Z.of_nat a <? size)%Z then (Raise ValueError, s)
  else if (size <? 0)%Z then (Raise ValueError, s)
  else let (p, s') := permutation G a s in (Ok (firstn (Z.to_nat size) p), s').

(** ** The density written from scratch (second GMM cell) *)

Definition multivariate_gaussian (x mean : vec) (cov : ndarray) : result float64 :=
  (* k = len(mean) *)
  let k := length mean in
  (* denom = np.sqrt(((2 * np.pi) ** k) * np.linalg.det(cov)) *)
  let* d := linalg_det cov in
  let denom := np_sqrt (fmul (Fin ((2 * PI) ^ k)) d) in
  (* diff = x - mean *)
  let* diff := vsub x mean in
  (* numerator = np.exp(-0.5 * np.dot(np.dot(diff.T, np.linalg.inv(cov)), diff)) *)
  let* icov := linalg_inv cov in
  let* t := dot_vm diff icov in
  let* q := dot_vv t diff in
  let numerator := np_exp (fmul (Fin (-0.5)) q) in
  (* gaussian = numerator / denom *)
  Ok (fdiv numerator denom).

(** ** The EM functions *)

(** A model in the order Python returns it: weights, means, covariances. *)
Definition params : Type := (vec * mat * list ndarray)%type.

Definition initialize_parameters (G : generator) (data : mat) (num_components : Z)
  (s : random_state G) : result (mat * list ndarray * vec) * random_state G :=
  (* np.random.seed(42) *)
  let s1 := seed G 42 in
  (* means = data[np.random.choice(data.shape[0], num_components, replace=False)] *)
  let (chosen, s2) := random_choice G (length data) num_components s1 in
  (let* indices := chosen in
   let* means := mapM (index data) indices in
   (* covariance = [np.cov(data, rowvar=False)] * num_components *)
   let covariance := repeat (np_cov data) (Z.to_nat num_components) in
   (* weights = np.ones(num_components) / num_components *)
   let weights := map (fun one => fdiv one (Fin (IZR num_components)))
                      (repeat (Fin 1) (Z.to_nat num_components)) in
   Ok (means, covariance, weights),
   s2).

Section EStep.

(** The density the E-step calls: [scipy.stats.multivariate_normal.pdf]
    in the first cell, [multivariate_gaussian] in the second. *)
Variable pdf : vec -> vec -> ndarray -> result float64.

(** [prior_pi /= prior_pi.sum(1)[:, np.newaxis]] *)
Definition normalize_rows (prior_pi : mat) : mat :=
  zip_with (fun row t => map (fun x => fdiv x t) row) prior_pi (sum_axis1 prior_pi).

(** The array [np.zeros((n, k))] after each of its columns was assigned. *)
Definition of_columns (n : nat) (columns : mat) : mat :=
  map (fun i => map (fun c => nth i c zero) columns) (seq 0 n).

(** First cell: the density of every point is taken in one call,
    [prior_pi[:, i] = weights[i] * multivariate_normal.pdf(data, mean=means[i], cov=covariances[i])],
    written here as the density of one point after the other.  On data
    with at least one row the two are the same; on data without rows the
    source still makes its call for every component, and this
    embedding, like that of the other functions, does not cover it. *)
Definition e_step (data : mat) (weights : vec) (means : mat) (covariances : list ndarray)
  (num_components : Z) : result mat :=
  (* prior_pi = np.zeros((data.shape[0], num_components)) *)
  if (num_components <? 0)%Z then Raise ValueError
  else
    let* columns :=
      mapM (fun i =>
              let* w := index weights i in
              let* mu := index means i in
              let* c := index covariances i in
              mapM (fun x => let* d := pdf x mu c in Ok (fmul w d)) data)
           (seq 0 (Z.to_nat num_components)) in
    Ok (normalize_rows (of_columns (length data) columns)).

(** Second cell: one call of the density per point,
    [prior_pi[point, i] = weights[i] * multivariate_gaussian(data[point], means[i], covariance[i])]. *)
Definition e_step_pointwise (data : mat) (weights : vec) (means : mat)
  (covariances : list ndarray) (num_components : Z) : result mat :=
  if (num_components <? 0)%Z then Raise ValueError
  else
    let* columns :=
      mapM (fun i =>
              mapM (fun x =>
                      let* w := index weights i in
                      let* mu := index means i in
                      let* c := index covariances i in
                      let* d := pdf x mu c in
                      Ok (fmul w d)) data)
           (seq 0 (Z.to_nat num_components)) in
    Ok (normalize_rows (of_columns (length data) columns)).

End EStep.

Definition m_step (data prior_pi : mat) (num_components : Z) : result params :=
  (* n_k = prior_pi.sum(axis=0) *)
  let n_k := sum_axis0 prior_pi in
  (* weights = n_k / data.shape[0] *)
  let weights := map (fun x => fdiv x (Fin (INR (length data)))) n_k in
  (* means = np.dot(prior_pi.T, data) / n_k[:, np.newaxis] *)
  let* sums := np_dot (transpose prior_pi) data in
  let means := zip_with (fun row n => map (fun x => fdiv x n) row) sums n_k in
  (* for i in range(num_components): *)
  let* covariance :=
    mapM (fun i =>
            (* diff_mat = data - means[i] *)
            let* mean_i := index means i in
            let* diff_mat := mapM (fun x => vsub x mean_i) data in
            (* weighted_diff = diff_mat.T * prior_pi[:, i] *)
            let* resp := (if (i <? shape1 prior_pi)%nat then Ok (col prior_pi i)
                          else Raise IndexError) in
            let weighted_diff := map (fun r => zip_with fmul r resp) (transpose diff_mat) in
            (* covariance.append(np.dot(weighted_diff, diff_mat) / n_k[i]) *)
            let* scatter := np_dot weighted_diff diff_mat in
            let* n := index n_k i in
            Ok (Arr2 (map (map (fun x => fdiv x n)) scatter)))
         (seq 0 (Z.to_nat num_components)) in
  Ok (weights, means, covariance).

Section Driver.

Variable G : generator.

(** The function the name [e_step] is bound to when [gmm_step] runs. *)
Variable e_step_bound : mat -> vec -> mat -> list ndarray -> Z -> result mat.

(** One turn of the loop body. *)
Definition em_iteration (data : mat) (num_components : Z) (theta : params) : result params :=
  let '(weights, means, covariances) := theta in
  let* prior_pi := e_step_bound data weights means covariances num_components in
  m_step data prior_pi num_components.

(** [for iteration in range(max_iters)]: the body has no [break]. *)
Fixpoint em_loop (data : mat) (num_components : Z) (turns : nat) (theta : params)
  : result params :=
  match turns with
  | O => Ok theta
  | S turns' =>
      let* theta' := em_iteration data num_components theta in
      em_loop data num_components turns' theta'
  end.

Definition gmm_step (data : mat) (num_components : Z) (max_iters : Z)
  (s : random_state G) : result params * random_state G :=
  let (init, s') := initialize_parameters G data num_components s in
  (let* (means, covariances, weights) := init in
   em_loop data num_components (Z.to_nat max_iters) (weights, means, covariances),
   s').

(** The same loop, recording the model reached after each turn (the
    source keeps no such record): the last entry is what [gmm_step]
    returns, the length is the number of E/M turns performed. *)
Fixpoint em_history (data : mat) (num_components : Z) (turns : nat) (theta : params)
  : result (list params) :=
  match turns with
  | O => Ok []
  | S turns' =>
      let* theta' := em_iteration data num_components theta in
      let* rest := em_history data num_components turns' theta' in
      Ok (theta' :: rest)
  end.

Definition gmm_history (data : mat) (num_components : Z) (max_iters : Z)
  (s : random_state G) : result (list params) :=
  let* (means, covariances, weights) := fst (initialize_parameters G data num_components s) in
  em_history data num_components (Z.to_nat max_iters) (weights, means, covariances).

End Driver.

(** ** The formulas of the specification, over real numbers *)

(** [f 0 + ... + f (n-1)] *)
Fixpoint sigma (n : nat) (f : nat -> R) : R :=
  match n with
  | O => 0
  | S n' => f O + sigma n' (fun i => f (S i))
  end.

(** Finite arrays. *)
Definition lift_v (v : list R) : vec := map Fin v.
Definition lift_m (m : list (list R)) : mat := map (map Fin) m.

Section MStepFormulas.

(** The points and the responsibilities. *)
Variables X P : list (list R).

(** [n_k]: the responsibility mass of component [k]. *)
Definition mass (k : nat) : R := sigma (length X) (fun n => entry P n k).

Definition new_weight (k : nat) : R := mass k / INR (length X).

Definition new_mean (k d : nat) : R :=
  sigma (length X) (fun n => entry P n k * entry X n d) / mass k.

(** Entry [(a, b)] of the scatter matrix around the new mean. *)
Definition new_cov (k a b : nat) : R :=
  sigma (length X)
        (fun n => entry P n k * ((entry X n a - new_mean k a) * (entry X n b - new_mean k b)))
  / mass k.

End MStepFormulas.

(** The posterior of component [k] at point [n], for weights [w] and
    densities [dens n j]. *)
Definition joint (w : list R) (dens : nat -> nat -> R) (n j : nat) : R := nth j w 0 * dens n j.

Definition evidence (K : nat) (w : list R) (dens : nat -> nat -> R) (n : nat) : R :=
  sigma K (joint w dens n).

Definition responsibility (K : nat) (w : list R) (dens : nat -> nat -> R) (n k : nat) : R :=
  joint w dens n k / evidence K w dens n.

(** Determinant and inverse of a real matrix. *)
Fixpoint Rdet (n : nat) (m : list (list R)) : R :=
  match n with
  | O => 1
  | S n' =>
      match m with
      | [] => 0
      | r :: rest =>
          sigma n (fun j => (-1) ^ j * nth j r 0 * Rdet n' (map (drop_nth j) rest))
      end
  end.

Definition Rinverse (m : list (list R)) : list (list R) :=
  let n := length m in
  tab n (fun i => tab n (fun j => (-1) ^ (i + j) * Rdet (pred n) (minor j i m) / Rdet n m)).

(** [(x - mu)^T C^-1 (x - mu)] *)
Definition mahalanobis (x mu : list R) (c : list (list R)) : R :=
  let d := length mu in
  sigma d (fun j => sigma d (fun i => (nth i x 0 - nth i mu 0) * entry (Rinverse c) i j)
                    * (nth j x 0 - nth j mu 0)).

(** [(2 pi)^(-D/2) det(C)^(-1/2) exp(-1/2 (x - mu)^T C^-1 (x - mu))] *)
Definition gaussian_density (x mu : list R) (c : list (list R)) : R :=
  let d := length mu in
  Rpower (2 * PI) (- (INR d / 2)) * Rpower (Rdet d c) (- (1 / 2))
  * exp (- (1 / 2) * mahalanobis x mu c).

(** ** Sample inputs *)

(** Three points of the plane, not on a line. *)
Definition triangle : list (list R) := [[0; 0]; [2; 0]; [0; 2]].

Definition origin : list R := [0; 0].



Definition shared : list (list R) := [[1; 0]; [0; 1]; [1 / 2; 1 / 2]].

(** One point that the second of two components takes no part in. *)
Definition lonely_point : list (list R) := [[1]].
Definition one_sided : list (list R) := [[1; 0]].

(** A generator for the examples: the state is a counter, seeding sets
    it, and [permutation] rotates [range(n)] by the counter. *)
Definition rotate {A : Type} (k : nat) (l : list A) : list A := skipn k l ++ firstn k l.

Definition rotating : generator := {|
  random_state := Z;
  seed := fun z => z;
  permutation := fun n s => (rotate (Z.to_nat (s mod Z.of_nat n)) (seq 0 n), (s + 1)%Z)
|}.

(** The model one component reaches on [triangle]: the mean and the
    covariance of the whole sample. *)
Definition sample_mean : list R := [2 / 3; 2 / 3].
Definition sample_cov : list (list R) := [[8 / 9; - (4 / 9)]; [- (4 / 9); 8 / 9]].
Definition single_gaussian : params :=
  ([Fin 1], [lift_v sample_mean], [Arr2 (lift_m sample_cov)]).

(** [np.cov] of [triangle]. *)
Definition unbiased_cov : list (list R) := [[4 / 3; - (2 / 3)]; [- (2 / 3); 4 / 3]].

(** ** Matrices as functions of their indices *)

(** The index of column [c] once column [j] is left out. *)
Definition skip (j c : nat) : nat := if (c <? j)%nat then c else S c.

Definition fminor (i j : nat) (a : nat -> nat -> R) : nat -> nat -> R :=
  fun r c => a (skip i r) (skip j c).

(** Expansion along the first row. *)
Fixpoint fdet (n : nat) (a : nat -> nat -> R) : R :=
  match n with
  | O => 1
  | S n' => sigma n (fun j => (-1) ^ j * a O j * fdet n' (fminor 0 j a))
  end.

(** Row [r] replaced by [u]. *)
Definition with_row (r : nat) (u : nat -> R) (a : nat -> nat -> R) : nat -> nat -> R :=
  fun i j => if (i =? r)%nat then u j else a i j.

(** Rows [r] and [r + 1] exchanged. *)
Definition swap_rows (r : nat) (a : nat -> nat -> R) : nat -> nat -> R :=
  fun i j => if (i =? r)%nat then a (S r) j else if (i =? S r)%nat then a r j else a i j.

Definition cofactor (n : nat) (a : nat -> nat -> R) (i j : nat) : R :=
  (-1) ^ (i + j) * fdet (pred n) (fminor i j a).

Definition finverse (n : nat) (a : nat -> nat -> R) (i j : nat) : R :=
  cofactor n a j i / fdet n a.

(** The Schur complement of the top-left entry. *)
Definition schur (a : nat -> nat -> R) : nat -> nat -> R :=
  fun r c => a (S r) (S c) - a (S r) O * a O (S c) / a O O.

(** Rows [1 .. m] cleared of their first entry with the first row. *)
Definition eliminate (m : nat) (a : nat -> nat -> R) : nat -> nat -> R :=
  fun i j => if ((1 <=? i)%nat && (i <=? m)%nat)%bool
             then a i j - a i O / a O O * a O j
             else a i j.

(** [v^T a v] *)
Definition qf (n : nat) (a : nat -> nat -> R) (v : nat -> R) : R :=
  sigma n (fun i => sigma n (fun j => v i * a i j * v j)).

(** Symmetric and positive definite. *)
Definition pos_def (n : nat) (a : nat -> nat -> R) : Prop :=
  (forall i j, (i < n)%nat -> (j < n)%nat -> a i j = a j i)
  /\ (forall v, (exists i, (i < n)%nat /\ v i <> 0) -> 0 < qf n a v).

(** [v^T a^-1 v] *)
Definition qinv (n : nat) (a : nat -> nat -> R) (v : nat -> R) : R := qf n (finverse n a) v.

(** [a w = v] on the first [n] indices. *)
Definition solves (n : nat) (a : nat -> nat -> R) (w v : nat -> R) : Prop :=
  forall i, (i < n)%nat -> sigma n (fun j => a i j * w j) = v i.

(** The weighted second moments of the vectors [y n], over [total]. *)
Definition moment (N : nat) (r : nat -> R) (y : nat -> nat -> R) (total : R)
  : nat -> nat -> R :=
  fun i j => sigma N (fun n => r n * y n i * y n j) / total.

(** ** The objective of the specification *)

(** The density of the mixture at a point and the log-likelihood of the
    points.  The notebook computes neither. *)
Definition mixture_density (K : nat) (W : list R) (M : list (list R))
  (C : list (list (list R))) (x : list R) : R :=
  sigma K (fun k => nth k W 0 * gaussian_density x (nth k M []) (nth k C [])).

Definition log_likelihood (K : nat) (X : list (list R)) (W : list R) (M : list (list R))
  (C : list (list (list R))) : R :=
  sigma (length X) (fun n => ln (mixture_density K W M C (nth n X []))).

(** A model with finite entries, as the arrays the functions take. *)
Definition lift_c (C : list (list (list R))) : list ndarray :=
  map (fun c => Arr2 (lift_m c)) C.

Definition lift_params (W : list R) (M : list (list R)) (C : list (list (list R))) : params :=
  (lift_v W, lift_m M, lift_c C).

(** A mixture the log-likelihood is defined on: [K] positive weights of
    sum 1, [K] means of [D] coordinates, [K] positive definite [D] x [D]
    covariances. *)
Definition proper_covariance (D : nat) (c : list (list R)) : Prop :=
  length c = D /\ rows_of D c /\ pos_def D (entry c).

(** What the E-step needs of the density function it calls: on points
    and means of [D] coordinates and a proper covariance it returns the
    Gaussian density.  [multivariate_normal.pdf] of scipy is taken to
    meet it; [multivariate_gaussian] of the notebook is proved to. *)
Definition gaussian_pdf (D : nat) (pdf : vec -> vec -> ndarray -> result float64) : Prop :=
  forall (x m : list R) (c : list (list R)),
    length x = D -> length m = D -> proper_covariance D c ->
    pdf (lift_v x) (lift_v m) (Arr2 (lift_m c)) = Ok (Fin (gaussian_density x m c)).

Definition proper_mixture (D K : nat) (W : list R) (M : list (list R))
  (C : list (list (list R))) : Prop :=
  length W = K /\ Forall (fun w => 0 < w) W /\ sigma K (fun k => nth k W 0) = 1
  /\ length M = K /\ rows_of D M
  /\ length C = K /\ Forall (proper_covariance D) C.

(** * The other cells: k-means, purity and Gini index, coin flips *)

(** ** Models with finite entries *)

Definition model : Type := (list R * list (list R) * list (list (list R)))%type.

Definition lift_model (m : model) : params :=
  let '(W, M, C) := m in lift_params W M C.

Definition model_likelihood (K : nat) (X : list (list R)) (m : model) : R :=
  let '(W, M, C) := m in log_likelihood K X W M C.

Definition positive_definite_model (D : nat) (m : model) : Prop :=
  let '(_, _, C) := m in Forall (fun c => pos_def D (entry c)) C.

(** [v^T v] *)
Definition norm2 (d : nat) (v : nat -> R) : R := sigma d (fun i => v i * v i).

(** ** Purity and Gini index of a clustering (first cell)

    Labels are integers.  [contingency_matrix] of scikit-learn is
    modelled by what it documents: one row per distinct true label and
    one column per distinct cluster label, both in ascending order, each
    entry counting the samples with that pair of labels; label arrays of
    different lengths are rejected.  Counts are unbounded integers. *)

#[export] Instance Z_zero : Zero Z := 0%Z.

Fixpoint insert_unique (x : Z) (l : list Z) : list Z :=
  match l with
  | [] => [x]
  | y :: l' =>
      if (x <? y)%Z then x :: l
      else if (x =? y)%Z then l
      else y :: insert_unique x l'
  end.

(** [np.unique]: the distinct values, ascending. *)
Definition np_unique (l : list Z) : list Z := fold_right insert_unique [] l.

Definition pair_eq_dec (u v : Z * Z) : {u = v} + {u <> v}.
Proof. decide equality; apply Z.eq_dec. Defined.

(** The number of samples of class [c] in cluster [k]. *)
Definition count_pair (samples : list (Z * Z)) (c k : Z) : Z :=
  Z.of_nat (count_occ pair_eq_dec samples (c, k)).

Definition contingency_matrix (labels_true labels_pred : list Z) : result (list (list Z)) :=
  if (length labels_true =? length labels_pred)%nat
  then
    let samples := combine labels_true labels_pred in
    Ok (map (fun c => map (fun k => count_pair samples c k) (np_unique labels_pred))
            (np_unique labels_true))
  else Raise ValueError.

(** [np.sum] of integers. *)
Definition zsum (l : list Z) : Z := fold_right Z.add 0%Z l.

(** [np.amax(m, axis=0)]: numpy refuses to take a maximum over no row. *)
Definition zmax (l : list Z) : Z :=
  match l with
  | [] => 0%Z
  | x :: l' => fold_left Z.max l' x
  end.

Definition amax_axis0 (m : list (list Z)) : result (list Z) :=
  match m with
  | [] => Raise ValueError
  | _ => Ok (map (fun j => zmax (col m j)) (seq 0 (shape1 m)))
  end.

Definition purity_score (true_labels centroid_labels : list Z) : result float64 :=
  (* contingency = contingency_matrix(true_labels, centroid_labels) *)
  let* contingency := contingency_matrix true_labels centroid_labels in
  (* majority = np.sum(np.amax(contingency, axis=0)) *)
  let* maxima := amax_axis0 contingency in
  let majority := zsum maxima in
  (* purity = majority / np.sum(contingency) *)
  Ok (fdiv (Fin (IZR majority)) (Fin (IZR (zsum (map zsum contingency))))).

(** One turn of [for cluster in range(contingency.shape[1])]. *)
Definition gini_turn (contingency : list (list Z)) (n_samples : Z) (gini : float64)
  (cluster : nat) : float64 :=
  (* cluster_size = np.sum(contingency[:, cluster]) *)
  let column := col contingency cluster in
  let cluster_size := zsum column in
  (* if cluster_size == 0: continue *)
  if (cluster_size =? 0)%Z then gini
  else
    (* prob = contingency[:, cluster] / cluster_size *)
    let prob := map (fun c => fdiv (Fin (IZR c)) (Fin (IZR cluster_size))) column in
    (* count = 1 - np.sum(prob ** 2) *)
    let count := fsub (Fin 1) (fsum (map (fun q => fmul q q) prob)) in
    (* gini += (cluster_size / n_samples) * count *)
    fadd gini (fmul (fdiv (Fin (IZR cluster_size)) (Fin (IZR n_samples))) count).

Definition gini_index (true_labels centroid_labels : list Z) : result float64 :=
  let* contingency := contingency_matrix true_labels centroid_labels in
  (* n_samples = np.sum(contingency) *)
  let n_samples := zsum (map zsum contingency) in
  (* gini = 0 *)
  Ok (fold_left (gini_turn contingency n_samples) (seq 0 (shape1 contingency)) (Fin 0)).

(** ** Comparisons and reductions of float64 *)

Definition is_nan (x : float64) : bool :=
  match x with
  | NaN => true
  | _ => false
  end.

Definition is_finite_b (x : float64) : bool :=
  match x with
  | Fin _ => true
  | _ => false
  end.

(** [x <= y], false when either is nan. *)
Definition fle (x y : float64) : bool :=
  match x, y with
  | Fin a, Fin b => if Rle_dec a b then true else false
  | NaN, _ | _, NaN => false
  | NInf, _ => true
  | _, PInf => true
  | _, _ => false
  end.

(** [x < y], false when either is nan. *)
Definition flt (x y : float64) : bool :=
  match x, y with
  | Fin a, Fin b => if Rlt_dec a b then true else false
  | NaN, _ | _, NaN => false
  | NInf, NInf | PInf, _ => false
  | NInf, _ => true
  | _, PInf => true
  | _, NInf => false
  end.

(** [x == y] *)
Definition feq (x y : float64) : bool :=
  match x, y with
  | Fin a, Fin b => if Req_dec_T a b then true else false
  | PInf, PInf | NInf, NInf => true
  | _, _ => false
  end.

(** [np.abs] *)
Definition fabs (x : float64) : float64 :=
  match x with
  | Fin r => Fin (Rabs r)
  | PInf | NInf => PInf
  | NaN => NaN
  end.

(** [np.log]: minus infinity at zero, nan below. *)
Definition np_log (x : float64) : float64 :=
  match x with
  | Fin r => if Rlt_dec 0 r then Fin (ln r) else if Req_dec_T r 0 then NInf else NaN
  | PInf => PInf
  | NInf | NaN => NaN
  end.

(** numpy's scan for [argmin]: an entry takes over when it is not [>=]
    the smallest so far, and a nan ends the scan.  [mp] is the smallest
    so far, [ind] its index, [i] the index of the head of [l]. *)
Fixpoint argmin_scan (mp : float64) (ind i : nat) (l : vec) : nat :=
  match l with
  | [] => ind
  | v :: l' =>
      if negb (fle mp v)
      then (if is_nan v then i else argmin_scan v i (S i) l')
      else argmin_scan mp ind (S i) l'
  end.

(** [np.argmin] of a 1-D array. *)
Definition argmin (l : vec) : result nat :=
  match l with
  | [] => Raise ValueError
  | v :: l' => Ok (if is_nan v then O else argmin_scan v 0 1 l')
  end.

(** [np.minimum]: the first operand if it is smaller or nan. *)
Definition fminimum (a b : float64) : float64 := if (fle a b || is_nan a)%bool then a else b.

(** [np.min] of a 1-D array. *)
Definition np_min (l : vec) : result float64 :=
  match l with
  | [] => Raise ValueError
  | v :: l' => Ok (fold_left fminimum l' v)
  end.

(** [np.argmin(m, axis=1)] and [np.min(m, axis=1)] for an array of
    [columns] columns: numpy refuses to reduce an axis of length 0. *)
Definition argmin_axis1 (columns : nat) (m : mat) : result (list nat) :=
  if (columns =? 0)%nat then Raise ValueError else mapM argmin m.

Definition min_axis1 (columns : nat) (m : mat) : result vec :=
  if (columns =? 0)%nat then Raise ValueError else mapM np_min m.

(** ** scipy.spatial.distance.cdist(XA, XB, metric='euclidean') *)

Definition euclidean (u v : vec) : float64 :=
  np_sqrt (fsum (zip_with (fun a b => fmul (fsub a b) (fsub a b)) u v)).

Definition is_nil {A : Type} (l : list A) : bool :=
  match l with
  | [] => true
  | _ => false
  end.

(** The two arrays must have as many columns; the result has a row per
    row of [XA] and a column per row of [XB]. *)
Definition cdist (XA XB : mat) : result mat :=
  if (is_nil XA || is_nil XB || (shape1 XA =? shape1 XB)%nat)%bool
  then Ok (map (fun u => map (euclidean u) XB) XA)
  else Raise ValueError.

(** ** np.allclose(a, b) with the default tolerances *)

(** Operands of equal length are paired; an operand of length 1 is
    repeated. *)
Definition broadcast {A B C : Type} (f : A -> B -> result C) (u : list A) (v : list B)
  : result (list C) :=
  if (length u =? length v)%nat then mapM (fun ab => f (fst ab) (snd ab)) (combine u v)
  else match u, v with
       | [a], _ => mapM (f a) v
       | _, [b] => mapM (fun a => f a b) u
       | _, _ => Raise ValueError
       end.

Definition rtol : R := 1 / 100000.
Definition atol : R := 1 / 100000000.

(** [np.isclose]: [|x - y| <= atol + rtol * |y|] on finite operands,
    equality otherwise. *)
Definition isclose (x y : float64) : bool :=
  if (is_finite_b x && is_finite_b y)%bool
  then fle (fabs (fsub x y)) (fadd (Fin atol) (fmul (Fin rtol) (fabs y)))
  else feq x y.

Definition np_allclose (a b : mat) : result bool :=
  let* close := broadcast (broadcast (fun x y => Ok (isclose x y))) a b in
  Ok (forallb (forallb (fun c => c)) close).

(** ** The KMeans class (first cell) *)

Module KMeans.

(** The attributes of an instance; [None] is Python's [None]. *)
Record state : Type := {
  k : Z;
  max_iters : Z;
  centroids : option mat;
  labels : option (list nat);
  objective_values : vec
}.

(** [KMeans(k, max_iters)] *)
Definition init (k max_iters : Z) : state :=
  {| k := k; max_iters := max_iters; centroids := None; labels := None;
     objective_values := [] |}.

Definition set_centroids (self : state) (c : mat) : state :=
  {| k := k self; max_iters := max_iters self; centroids := Some c; labels := labels self;
     objective_values := objective_values self |}.

Definition set_labels (self : state) (l : list nat) : state :=
  {| k := k self; max_iters := max_iters self; centroids := centroids self; labels := Some l;
     objective_values := objective_values self |}.

Definition append_objective (self : state) (v : float64) : state :=
  {| k := k self; max_iters := max_iters self; centroids := centroids self;
     labels := labels self; objective_values := objective_values self ++ [v] |}.

Definition initialize_centroids (G : generator) (self : state) (data : mat)
  (s : random_state G) : result mat * random_state G :=
  (* indices = np.random.choice(data.shape[0], self.k, replace=False) *)
  let (chosen, s') := random_choice G (length data) (k self) s in
  (* return data[indices] *)
  (let* indices := chosen in mapM (index data) indices, s').

Definition cluster_assignment (data centroids : mat) : result (list nat) :=
  (* distances = cdist(data, centroids, metric='euclidean') *)
  let* distances := cdist data centroids in
  (* return np.argmin(distances, axis=1) *)
  argmin_axis1 (length centroids) distances.

(** [data[mask]] for a boolean mask. *)
Definition select_rows (data : mat) (mask : list bool) : result mat :=
  if (length mask =? length data)%nat
  then Ok (map fst (filter snd (combine data mask)))
  else Raise IndexError.

(** [rows.mean(axis=0)] for rows of [columns] entries: with no row,
    every entry is [0/0]. *)
Definition mean_axis0 (columns : nat) (rows : mat) : vec :=
  map (fun j => fdiv (fsum (col rows j)) (Fin (INR (length rows)))) (seq 0 columns).

Definition update_centroids (self : state) (data : mat) (labels : list nat) : result mat :=
  (* centroids = np.array([data[labels == i].mean(axis=0) for i in range(self.k)]) *)
  mapM (fun i =>
          let* members := select_rows data (map (fun l => (l =? i)%nat) labels) in
          Ok (mean_axis0 (shape1 data) members))
       (seq 0 (Z.to_nat (k self))).

Definition objective (self : state) (data : mat) : result float64 :=
  (* distances = cdist(data, self.centroids, 'euclidean') *)
  let* current := (match centroids self with
                   | Some c => Ok c
                   | None => Raise ValueError
                   end) in
  let* distances := cdist data current in
  (* min_distances = np.min(distances, axis=1) *)
  let* min_distances := min_axis1 (length current) distances in
  (* return np.sum(min_distances ** 2) *)
  Ok (fsum (map (fun d => fmul d d) min_distances)).

(** The loop of [fit], [turns] turns at most, on an instance whose
    centroids are set. *)
Fixpoint fit_loop (data : mat) (turns : nat) (self : state) : result state :=
  match turns with
  | O => Ok self
  | S turns' =>
      let* current := (match centroids self with
                       | Some c => Ok c
                       | None => Raise ValueError
                       end) in
      (* self.labels = self.cluster_assignment(data, self.centroids) *)
      let* assigned := cluster_assignment data current in
      let self := set_labels self assigned in
      (* new_centroids = self.update_centroids(data, self.labels) *)
      let* new_centroids := update_centroids self data assigned in
      (* objective_value = self.objective(data) *)
      let* objective_value := objective self data in
      (* self.objective_values.append(objective_value) *)
      let self := append_objective self objective_value in
      (* if np.allclose(self.centroids, new_centroids): break *)
      let* close := np_allclose current new_centroids in
      if close then Ok self
      (* self.centroids = new_centroids *)
      else fit_loop data turns' (set_centroids self new_centroids)
  end.

(** An exception leaves the instance as it was when it was raised; that
    state is not returned here. *)
Definition fit (G : generator) (self : state) (data : mat) (s : random_state G)
  : result state * random_state G :=
  (* self.centroids = self.initialize_centroids(data) *)
  let (initial, s') := initialize_centroids G self data s in
  (let* c := initial in
   (* for i in range(self.max_iters): *)
   fit_loop data (Z.to_nat (max_iters self)) (set_centroids self c),
   s').

End KMeans.

(** ** Clusters over the reals *)

(** The squared distance of two points. *)
Definition sqdist (x c : list R) : R :=
  sigma (length x) (fun d => (nth d x 0 - nth d c 0) * (nth d x 0 - nth d c 0)).

(** 1 where point [n] has label [i], 0 elsewhere. *)
Definition member (labels : list nat) (i n : nat) : R :=
  if (nth n labels O =? i)%nat then 1 else 0.

(** The number of points with label [i], and their mean. *)
Definition cluster_size (labels : list nat) (i : nat) : R :=
  sigma (length labels) (member labels i).

Definition cluster_mean (X : list (list R)) (labels : list nat) (i d : nat) : R :=
  sigma (length X) (fun n => member labels i n * entry X n d) / cluster_size labels i.

(** What the points pay for their assigned centroids. *)
Definition assigned_cost (X Cs : list (list R)) (labels : list nat) : R :=
  sigma (length X) (fun n => sqdist (nth n X []) (nth (nth n labels O) Cs [])).

(** Wherever two consecutive entries are finite, the second is not the
    larger. *)
Definition descends (l : vec) : Prop :=
  forall i a b, nth_error l i = Some (Fin a) -> nth_error l (S i) = Some (Fin b) -> b <= a.

(** Centroids as the loop of [fit] holds them on finite data: every row
    is a finite point of [D] coordinates or [D] times nan. *)
Definition centroid_rows (D : nat) (cs : mat) : Prop :=
  Forall (fun row => (exists r : list R, length r = D /\ row = lift_v r)
                     \/ row = repeat NaN D) cs.

(** ** Coin flips (last cell)

    [binom.pmf] of scipy is modelled by what it documents: nan for a
    number of trials below 0 or a probability outside [0, 1], 0 outside
    the support, and [C(n, k) p^k (1 - p)^(n - k)] on it.  That value
    is exact here; scipy returns 0 for one below the range of float64,
    which is why the properties of the coins are stated for likelihoods
    that stay within it ([no_underflow] below).  The samples are
    integers; a row of [data] holds the flips of one sample. *)

Module Coin.

Definition binom_pmf (k n : Z) (p : float64) : float64 :=
  match p with
  | Fin q =>
      if (n <? 0)%Z then NaN
      else if Rlt_dec q 0 then NaN
      else if Rlt_dec 1 q then NaN
      else if ((k <? 0) || (n <? k))%Z then Fin 0
      else Fin (C (Z.to_nat n) (Z.to_nat k) * q ^ Z.to_nat k * (1 - q) ^ Z.to_nat (n - k))
  | _ => NaN
  end.

(** Lengths numpy broadcasts against each other. *)
Definition compatible (a b : nat) : bool := ((a =? b) || (a =? 1) || (b =? 1))%nat.

(** [u * v] for 1-D operands of compatible lengths. *)
Definition times (u v : vec) : vec :=
  if (length u =? length v)%nat then zip_with fmul u v
  else match u, v with
       | [a], _ => map (fun b => fmul a b) v
       | _, [b] => map (fun a => fmul a b) u
       | _, _ => []
       end.

(** The first three lines that [compute_responsibilities] and
    [log_likelihood] share. *)
Definition weighted_likelihoods (data : list (list Z)) (num_flips : Z) (bias prior : vec)
  : result mat :=
  (* num_heads = np.sum(data, axis=1, keepdims=True) *)
  let num_heads := map zsum data in
  (* likelihoods = binom.pmf(num_heads, num_flips, bias) *)
  let likelihoods := map (fun h => map (binom_pmf h num_flips) bias) num_heads in
  (* weighted_likelihoods = likelihoods * prior *)
  if compatible (length bias) (length prior)
  then Ok (map (fun row => times row prior) likelihoods)
  else Raise ValueError.

Definition compute_responsibilities (data : list (list Z)) (num_flips : Z)
  (bias prior : vec) : result mat :=
  let* weighted := weighted_likelihoods data num_flips bias prior in
  (* normalized_likelihoods
       = weighted_likelihoods / np.sum(weighted_likelihoods, axis=1, keepdims=True) *)
  Ok (normalize_rows weighted).

Definition update_parameters (data : list (list Z)) (num_flips : Z) (responsibilities : mat)
  : result (vec * vec) :=
  (* num_heads = np.sum(data, axis=1) *)
  let num_heads := map (fun row => Fin (IZR (zsum row))) data in
  (* updated_biases = np.dot(responsibilities.T, num_heads)
                      / (num_flips * np.sum(responsibilities, axis=0)) *)
  let* heads := (if (length responsibilities =? length num_heads)%nat
                 then Ok (map (fun column => fsum (zip_with fmul column num_heads))
                              (transpose responsibilities))
                 else Raise ValueError) in
  let totals := sum_axis0 responsibilities in
  let updated_biases :=
    zip_with fdiv heads (map (fun t => fmul (Fin (IZR num_flips)) t) totals) in
  (* updated_priors = np.mean(responsibilities, axis=0) *)
  let updated_priors := map (fun t => fdiv t (Fin (INR (length responsibilities)))) totals in
  Ok (updated_biases, updated_priors).

Definition log_likelihood (data : list (list Z)) (num_flips : Z) (bias prior : vec)
  : result float64 :=
  let* weighted := weighted_likelihoods data num_flips bias prior in
  (* total_likelihood = np.sum(weighted_likelihoods, axis=1) *)
  let total_likelihood := sum_axis1 weighted in
  (* return np.sum(np.log(total_likelihood)) *)
  Ok (fsum (map np_log total_likelihood)).

(** The loop of [coin_probabilities]: [turns] turns at most, the last
    log-likelihood in [previous]. *)
Fixpoint coin_loop (data : list (list Z)) (num_flips : Z) (tolerance : float64)
  (turns : nat) (biases priors : vec) (previous : float64) : result (vec * vec) :=
  match turns with
  | O => Ok (biases, priors)
  | S turns' =>
      (* responsibilities = compute_responsibilities(data, num_flips, biases, priors) *)
      let* responsibilities := compute_responsibilities data num_flips biases priors in
      (* biases, priors = update_parameters(data, num_flips, responsibilities) *)
      let* (biases, priors) := update_parameters data num_flips responsibilities in
      (* current_log_likelihood = log_likelihood(data, num_flips, biases, priors) *)
      let* current := log_likelihood data num_flips biases priors in
      (* if np.abs(current_log_likelihood - previous_log_likelihood) < tolerance: break *)
      if flt (fabs (fsub current previous)) tolerance then Ok (biases, priors)
      else coin_loop data num_flips tolerance turns' biases priors current
  end.


Section Draw.

Variable G : generator.

(** [np.random.rand(n)]: [n] numbers drawn from the generator. *)
Variable random_rand : nat -> random_state G -> list R * random_state G.

Definition coin_probabilities (data : list (list Z)) (num_flips num_coins max_iter : Z)
  (tolerance : float64) (s : random_state G) : result (vec * vec) * random_state G :=
  (* biases = np.random.rand(num_coins) *)
  if (num_coins <? 0)%Z then (Raise ValueError, s)
  else
    let (drawn, s') := random_rand (Z.to_nat num_coins) s in
    (* priors = np.array([0.33,0.33,0.33]) *)
    let priors := [Fin (33 / 100); Fin (33 / 100); Fin (33 / 100)] in
    (* previous_log_likelihood = -np.inf *)
    (coin_loop data num_flips tolerance (Z.to_nat max_iter) (lift_v drawn) priors NInf, s').

End Draw.

End Coin.

(** ** Coins over the reals *)

(** The probability of [h] heads in [d] flips of a coin of bias [p]. *)
Definition heads_probability (d h : nat) (p : R) : R := C d h * p ^ h * (1 - p) ^ (d - h).


(** The smallest positive normal float64, [2^-1022].  Exact arithmetic
    stands for float64 only from there on: a smaller result loses
    digits, and one below [2^-1075] is returned as 0. *)
Definition float_min : R := / 2 ^ 1022.

(** Under biases [P] and priors [W], the weighted likelihood of every
    sample under every coin, as [weighted_likelihoods] computes it, is
    finite and not below [float_min]. *)
Definition no_underflow (data : list (list Z)) (d : nat) (m : list R * list R) : Prop :=
  exists J : list (list R),
    Coin.weighted_likelihoods data (Z.of_nat d) (lift_v (fst m)) (lift_v (snd m))
    = Ok (lift_m J)
    /\ Forall (Forall (fun j => float_min <= j)) J.

(** A [np.random.rand] for the examples: the first quarters of the unit
    interval, the state of [rotating] moved by one. *)
Definition quarters (n : nat) (s : random_state rotating) : list R * random_state rotating :=
  (firstn n [1 / 4; 1 / 2; 3 / 4], (s + 1)%Z).


(** Three samples of two flips. *)
Definition three_samples : list (list Z) := [[1; 0]; [0; 0]; [1; 1]]%Z.

(** * Properties *)

(** Case analysis on the tests a float operation makes. *)
Ltac float_cases :=
  repeat (simpl;
          match goal with
          | |- context [Req_dec_T ?a ?b] => destruct (Req_dec_T a b); try lra
          | |- context [Rlt_dec ?a ?b] => destruct (Rlt_dec a b); try lra
          end).

(** Equality of two models, entry by entry. *)
Ltac struct_eq :=
  repeat match goal with
    | |- Ok _ = Ok _ => apply f_equal
    | |- (_, _) = (_, _) => apply f_equal2
    | |- _ :: _ = _ :: _ => apply f_equal2
    | |- Arr2 _ = Arr2 _ => apply f_equal
    | |- Fin _ = Fin _ => apply f_equal; lra
    | |- [] = [] => reflexivity
    end.

Ltac small_index i H :=
  repeat (destruct i as [|i]; [|try (exfalso; simpl in H; lia)]).

(** ** Tabulated lists *)

Lemma tab_S {A : Type} (n : nat) (f : nat -> A) :
  tab (S n) f = f O :: tab n (fun i => f (S i)).
Proof.
  unfold tab. simpl. f_equal. rewrite <- seq_shift, map_map. reflexivity.
Qed.

Lemma tab_length {A : Type} (n : nat) (f : nat -> A) : length (tab n f) = n.
Proof. unfold tab. rewrite length_map, length_seq. reflexivity. Qed.

Lemma tab_ext {A : Type} (n : nat) (f g : nat -> A) :
  (forall i, (i < n)%nat -> f i = g i) -> tab n f = tab n g.
Proof.
  intros E. unfold tab. apply map_ext_in. intros i Hi.
  apply in_seq in Hi. apply E. lia.
Qed.

Lemma tab_map {A B : Type} (h : A -> B) (n : nat) (f : nat -> A) :
  map h (tab n f) = tab n (fun i => h (f i)).
Proof. unfold tab. rewrite map_map. reflexivity. Qed.

Lemma tab_nth {A : Type} (n i : nat) (f : nat -> A) (d : A) :
  (i < n)%nat -> nth i (tab n f) d = f i.
Proof.
  revert i f. induction n as [|n IH]; intros i f Hi; [lia|].
  rewrite tab_S. destruct i as [|i]; simpl; [reflexivity|].
  rewrite IH by lia. reflexivity.
Qed.

Lemma tab_nth_error {A : Type} (n i : nat) (f : nat -> A) :
  (i < n)%nat -> nth_error (tab n f) i = Some (f i).
Proof.
  revert i f. induction n as [|n IH]; intros i f Hi; [lia|].
  rewrite tab_S. destruct i as [|i]; simpl; [reflexivity|].
  rewrite IH by lia. reflexivity.
Qed.

Lemma tab_index {A : Type} (n i : nat) (f : nat -> A) :
  (i < n)%nat -> index (tab n f) i = Ok (f i).
Proof. intros Hi. unfold index. rewrite tab_nth_error by assumption. reflexivity. Qed.

Lemma tab_of_list {A : Type} (l : list A) (d : A) :
  l = tab (length l) (fun i => nth i l d).
Proof.
  induction l as [|a l IH]; [reflexivity|].
  simpl length. rewrite tab_S. simpl. f_equal. exact IH.
Qed.

Lemma zip_with_tab {A B C : Type} (h : A -> B -> C) (n : nat) (f : nat -> A) (g : nat -> B) :
  zip_with h (tab n f) (tab n g) = tab n (fun i => h (f i) (g i)).
Proof.
  revert f g. induction n as [|n IH]; intros f g; [reflexivity|].
  rewrite !tab_S. simpl. f_equal. apply IH.
Qed.

Lemma mapM_tab {A B : Type} (k : A -> result B) (n : nat) (f : nat -> A) (g : nat -> B) :
  (forall i, (i < n)%nat -> k (f i) = Ok (g i)) ->
  mapM k (tab n f) = Ok (tab n g).
Proof.
  revert f g. induction n as [|n IH]; intros f g E; [reflexivity|].
  rewrite !tab_S. simpl. rewrite E by lia. simpl.
  rewrite (IH (fun i => f (S i)) (fun i => g (S i))); [reflexivity|].
  intros i Hi. apply E. lia.
Qed.

Lemma mapM_seq {B : Type} (k : nat -> result B) (n : nat) (g : nat -> B) :
  (forall i, (i < n)%nat -> k i = Ok (g i)) ->
  mapM k (seq 0 n) = Ok (tab n g).
Proof.
  intros E. rewrite <- (map_id (seq 0 n)).
  apply (mapM_tab k n (fun i => i)). exact E.
Qed.

(** ** Finite sums *)

Lemma sigma_ext (n : nat) (f g : nat -> R) :
  (forall i, (i < n)%nat -> f i = g i) -> sigma n f = sigma n g.
Proof.
  revert f g. induction n as [|n IH]; intros f g E; [reflexivity|].
  simpl. rewrite E by lia. f_equal. apply IH. intros i Hi. apply E. lia.
Qed.

Lemma sigma_plus (n : nat) (f g : nat -> R) :
  sigma n (fun i => f i + g i) = sigma n f + sigma n g.
Proof.
  revert f g. induction n as [|n IH]; intros f g; simpl; [lra|].
  rewrite IH. lra.
Qed.

Lemma sigma_scal (n : nat) (c : R) (f : nat -> R) :
  sigma n (fun i => c * f i) = c * sigma n f.
Proof.
  revert f. induction n as [|n IH]; intros f; simpl; [lra|].
  rewrite IH. lra.
Qed.

Lemma sigma_div (n : nat) (c : R) (f : nat -> R) :
  sigma n (fun i => f i / c) = sigma n f / c.
Proof.
  unfold Rdiv. rewrite <- (sigma_ext n (fun i => / c * f i)) by (intros; lra).
  rewrite sigma_scal. lra.
Qed.

Lemma sigma_zero (n : nat) : sigma n (fun _ => 0) = 0.
Proof. induction n as [|n IH]; simpl; [reflexivity|]. rewrite IH. lra. Qed.

Lemma sigma_const (n : nat) (c : R) : sigma n (fun _ => c) = INR n * c.
Proof.
  induction n as [|n IH]; [simpl; lra|].
  rewrite S_INR. simpl sigma. rewrite IH. lra.
Qed.

Lemma sigma_nonneg (n : nat) (f : nat -> R) :
  (forall i, (i < n)%nat -> 0 <= f i) -> 0 <= sigma n f.
Proof.
  revert f. induction n as [|n IH]; intros f E; simpl; [lra|].
  assert (0 <= f O) by (apply E; lia).
  assert (0 <= sigma n (fun i => f (S i))) by (apply IH; intros; apply E; lia).
  lra.
Qed.

Lemma sigma_term_le (n : nat) (f : nat -> R) (k : nat) :
  (forall i, (i < n)%nat -> 0 <= f i) -> (k < n)%nat -> f k <= sigma n f.
Proof.
  revert f k. induction n as [|n IH]; intros f k E Hk; [lia|].
  simpl.
  assert (0 <= f O) by (apply E; lia).
  assert (0 <= sigma n (fun i => f (S i))) by (apply sigma_nonneg; intros; apply E; lia).
  destruct k as [|k]; [lra|].
  assert (f (S k) <= sigma n (fun i => f (S i))).
  { apply (IH (fun i => f (S i)) k); [intros; apply E; lia | lia]. }
  lra.
Qed.

Lemma sigma_swap (n m : nat) (f : nat -> nat -> R) :
  sigma n (fun i => sigma m (fun j => f i j)) = sigma m (fun j => sigma n (fun i => f i j)).
Proof.
  revert f. induction n as [|n IH]; intros f; simpl.
  - rewrite sigma_zero. reflexivity.
  - rewrite sigma_plus. f_equal. apply IH.
Qed.

(** ** float64 on finite values *)

Lemma fdiv_fin (a b : R) : b <> 0 -> fdiv (Fin a) (Fin b) = Fin (a / b).
Proof. intros Hb. simpl. destruct (Req_dec_T b 0); [contradiction|reflexivity]. Qed.

Lemma fsum_tab (n : nat) (f : nat -> R) :
  fsum (tab n (fun i => Fin (f i))) = Fin (sigma n f).
Proof.
  revert f. induction n as [|n IH]; intros f; [reflexivity|].
  rewrite tab_S. unfold fsum in *. simpl. rewrite IH. reflexivity.
Qed.

(** Dividing by a zero mass never gives a finite value. *)
Lemma fdiv_zero_not_finite (x : float64) : ~ is_finite (fdiv x (Fin 0)).
Proof.
  destruct x as [a| | |]; simpl.
  - destruct (Req_dec_T 0 0) as [_|N]; [|exfalso; apply N; reflexivity].
    destruct (Req_dec_T a 0); [|destruct (Rlt_dec 0 a)]; simpl; tauto.
  - destruct (Rlt_dec 0 0); simpl; tauto.
  - destruct (Rlt_dec 0 0); simpl; tauto.
  - tauto.
Qed.

(** ** Tabulated arrays *)

Section Tab2.

Context {A : Type} `{Zero A}.

Lemma shape1_tab2 (n d : nat) (f : nat -> nat -> A) :
  (0 < n)%nat -> shape1 (tab n (fun i => tab d (f i))) = d.
Proof.
  intros Hn. destruct n as [|n]; [lia|].
  rewrite tab_S. simpl. apply tab_length.
Qed.

Lemma col_tab2 (n d j : nat) (f : nat -> nat -> A) :
  (j < d)%nat -> col (tab n (fun i => tab d (f i))) j = tab n (fun i => f i j).
Proof.
  intros Hj. unfold col. rewrite tab_map. apply tab_ext.
  intros i _. apply tab_nth. exact Hj.
Qed.

Lemma transpose_tab2 (n d : nat) (f : nat -> nat -> A) :
  (0 < n)%nat ->
  transpose (tab n (fun i => tab d (f i))) = tab d (fun j => tab n (fun i => f i j)).
Proof.
  intros Hn. unfold transpose. rewrite shape1_tab2 by exact Hn.
  apply tab_ext. intros j Hj. apply col_tab2. exact Hj.
Qed.

Lemma entry_tab2 (n d i j : nat) (f : nat -> nat -> A) :
  (i < n)%nat -> (j < d)%nat -> entry (tab n (fun i => tab d (f i))) i j = f i j.
Proof.
  intros Hi Hj. unfold entry. rewrite (tab_nth n i _ []) by exact Hi.
  apply tab_nth. exact Hj.
Qed.

Lemma rows_of_tab2 (d : nat) (m : list (list A)) :
  rows_of d m -> m = tab (length m) (fun i => tab d (entry m i)).
Proof.
  intros R. rewrite (tab_of_list m []) at 1. apply tab_ext. intros i Hi.
  unfold entry. rewrite (tab_of_list (nth i m []) zero) at 1.
  replace (length (nth i m [])) with d; [reflexivity|].
  unfold rows_of in R. rewrite Forall_forall in R. symmetry. apply R.
  apply nth_In. exact Hi.
Qed.

End Tab2.

Lemma lift_m_tab2 (d : nat) (m : list (list R)) :
  rows_of d m ->
  lift_m m = tab (length m) (fun i => tab d (fun j => Fin (entry m i j))).
Proof.
  intros R. rewrite (rows_of_tab2 d m R) at 1. unfold lift_m.
  rewrite tab_map. apply tab_ext. intros i _. apply tab_map.
Qed.

Lemma lift_v_tab (v : list R) :
  lift_v v = tab (length v) (fun i => Fin (nth i v 0)).
Proof. unfold lift_v. rewrite (tab_of_list v 0) at 1. apply tab_map. Qed.

Lemma dot_tab (n : nat) (u v : nat -> R) :
  fsum (zip_with fmul (tab n (fun i => Fin (u i))) (tab n (fun i => Fin (v i))))
  = Fin (sigma n (fun i => u i * v i)).
Proof. rewrite zip_with_tab. apply (fsum_tab n (fun i => u i * v i)). Qed.

Lemma np_dot_rows (a b : mat) :
  a <> [] ->
  np_dot a b =
  if (shape1 a =? length b)%nat
  then Ok (map (fun r => map (fun j => fsum (zip_with fmul r (col b j)))
                             (seq 0 (shape1 b))) a)
  else Raise ValueError.
Proof. destruct a; [congruence|reflexivity]. Qed.

Lemma tab_not_nil {A : Type} (n : nat) (f : nat -> A) : (0 < n)%nat -> tab n f <> [].
Proof. destruct n; [lia|]. rewrite tab_S. discriminate. Qed.

Lemma np_dot_ftab (k n d : nat) (a b : nat -> nat -> float64) :
  (0 < n)%nat ->
  np_dot (tab k (fun i => tab n (a i))) (tab n (fun j => tab d (b j)))
  = Ok (tab k (fun i => tab d (fun c => fsum (tab n (fun j => fmul (a i j) (b j c)))))).
Proof.
  intros Hn.
  destruct (Nat.eq_dec k 0) as [->|Hk]; [reflexivity|].
  rewrite np_dot_rows by (apply tab_not_nil; lia).
  rewrite shape1_tab2 by lia. rewrite tab_length, Nat.eqb_refl.
  rewrite shape1_tab2 by exact Hn.
  f_equal. rewrite tab_map. apply tab_ext. intros i _.
  apply tab_ext. intros c Hc.
  rewrite (col_tab2 n d c b) by exact Hc.
  rewrite zip_with_tab. reflexivity.
Qed.

(** ** The M-step on arrays of matching shapes *)

Section MStepShape.

Variables N D K : nat.
Variable x : nat -> nat -> float64.
Variable p : nat -> nat -> float64.

Let data : mat := tab N (fun n => tab D (x n)).
Let prior_pi : mat := tab N (fun n => tab K (p n)).
Let nk (k : nat) : float64 := fsum (tab N (fun n => p n k)).
Let mu (k d : nat) : float64 := fdiv (fsum (tab N (fun n => fmul (p n k) (x n d)))) (nk k).
Let sc (k a b : nat) : float64 :=
  fdiv (fsum (tab N (fun n => fmul (fmul (fsub (x n a) (mu k a)) (p n k))
                                   (fsub (x n b) (mu k b)))))
       (nk k).

Hypothesis some_point : (0 < N)%nat.

Lemma sum_axis0_ftab : sum_axis0 prior_pi = tab K nk.
Proof.
  unfold sum_axis0, prior_pi. rewrite shape1_tab2 by exact some_point.
  apply tab_ext. intros k Hk. rewrite (col_tab2 N K k p) by exact Hk. reflexivity.
Qed.

Lemma m_step_ftab :
  m_step data prior_pi (Z.of_nat K)
  = Ok (tab K (fun k => fdiv (nk k) (Fin (INR N))),
        tab K (fun k => tab D (mu k)),
        tab K (fun k => Arr2 (tab D (fun a => tab D (sc k a))))).
Proof.
  assert (Hcol : forall i, (i < K)%nat -> col prior_pi i = tab N (fun n => p n i)).
  { intros i Hi. apply (col_tab2 N K i p). exact Hi. }
  assert (Hshape : shape1 prior_pi = K) by (apply shape1_tab2; exact some_point).
  assert (Hsums : np_dot (transpose prior_pi) data
                  = Ok (tab K (fun k => tab D (fun d => fsum (tab N (fun n => fmul (p n k) (x n d))))))).
  { unfold prior_pi. rewrite transpose_tab2 by exact some_point.
    apply (np_dot_ftab K N D (fun k n => p n k) x some_point). }
  assert (Hlen : length data = N) by apply tab_length.
  unfold m_step. rewrite sum_axis0_ftab, Hsums, Hshape, Hlen. cbn [bind].
  rewrite zip_with_tab.
  assert (Hmeans :
    tab K (fun i => map (fun v => fdiv v (nk i))
                        (tab D (fun c => fsum (tab N (fun j => fmul (p j i) (x j c))))))
    = tab K (fun k => tab D (mu k))).
  { apply tab_ext. intros k Hk. rewrite tab_map. reflexivity. }
  rewrite Hmeans. rewrite Nat2Z.id.
  rewrite (mapM_seq _ K (fun k => Arr2 (tab D (fun a => tab D (sc k a))))).
  - cbn [bind]. rewrite tab_map. reflexivity.
  - intros i Hi. rewrite tab_index by exact Hi. cbn [bind].
    assert (Hdiff : mapM (fun v => vsub v (tab D (mu i))) data
                    = Ok (tab N (fun n => tab D (fun d => fsub (x n d) (mu i d))))).
    { unfold data. apply mapM_tab. intros n _. unfold vsub.
      rewrite !tab_length, Nat.eqb_refl. rewrite zip_with_tab. reflexivity. }
    rewrite Hdiff. cbn [bind].
    assert ((i <? K)%nat = true) as -> by (apply Nat.ltb_lt; exact Hi).
    cbn [bind].
    rewrite transpose_tab2 by exact some_point.
    rewrite Hcol by exact Hi.
    rewrite tab_map.
    rewrite (tab_ext D _ (fun a => tab N (fun n => fmul (fsub (x n a) (mu i a)) (p n i)))).
    2:{ intros a _. rewrite zip_with_tab. reflexivity. }
    rewrite (np_dot_ftab D N D (fun a n => fmul (fsub (x n a) (mu i a)) (p n i))
                         (fun n b => fsub (x n b) (mu i b))) by exact some_point.
    cbn [bind]. rewrite tab_index by exact Hi. cbn [bind].
    f_equal. f_equal. rewrite tab_map. apply tab_ext. intros a _.
    rewrite tab_map. reflexivity.
Qed.

End MStepShape.

(** ** The M-step on finite arrays *)

Section MStepTab.

Variables N D K : nat.
Variable x : nat -> nat -> R.
Variable p : nat -> nat -> R.

Let nk (k : nat) : R := sigma N (fun n => p n k).
Let mu (k d : nat) : R := sigma N (fun n => p n k * x n d) / nk k.
Let sc (k a b : nat) : R :=
  sigma N (fun n => (x n a - mu k a) * p n k * (x n b - mu k b)) / nk k.

Hypothesis mass_nonzero : forall k, (k < K)%nat -> nk k <> 0.

Lemma m_step_tab :
  m_step (tab N (fun n => tab D (fun d => Fin (x n d))))
         (tab N (fun n => tab K (fun k => Fin (p n k)))) (Z.of_nat K)
  = Ok (tab K (fun k => Fin (nk k / INR N)),
        tab K (fun k => tab D (fun d => Fin (mu k d))),
        tab K (fun k => Arr2 (tab D (fun a => tab D (fun b => Fin (sc k a b)))))).
Proof.
  destruct (Nat.eq_dec N 0) as [HN|HN].
  - (* no point: no component either *)
    assert (K = 0%nat) as HK.
    { destruct K as [|k]; [reflexivity|]. exfalso.
      apply (mass_nonzero 0%nat); [lia|]. unfold nk. rewrite HN. reflexivity. }
    rewrite HN, HK. reflexivity.
  - rewrite (m_step_ftab N D K (fun n d => Fin (x n d)) (fun n k => Fin (p n k)))
      by lia.
    assert (Hmu : forall k d, (k < K)%nat ->
       fdiv (fsum (tab N (fun n => fmul (Fin (p n k)) (Fin (x n d)))))
            (fsum (tab N (fun n => Fin (p n k)))) = Fin (mu k d)).
    { intros k d Hk. rewrite (fsum_tab N (fun n => p n k)).
      cbn [fmul]. rewrite (fsum_tab N (fun n => p n k * x n d)).
      apply fdiv_fin. apply mass_nonzero. exact Hk. }
    f_equal. f_equal; [f_equal|].
    + apply tab_ext. intros k Hk. rewrite (fsum_tab N (fun n => p n k)).
      apply fdiv_fin. apply not_0_INR. exact HN.
    + apply tab_ext. intros k Hk. apply tab_ext. intros d _. apply Hmu. exact Hk.
    + apply tab_ext. intros k Hk. f_equal. apply tab_ext. intros a _.
      apply tab_ext. intros b _.
      rewrite (tab_ext N _ (fun n => Fin ((x n a - mu k a) * p n k * (x n b - mu k b)))).
      2:{ intros n _. rewrite !Hmu by exact Hk. reflexivity. }
      rewrite (fsum_tab N (fun n => (x n a - mu k a) * p n k * (x n b - mu k b))).
      rewrite (fsum_tab N (fun n => p n k)).
      apply fdiv_fin. apply mass_nonzero. exact Hk.
Qed.

End MStepTab.

(** ** The E-step *)

Lemma index_nth {A : Type} (l : list A) (i : nat) (d : A) :
  (i < length l)%nat -> index l i = Ok (nth i l d).
Proof.
  intros Hi. unfold index. rewrite (nth_error_nth' l d Hi). reflexivity.
Qed.

Lemma mapM_nth {A B : Type} (k : A -> result B) (l : list A) (d : A) (g : nat -> B) :
  (forall i, (i < length l)%nat -> k (nth i l d) = Ok (g i)) ->
  mapM k l = Ok (tab (length l) g).
Proof.
  intros E. rewrite (tab_of_list l d) at 1. apply mapM_tab. exact E.
Qed.

Lemma normalize_rows_tab (N K : nat) (t : nat -> nat -> R) :
  (forall n, (n < N)%nat -> sigma K (t n) <> 0) ->
  normalize_rows (tab N (fun n => tab K (fun k => Fin (t n k))))
  = tab N (fun n => tab K (fun k => Fin (t n k / sigma K (t n)))).
Proof.
  intros Hs. unfold normalize_rows, sum_axis1. rewrite tab_map, zip_with_tab.
  apply tab_ext. intros n Hn. rewrite tab_map. apply tab_ext. intros k _.
  rewrite (fsum_tab K (t n)). apply fdiv_fin. apply Hs. exact Hn.
Qed.

Lemma of_columns_tab (N K : nat) (t : nat -> nat -> R) :
  of_columns N (tab K (fun k => tab N (fun n => Fin (t n k))))
  = tab N (fun n => tab K (fun k => Fin (t n k))).
Proof.
  unfold of_columns. apply tab_ext. intros n Hn. rewrite tab_map.
  apply tab_ext. intros k _. apply (tab_nth N n (fun i => Fin (t i k))). exact Hn.
Qed.

Section EStepTab.

Variable pdf : vec -> vec -> ndarray -> result float64.
Variables (data : mat) (W : list R) (means : mat) (covariances : list ndarray).
Variable K : nat.
Variable dens : nat -> nat -> R.

Hypothesis enough_weights : (K <= length W)%nat.
Hypothesis enough_means : (K <= length means)%nat.
Hypothesis enough_covariances : (K <= length covariances)%nat.
Hypothesis density_values :
  forall n k, (n < length data)%nat -> (k < K)%nat ->
  pdf (nth n data []) (nth k means []) (nth k covariances (Arr0 NaN)) = Ok (Fin (dens n k)).
Hypothesis evidence_nonzero :
  forall n, (n < length data)%nat -> evidence K W dens n <> 0.

Lemma e_step_tab :
  e_step pdf data (lift_v W) means covariances (Z.of_nat K)
  = Ok (tab (length data) (fun n => tab K (fun k => Fin (responsibility K W dens n k)))).
Proof.
  unfold e_step.
  assert ((Z.of_nat K <? 0)%Z = false) as -> by (apply Z.ltb_ge; lia).
  rewrite Nat2Z.id.
  rewrite (mapM_seq _ K (fun k => tab (length data) (fun n => Fin (joint W dens n k)))).
  - cbn [bind]. rewrite (of_columns_tab (length data) K (joint W dens)).
    rewrite normalize_rows_tab by exact evidence_nonzero. reflexivity.
  - intros k Hk.
    rewrite (index_nth (lift_v W) k (Fin 0)) by (unfold lift_v; rewrite length_map; lia).
    rewrite (index_nth means k []) by lia.
    rewrite (index_nth covariances k (Arr0 NaN)) by lia.
    cbn [bind]. apply (mapM_nth _ data []). intros n Hn.
    rewrite density_values by assumption. cbn [bind].
    unfold lift_v, joint. rewrite (map_nth Fin W 0 k). reflexivity.
Qed.

Lemma e_step_pointwise_tab :
  e_step_pointwise pdf data (lift_v W) means covariances (Z.of_nat K)
  = Ok (tab (length data) (fun n => tab K (fun k => Fin (responsibility K W dens n k)))).
Proof.
  unfold e_step_pointwise.
  assert ((Z.of_nat K <? 0)%Z = false) as -> by (apply Z.ltb_ge; lia).
  rewrite Nat2Z.id.
  rewrite (mapM_seq _ K (fun k => tab (length data) (fun n => Fin (joint W dens n k)))).
  - cbn [bind]. rewrite (of_columns_tab (length data) K (joint W dens)).
    rewrite normalize_rows_tab by exact evidence_nonzero. reflexivity.
  - intros k Hk. apply (mapM_nth _ data []). intros n Hn.
    rewrite (index_nth (lift_v W) k (Fin 0)) by (unfold lift_v; rewrite length_map; lia).
    rewrite (index_nth means k []) by lia.
    rewrite (index_nth covariances k (Arr0 NaN)) by lia.
    cbn [bind].
    rewrite density_values by assumption. cbn [bind].
    unfold lift_v, joint. rewrite (map_nth Fin W 0 k). reflexivity.
Qed.

End EStepTab.

(** Each row of responsibilities sums to one. *)
Lemma responsibility_row_sum (K : nat) (W : list R) (dens : nat -> nat -> R) (n : nat) :
  evidence K W dens n <> 0 -> sigma K (responsibility K W dens n) = 1.
Proof.
  intros He. unfold responsibility.
  rewrite (sigma_div K (evidence K W dens n) (joint W dens n)).
  unfold evidence in *. field. exact He.
Qed.


(** ** Determinant, inverse and density on finite arrays *)

Lemma drop_nth_map {A B : Type} (f : A -> B) (j : nat) (l : list A) :
  drop_nth j (map f l) = map f (drop_nth j l).
Proof.
  revert j. induction l as [|a l IH]; intros j; [destruct j; reflexivity|].
  destruct j as [|j]; simpl; [reflexivity|]. rewrite IH. reflexivity.
Qed.

Lemma drop_nth_length {A : Type} (j : nat) (l : list A) :
  (j < length l)%nat -> length (drop_nth j l) = pred (length l).
Proof.
  revert j. induction l as [|a l IH]; intros j Hj; [simpl in Hj; lia|].
  destruct j as [|j]; simpl; [reflexivity|].
  simpl in Hj. rewrite IH by lia. lia.
Qed.

Lemma minor_lift (i j : nat) (c : list (list R)) :
  minor i j (lift_m c) = lift_m (minor i j c).
Proof.
  unfold minor, lift_m. rewrite drop_nth_map, !map_map.
  apply map_ext. intros r. apply drop_nth_map.
Qed.

Lemma alt_sign_pow (j : nat) : alt_sign j = Fin ((-1) ^ j).
Proof.
  unfold alt_sign. induction j as [|j IH]; [simpl; f_equal; lra|].
  rewrite Nat.even_succ, <- Nat.negb_even. simpl pow.
  destruct (Nat.even j); simpl in *; injection IH as IH; f_equal; lra.
Qed.

Lemma det_lift (n : nat) (c : list (list R)) : det n (lift_m c) = Fin (Rdet n c).
Proof.
  revert c. induction n as [|n IH]; intros c; [reflexivity|].
  destruct c as [|r rest]; [reflexivity|].
  cbn [det Rdet lift_m map].
  rewrite <- (fsum_tab (S n)
    (fun j => (-1) ^ j * nth j r 0 * Rdet n (map (drop_nth j) rest))).
  f_equal. apply tab_ext. intros j _.
  rewrite alt_sign_pow.
  change (nth j (map Fin r) zero) with (nth j (map Fin r) (Fin 0)).
  rewrite (map_nth Fin r 0 j).
  change (map (drop_nth j) (map (map Fin) rest)) with (minor 0 j (lift_m (r :: rest))).
  rewrite (minor_lift 0 j (r :: rest)). change (minor 0 j (r :: rest)) with (map (drop_nth j) rest).
  rewrite IH. reflexivity.
Qed.

(** The cofactor formulas in dimension two. *)
Lemma Rdet_2 (a b c d : R) : Rdet 2 [[a; b]; [c; d]] = a * d - b * c.
Proof. simpl. lra. Qed.

Lemma Rinverse_2 (a b c d : R) :
  a * d - b * c <> 0 ->
  Rinverse [[a; b]; [c; d]]
  = [[d / (a * d - b * c); - b / (a * d - b * c)];
     [- c / (a * d - b * c); a / (a * d - b * c)]].
Proof.
  intros H. unfold Rinverse, tab. simpl. repeat (f_equal; try (field; lra)).
Qed.

Lemma is_square_lift (c : list (list R)) :
  rows_of (length c) c -> is_square (lift_m c) = true.
Proof.
  intros Hc. unfold is_square, lift_m. rewrite forallb_forall. intros r Hr.
  apply in_map_iff in Hr. destruct Hr as [r' [<- Hr']].
  rewrite !length_map. apply Nat.eqb_eq.
  unfold rows_of in Hc. rewrite Forall_forall in Hc. apply Hc. exact Hr'.
Qed.

Lemma lift_m_length (c : list (list R)) : length (lift_m c) = length c.
Proof. apply length_map. Qed.

Lemma linalg_det_lift (c : list (list R)) :
  rows_of (length c) c ->
  linalg_det (Arr2 (lift_m c)) = Ok (Fin (Rdet (length c) c)).
Proof.
  intros Hc. unfold linalg_det. rewrite is_square_lift by exact Hc.
  rewrite lift_m_length, det_lift. reflexivity.
Qed.

Lemma linalg_inv_lift (c : list (list R)) :
  rows_of (length c) c -> Rdet (length c) c <> 0 ->
  linalg_inv (Arr2 (lift_m c))
  = Ok (tab (length c) (fun i => tab (length c) (fun j => Fin (entry (Rinverse c) i j)))).
Proof.
  intros Hc Hd. unfold linalg_inv. rewrite is_square_lift by exact Hc.
  cbv zeta. rewrite !lift_m_length, det_lift. unfold is_zero.
  destruct (Req_dec_T (Rdet (length c) c) 0) as [E|_]; [contradiction|].
  f_equal. apply tab_ext. intros i Hi. apply tab_ext. intros j Hj.
  rewrite alt_sign_pow, minor_lift, det_lift. cbn [fmul].
  rewrite fdiv_fin by exact Hd. f_equal.
  unfold Rinverse. rewrite entry_tab2 by assumption. reflexivity.
Qed.

Lemma vsub_lift (x mu : list R) :
  length x = length mu ->
  vsub (lift_v x) (lift_v mu) = Ok (tab (length mu) (fun i => Fin (nth i x 0 - nth i mu 0))).
Proof.
  intros E. unfold vsub. rewrite !lift_v_tab, !tab_length, E, Nat.eqb_refl.
  rewrite zip_with_tab. reflexivity.
Qed.

Lemma two_pi_pow_pos (d : nat) : 0 < (2 * PI) ^ d.
Proof. apply pow_lt. generalize PI_RGT_0. lra. Qed.

(** The quadratic form as [multivariate_gaussian] computes it. *)
Lemma mahalanobis_lift (x mu : list R) (c : list (list R)) :
  length x = length mu -> length c = length mu -> rows_of (length c) c ->
  Rdet (length c) c <> 0 ->
  (let* diff := vsub (lift_v x) (lift_v mu) in
   let* icov := linalg_inv (Arr2 (lift_m c)) in
   let* t := dot_vm diff icov in
   dot_vv t diff) = Ok (Fin (mahalanobis x mu c)).
Proof.
  intros Hx Hc Hrows Hd.
  rewrite vsub_lift by exact Hx. rewrite linalg_inv_lift by assumption.
  cbn [bind]. rewrite Hc. set (d := length mu).
  unfold dot_vm. rewrite !tab_length, Nat.eqb_refl. cbn [bind].
  destruct (Nat.eq_dec d 0) as [E|E].
  - unfold mahalanobis. cbv zeta. fold d. rewrite E. reflexivity.
  - rewrite shape1_tab2 by lia.
    assert (Ht :
      map (fun j => fsum (zip_with fmul (tab d (fun i => Fin (nth i x 0 - nth i mu 0)))
                   (col (tab d (fun i => tab d (fun j0 => Fin (entry (Rinverse c) i j0)))) j)))
          (seq 0 d)
      = tab d (fun j => Fin (sigma d
                 (fun i => (nth i x 0 - nth i mu 0) * entry (Rinverse c) i j)))).
    { apply tab_ext. intros j Hj.
      rewrite (col_tab2 d d j (fun i j => Fin (entry (Rinverse c) i j))) by exact Hj.
      apply dot_tab. }
    rewrite Ht.
    unfold dot_vv. rewrite !tab_length, Nat.eqb_refl.
    rewrite (dot_tab d
      (fun j => sigma d (fun i => (nth i x 0 - nth i mu 0) * entry (Rinverse c) i j))
      (fun j => nth j x 0 - nth j mu 0)).
    reflexivity.
Qed.

Lemma density_closed_form (d : nat) (dt q : R) :
  0 < dt ->
  exp (-0.5 * q) / sqrt ((2 * PI) ^ d * dt)
  = Rpower (2 * PI) (- (INR d / 2)) * Rpower dt (- (1 / 2)) * exp (- (1 / 2) * q).
Proof.
  intros Hdt.
  assert (H2pi : 0 < 2 * PI) by (generalize PI_RGT_0; lra).
  assert (Hp : 0 < (2 * PI) ^ d) by apply two_pi_pow_pos.
  rewrite sqrt_mult by lra.
  rewrite !Rpower_Ropp.
  replace (INR d / 2) with (INR d * / 2) by lra.
  rewrite <- Rpower_mult, Rpower_pow by exact H2pi.
  rewrite Rpower_sqrt by exact Hp.
  replace (1 / 2) with (/ 2) by lra. rewrite Rpower_sqrt by exact Hdt.
  replace (-0.5 * q) with (- / 2 * q) by lra.
  assert (0 < sqrt ((2 * PI) ^ d)) by (apply sqrt_lt_R0; exact Hp).
  assert (0 < sqrt dt) by (apply sqrt_lt_R0; exact Hdt).
  field. lra.
Qed.

Lemma gaussian_density_pos (x mu : list R) (c : list (list R)) :
  0 < gaussian_density x mu c.
Proof.
  unfold gaussian_density, Rpower. cbv zeta.
  apply Rmult_lt_0_compat; [apply Rmult_lt_0_compat|]; apply exp_pos.
Qed.

Section Density.

Variables (x mu : list R) (c : list (list R)).
Hypothesis point_length : length x = length mu.
Hypothesis cov_rows_length : length c = length mu.
Hypothesis cov_square : rows_of (length c) c.

Lemma multivariate_gaussian_pos_det :
  0 < Rdet (length mu) c ->
  multivariate_gaussian (lift_v x) (lift_v mu) (Arr2 (lift_m c))
  = Ok (Fin (gaussian_density x mu c)).
Proof.
  intros Hd. unfold multivariate_gaussian.
  rewrite linalg_det_lift by exact cov_square. cbn [bind].
  rewrite cov_rows_length in *.
  pose proof (mahalanobis_lift x mu c point_length cov_rows_length) as Hq.
  rewrite cov_rows_length in Hq. specialize (Hq cov_square ltac:(lra)).
  destruct (vsub (lift_v x) (lift_v mu)) as [diff|e]; [|discriminate Hq].
  cbn [bind] in *.
  destruct (linalg_inv (Arr2 (lift_m c))) as [icov|e]; [|discriminate Hq].
  cbn [bind] in *.
  destruct (dot_vm diff icov) as [t|e]; [|discriminate Hq].
  cbn [bind] in *. rewrite Hq. cbn [bind].
  unfold lift_v at 1. rewrite length_map. cbn [fmul np_exp np_sqrt].
  pose proof (two_pi_pow_pos (length mu)) as Hp.
  assert (0 < (2 * PI) ^ length mu * Rdet (length mu) c) as Hprod
    by (apply Rmult_lt_0_compat; assumption).
  destruct (Rlt_dec ((2 * PI) ^ length mu * Rdet (length mu) c) 0) as [Hneg|_]; [lra|].
  rewrite fdiv_fin.
  - unfold gaussian_density. cbv zeta. do 2 apply f_equal.
    apply density_closed_form. exact Hd.
  - apply Rgt_not_eq. apply sqrt_lt_R0. exact Hprod.
Qed.


End Density.

(** ** Initialization *)

Lemma random_choice_rejects (G : generator) (a : nat) (size : Z) (s : random_state G) :
  (size < 0 \/ Z.of_nat a < size)%Z ->
  random_choice G a size s = (Raise ValueError, s).
Proof.
  intros H. unfold random_choice.
  destruct ((a =? 0)%nat && negb (size =? 0)%Z); [reflexivity|].
  destruct (Z.ltb_spec (Z.of_nat a) size); [reflexivity|].
  destruct (Z.ltb_spec size 0); [reflexivity|]. lia.
Qed.

Lemma random_choice_accepts (G : generator) (a k : nat) (s : random_state G) :
  (k <= a)%nat ->
  random_choice G a (Z.of_nat k) s
  = (Ok (firstn k (fst (permutation G a s))), snd (permutation G a s)).
Proof.
  intros H. unfold random_choice.
  assert ((a =? 0)%nat && negb (Z.of_nat k =? 0)%Z = false) as ->.
  { destruct (Nat.eqb_spec a 0) as [E|E]; [|reflexivity].
    assert (k = 0%nat) as -> by lia. reflexivity. }
  destruct (Z.ltb_spec (Z.of_nat a) (Z.of_nat k)); [lia|].
  destruct (Z.ltb_spec (Z.of_nat k) 0); [lia|].
  rewrite Nat2Z.id. destruct (permutation G a s). reflexivity.
Qed.

Lemma initialize_parameters_rejects (G : generator) (data : mat) (num_components : Z)
  (s : random_state G) :
  (num_components < 0 \/ Z.of_nat (length data) < num_components)%Z ->
  initialize_parameters G data num_components s = (Raise ValueError, seed G 42).
Proof.
  intros H. unfold initialize_parameters.
  rewrite random_choice_rejects by exact H. reflexivity.
Qed.

Lemma firstn_shuffle (l : list nat) (n k : nat) :
  Permutation l (seq 0 n) -> (k <= n)%nat ->
  length (firstn k l) = k /\ NoDup (firstn k l) /\ Forall (fun i => (i < n)%nat) (firstn k l).
Proof.
  intros P Hk.
  assert (Hlen : length l = n) by (rewrite (Permutation_length P); apply length_seq).
  assert (Hnd : NoDup l) by (apply (Permutation_NoDup (Permutation_sym P)); apply seq_NoDup).
  split; [|split].
  - rewrite length_firstn. lia.
  - rewrite <- (firstn_skipn k l) in Hnd. apply NoDup_app_remove_r in Hnd. exact Hnd.
  - apply Forall_forall. intros i Hi.
    assert (In i l) as Hin by (rewrite <- (firstn_skipn k l); apply in_or_app; left; exact Hi).
    apply (Permutation_in _ P) in Hin. apply in_seq in Hin. lia.
Qed.

Lemma mapM_index {A : Type} (l : list A) (d : A) (idx : list nat) :
  Forall (fun i => (i < length l)%nat) idx ->
  mapM (index l) idx = Ok (map (fun i => nth i l d) idx).
Proof.
  induction idx as [|i idx IH]; intros H; [reflexivity|].
  inversion H as [|? ? Hi Hrest]; subst. simpl.
  rewrite (index_nth l i d) by exact Hi. cbn [bind].
  rewrite IH by exact Hrest. reflexivity.
Qed.

Lemma uniform_weights (k : nat) :
  (0 < k)%nat ->
  map (fun one => fdiv one (Fin (IZR (Z.of_nat k)))) (repeat (Fin 1) k)
  = repeat (Fin (1 / INR k)) k.
Proof.
  intros Hk. rewrite <- INR_IZR_INZ.
  assert (INR k <> 0) as Hne by (apply not_0_INR; lia).
  generalize k at 2 4. intros n. induction n as [|n IH]; [reflexivity|].
  simpl repeat. simpl map. rewrite IH. f_equal. apply fdiv_fin. exact Hne.
Qed.

(** ** The loop *)

Lemma last_cons {A : Type} (a d : A) (l : list A) : last (a :: l) d = last l a.
Proof.
  revert a d. induction l as [|b l IH]; intros a d; [reflexivity|].
  change (last (a :: b :: l) d) with (last (b :: l) d). rewrite !IH. reflexivity.
Qed.

Section Loop.

Variable e_step_bound : mat -> vec -> mat -> list ndarray -> Z -> result mat.
Variables (data : mat) (num_components : Z).

Lemma em_history_loop (turns : nat) (theta : params) :
  match em_history e_step_bound data num_components turns theta with
  | Ok h => length h = turns
            /\ em_loop e_step_bound data num_components turns theta = Ok (last h theta)
  | Raise e => em_loop e_step_bound data num_components turns theta = Raise e
  end.
Proof.
  revert theta. induction turns as [|turns IH]; intros theta; [split; reflexivity|].
  simpl. destruct (em_iteration e_step_bound data num_components theta) as [theta'|e];
    [|reflexivity].
  cbn [bind]. specialize (IH theta').
  destruct (em_history e_step_bound data num_components turns theta') as [h|e];
    [|exact IH].
  cbn [bind]. destruct IH as [Hlen Hlast]. split; [simpl; lia|].
  rewrite Hlast, last_cons. reflexivity.
Qed.

End Loop.

(** With no component the loop turns on the empty model. *)
Lemma em_iteration_no_component (pdf : vec -> vec -> ndarray -> result float64) (data : mat) :
  em_iteration (e_step pdf) data 0 ([], [], []) = Ok ([], [], []).
Proof.
  unfold em_iteration, e_step. simpl. unfold m_step.
  assert (forall n,
    normalize_rows (of_columns n []) = repeat [] n) as Hrows.
  { intros n. unfold of_columns, normalize_rows, sum_axis1. simpl.
    generalize 0%nat at 1 2. induction n as [|n IH]; intros k; [reflexivity|].
    simpl. rewrite IH. reflexivity. }
  rewrite Hrows.
  assert (shape1 (repeat (@nil float64) (length data)) = 0%nat) as Hs
    by (destruct (length data); reflexivity).
  unfold sum_axis0, transpose. rewrite Hs. reflexivity.
Qed.

Lemma em_loop_no_component (pdf : vec -> vec -> ndarray -> result float64) (data : mat)
  (turns : nat) :
  em_loop (e_step pdf) data 0 turns ([], [], []) = Ok ([], [], []).
Proof.
  induction turns as [|turns IH]; [reflexivity|].
  cbn [em_loop]. rewrite em_iteration_no_component. exact IH.
Qed.

(** ** One component on the sample *)

Lemma e_step_one_component (X : list (list R)) (m : list R) (c : list (list R)) :
  rows_of (length m) X -> length c = length m -> rows_of (length c) c ->
  0 < Rdet (length m) c ->
  e_step_pointwise multivariate_gaussian (lift_m X) [Fin 1] [lift_v m] [Arr2 (lift_m c)] 1
  = Ok (tab (length X) (fun _ => [Fin 1])).
Proof.
  intros HX Hc Hsq Hd.
  pose (dens := fun (n k : nat) => gaussian_density (nth n X []) m c).
  pose proof (e_step_pointwise_tab multivariate_gaussian (lift_m X) [1] [lift_v m]
                [Arr2 (lift_m c)] 1 dens) as H.
  rewrite lift_m_length in H.
  change (lift_v [1]) with [Fin 1] in H. change (Z.of_nat 1) with 1%Z in H.
  rewrite H; clear H.
  - f_equal. apply tab_ext. intros n Hn. unfold tab. simpl. f_equal. f_equal.
    unfold responsibility, evidence, joint, dens. simpl.
    pose proof (gaussian_density_pos (nth n X []) m c). field. lra.
  - simpl; lia.
  - simpl; lia.
  - simpl; lia.
  - intros n k Hn Hk. assert (k = 0%nat) as -> by lia. simpl nth at 2 3.
    unfold lift_m. change (@nil float64) with (map Fin []). rewrite map_nth.
    apply multivariate_gaussian_pos_det; try assumption.
    unfold rows_of in HX. rewrite Forall_forall in HX. apply HX. apply nth_In. exact Hn.
  - intros n Hn. unfold evidence, joint, dens. simpl.
    pose proof (gaussian_density_pos (nth n X []) m c). lra.
Qed.

Lemma np_cov_triangle : np_cov (lift_m triangle) = Arr2 (lift_m unbiased_cov).
Proof.
  unfold np_cov, cov_rows, triangle, unbiased_cov, centre, average. simpl.
  float_cases. struct_eq.
Qed.

Lemma m_step_triangle :
  m_step (lift_m triangle) (tab 3 (fun _ => [Fin 1])) 1 = Ok single_gaussian.
Proof.
  unfold m_step, single_gaussian. simpl. float_cases. struct_eq.
Qed.

(** Whatever mean and (non-singular) covariance the single component
    starts from, one turn takes it to the sample mean and covariance. *)
Lemma em_iteration_triangle (m : list R) (c : list (list R)) :
  length m = 2%nat -> length c = 2%nat -> rows_of 2 c -> 0 < Rdet 2 c ->
  em_iteration (e_step_pointwise multivariate_gaussian) (lift_m triangle) 1
               ([Fin 1], [lift_v m], [Arr2 (lift_m c)])
  = Ok single_gaussian.
Proof.
  intros Hm Hc Hsq Hd. unfold em_iteration.
  rewrite e_step_one_component.
  - cbn [bind]. exact m_step_triangle.
  - rewrite Hm. repeat constructor.
  - rewrite Hm. exact Hc.
  - rewrite Hc. exact Hsq.
  - rewrite Hm. exact Hd.
Qed.

Lemma rotating_shuffles : shuffles rotating.
Proof.
  intros n s. simpl. unfold rotate.
  rewrite Permutation_app_comm. rewrite firstn_skipn. apply Permutation_refl.
Qed.

Lemma initialize_parameters_triangle (s : Z) :
  initialize_parameters rotating (lift_m triangle) 1 s
  = (Ok ([lift_v origin], [Arr2 (lift_m unbiased_cov)], [Fin 1]), 43%Z).
Proof.
  unfold initialize_parameters.
  change (random_choice rotating (length (lift_m triangle)) 1 (seed rotating 42))
    with (@Ok (list nat) [0%nat], 43%Z).
  cbn [bind mapM index nth_error lift_m map triangle].
  change (Z.to_nat 1) with 1%nat. cbn [repeat map].
  rewrite <- np_cov_triangle.
  apply f_equal2; [|reflexivity]. apply f_equal. apply f_equal2; [reflexivity|].
  simpl. float_cases. struct_eq.
Qed.

(** ** Determinants *)

Lemma skip_lt (j c n : nat) : (c < n)%nat -> (skip j c < S n)%nat.
Proof. unfold skip. destruct (Nat.ltb_spec c j); lia. Qed.

Lemma skip_skip (j k c : nat) :
  (j <= k)%nat -> skip j (skip k c) = skip (S k) (skip j c).
Proof.
  intros H. unfold skip.
  destruct (Nat.ltb_spec c k), (Nat.ltb_spec c j);
    repeat match goal with |- context [(?a <? ?b)%nat] => destruct (Nat.ltb_spec a b) end;
    lia.
Qed.

Lemma fdet_ext (n : nat) (a b : nat -> nat -> R) :
  (forall i j, (i < n)%nat -> (j < n)%nat -> a i j = b i j) -> fdet n a = fdet n b.
Proof.
  revert a b. induction n as [|n IH]; intros a b E; [reflexivity|].
  cbn [fdet]. apply sigma_ext. intros j Hj.
  rewrite (E 0%nat j) by lia. f_equal.
  apply IH. intros r c Hr Hc. unfold fminor. apply E.
  - apply skip_lt. exact Hr.
  - apply skip_lt. exact Hc.
Qed.

Lemma fminor_with_row (r j : nat) (u : nat -> R) (a : nat -> nat -> R) (i c : nat) :
  fminor 0 j (with_row (S r) u a) i c = with_row r (fun c => u (skip j c)) (fminor 0 j a) i c.
Proof.
  unfold fminor, with_row, skip. simpl.
  destruct (Nat.eqb_spec i r); reflexivity.
Qed.

(** The determinant is linear in each row. *)
Lemma fdet_row_linear (n r : nat) (a : nat -> nat -> R) (u v : nat -> R) (x y : R) :
  (r < n)%nat ->
  fdet n (with_row r (fun j => x * u j + y * v j) a)
  = x * fdet n (with_row r u a) + y * fdet n (with_row r v a).
Proof.
  revert r a u v. induction n as [|n IH]; intros r a u v Hr; [lia|].
  cbn [fdet]. rewrite <- !sigma_scal, <- sigma_plus. apply sigma_ext. intros j Hj.
  destruct r as [|r].
  - unfold with_row at 1 3 5. simpl.
    rewrite (fdet_ext n (fminor 0 j (with_row 0 (fun j0 => x * u j0 + y * v j0) a))
               (fminor 0 j a)) by (intros; reflexivity).
    rewrite (fdet_ext n (fminor 0 j (with_row 0 u a)) (fminor 0 j a)) by (intros; reflexivity).
    rewrite (fdet_ext n (fminor 0 j (with_row 0 v a)) (fminor 0 j a)) by (intros; reflexivity).
    ring.
  - unfold with_row at 1 3 5. simpl.
    rewrite (fdet_ext n _ _ (fun i c _ _ => fminor_with_row r j _ a i c)).
    rewrite (fdet_ext n (fminor 0 j (with_row (S r) u a)) _
               (fun i c _ _ => fminor_with_row r j u a i c)).
    rewrite (fdet_ext n (fminor 0 j (with_row (S r) v a)) _
               (fun i c _ _ => fminor_with_row r j v a i c)).
    rewrite IH by lia. ring.
Qed.

Lemma sigma_last (n : nat) (f : nat -> R) : sigma (S n) f = sigma n f + f n.
Proof.
  revert f. induction n as [|n IH]; intros f; [simpl; lra|].
  change (sigma (S (S n)) f) with (f O + sigma (S n) (fun i => f (S i))).
  rewrite IH. simpl. lra.
Qed.

Lemma sigma_opp (n : nat) (f : nat -> R) : sigma n (fun i => - f i) = - sigma n f.
Proof.
  rewrite <- (sigma_ext n (fun i => -1 * f i)) by (intros; lra).
  rewrite sigma_scal. lra.
Qed.

(** A sum over the pairs [j <= k] is the sum over the pairs [k < j]
    of the mirrored term. *)
Lemma sigma_triangle (m : nat) (f : nat -> nat -> R) :
  sigma (S m) (fun j => sigma m (fun k => if (j <=? k)%nat then f j k else 0))
  = sigma (S m) (fun j => sigma m (fun k => if (k <? j)%nat then f k (pred j) else 0)).
Proof.
  rewrite sigma_last.
  rewrite (sigma_ext m (fun k => if (m <=? k)%nat then f m k else 0) (fun _ => 0)).
  2:{ intros k Hk. destruct (Nat.leb_spec m k); [lia|reflexivity]. }
  rewrite sigma_zero, Rplus_0_r.
  cbn [sigma].
  rewrite (sigma_ext m (fun k => if (k <? 0)%nat then f k (pred 0) else 0) (fun _ => 0))
    by (intros; reflexivity).
  rewrite sigma_zero, Rplus_0_l.
  rewrite sigma_swap. apply sigma_ext. intros j Hj. apply sigma_ext. intros k Hk.
  simpl pred.
  destruct (Nat.leb_spec k j), (Nat.ltb_spec k (S j)); try lia; reflexivity.
Qed.

Lemma pow_m1_S (j : nat) : (-1) ^ S j = - (-1) ^ j.
Proof. simpl. lra. Qed.

(** Two equal rows at the top: the determinant vanishes. *)
Lemma fdet_top_rows_equal (n : nat) (a : nat -> nat -> R) :
  (forall c, (c < S (S n))%nat -> a 0%nat c = a 1%nat c) ->
  fdet (S (S n)) a = 0.
Proof.
  intros E.
  pose (D := fun j k => fdet n (fun r c => a (S (S r)) (skip j (skip k c)))).
  pose (F := fun j k => (-1) ^ j * (-1) ^ k * a 0%nat j * a 0%nat (S k) * D j k).
  assert (Hterm : forall j k, (j < S (S n))%nat -> (k < S n)%nat ->
            (-1) ^ j * a 0%nat j * ((-1) ^ k * fminor 0 j a 0%nat k
                                    * fdet n (fminor 0 k (fminor 0 j a)))
            = (if (j <=? k)%nat then F j k else 0)
              - (if (k <? j)%nat then F k (pred j) else 0)).
  { intros j k Hj Hk.
    assert (fdet n (fminor 0 k (fminor 0 j a)) = D j k) as -> by reflexivity.
    unfold fminor at 1. change (skip 0 0) with 1%nat.
    rewrite <- E by (apply skip_lt; exact Hk).
    unfold skip at 1.
    destruct (Nat.leb_spec j k) as [Hjk|Hjk].
    - destruct (Nat.ltb_spec k j); [lia|]. unfold F. ring.
    - destruct (Nat.ltb_spec k j); [|lia].
      destruct j as [|j']; [lia|]. simpl pred. unfold F.
      assert (D (S j') k = D k j') as ->.
      { unfold D. apply fdet_ext. intros r c _ _. f_equal.
        symmetry. apply skip_skip. lia. }
      rewrite pow_m1_S. ring. }
  cbn [fdet].
  rewrite (sigma_ext (S (S n)) _
    (fun j => sigma (S n) (fun k => if (j <=? k)%nat then F j k else 0)
              - sigma (S n) (fun k => if (k <? j)%nat then F k (pred j) else 0))).
  2:{ intros j Hj. rewrite <- sigma_scal.
      unfold Rminus. rewrite <- sigma_opp, <- sigma_plus.
      apply sigma_ext. intros k Hk. rewrite Hterm by assumption. lra. }
  unfold Rminus. rewrite sigma_plus, sigma_opp.
  rewrite (sigma_triangle (S n) F). lra.
Qed.

(** Two equal neighbouring rows: the determinant vanishes. *)
Lemma fdet_neighbours_equal (r n : nat) (a : nat -> nat -> R) :
  (S r < n)%nat -> (forall c, (c < n)%nat -> a r c = a (S r) c) -> fdet n a = 0.
Proof.
  revert n a. induction r as [|r IH]; intros n a Hr E.
  - destruct n as [|[|n]]; try lia. apply fdet_top_rows_equal. exact E.
  - destruct n as [|n]; [lia|]. cbn [fdet].
    rewrite (sigma_ext (S n) _ (fun _ => 0)); [apply sigma_zero|].
    intros j Hj. rewrite (IH n (fminor 0 j a)); [ring|lia|].
    intros c Hc. unfold fminor. change (skip 0 r) with (S r).
    change (skip 0 (S r)) with (S (S r)). apply E. apply skip_lt. exact Hc.
Qed.

(** Exchanging two neighbouring rows changes the sign. *)
Lemma fdet_swap_rows (r n : nat) (a : nat -> nat -> R) :
  (S r < n)%nat -> fdet n (swap_rows r a) = - fdet n a.
Proof.
  intros Hr.
  pose (u := a r). pose (v := a (S r)).
  pose (w := fun j => 1 * u j + 1 * v j).
  assert (H0 : fdet n (with_row r w (with_row (S r) w a)) = 0).
  { apply (fdet_neighbours_equal r); [exact Hr|]. intros c _. unfold with_row.
    rewrite Nat.eqb_refl. destruct (Nat.eqb_spec (S r) r); [lia|].
    rewrite Nat.eqb_refl. reflexivity. }
  unfold w at 1 in H0. rewrite fdet_row_linear in H0 by lia.
  assert (Hc : forall x, fdet n (with_row r x (with_row (S r) w a))
                         = fdet n (with_row (S r) w (with_row r x a))).
  { intros x. apply fdet_ext. intros i j _ _. unfold with_row.
    destruct (Nat.eqb_spec i r), (Nat.eqb_spec i (S r)); try lia; reflexivity. }
  rewrite !Hc in H0. unfold w in H0. rewrite !fdet_row_linear in H0 by lia.
  assert (Huu : fdet n (with_row (S r) u (with_row r u a)) = 0).
  { apply (fdet_neighbours_equal r); [exact Hr|]. intros c _. unfold with_row.
    rewrite Nat.eqb_refl. destruct (Nat.eqb_spec r (S r)); [lia|].
    rewrite Nat.eqb_refl. reflexivity. }
  assert (Hvv : fdet n (with_row (S r) v (with_row r v a)) = 0).
  { apply (fdet_neighbours_equal r); [exact Hr|]. intros c _. unfold with_row.
    rewrite Nat.eqb_refl. destruct (Nat.eqb_spec r (S r)); [lia|].
    rewrite Nat.eqb_refl. reflexivity. }
  assert (Huv : fdet n (with_row (S r) v (with_row r u a)) = fdet n a).
  { apply fdet_ext. intros i j _ _. unfold with_row, u, v.
    destruct (Nat.eqb_spec i (S r)) as [->|]; [reflexivity|].
    destruct (Nat.eqb_spec i r) as [->|]; reflexivity. }
  assert (Hvu : fdet n (with_row (S r) u (with_row r v a)) = fdet n (swap_rows r a)).
  { apply fdet_ext. intros i j _ _. unfold with_row, swap_rows, u, v.
    destruct (Nat.eqb_spec i (S r)) as [->|].
    - destruct (Nat.eqb_spec (S r) r); [lia|reflexivity].
    - destruct (Nat.eqb_spec i r) as [->|]; reflexivity. }
  rewrite Huu, Hvv, Huv, Hvu in H0. lra.
Qed.

(** Two equal rows anywhere: the determinant vanishes. *)
Lemma fdet_rows_equal (d i n : nat) (a : nat -> nat -> R) :
  (S (i + d) < n)%nat -> (forall c, (c < n)%nat -> a i c = a (S (i + d)) c) -> fdet n a = 0.
Proof.
  revert a. induction d as [|d IH]; intros a Hk E.
  - rewrite Nat.add_0_r in *. apply (fdet_neighbours_equal i); assumption.
  - assert (fdet n (swap_rows (S (i + d)) a) = 0) as H0.
    { apply IH; [lia|]. intros c Hc. unfold swap_rows.
      destruct (Nat.eqb_spec i (S (i + d))); [lia|].
      destruct (Nat.eqb_spec i (S (S (i + d)))); [lia|].
      rewrite Nat.eqb_refl. rewrite E by exact Hc.
      f_equal. lia. }
    rewrite fdet_swap_rows in H0 by lia. lra.
Qed.

Lemma fminor_swap_rows (k j : nat) (a : nat -> nat -> R) (r c : nat) :
  fminor k j (swap_rows k a) r c = fminor (S k) j a r c.
Proof.
  unfold fminor, swap_rows, skip.
  destruct (Nat.ltb_spec r k), (Nat.ltb_spec r (S k));
    repeat match goal with |- context [(?x =? ?y)%nat] => destruct (Nat.eqb_spec x y) end;
    try lia; try reflexivity.
  assert (r = k) as -> by lia. reflexivity.
Qed.

(** Expansion along any row. *)
Lemma fdet_expand_row (k n : nat) (a : nat -> nat -> R) :
  (k < n)%nat ->
  sigma n (fun j => a k j * cofactor n a k j) = fdet n a.
Proof.
  revert a. induction k as [|k IH]; intros a Hk.
  - destruct n as [|n]; [lia|]. cbn [fdet]. apply sigma_ext. intros j _.
    unfold cofactor. simpl. ring.
  - pose proof (IH (swap_rows k a) ltac:(lia)) as H.
    rewrite fdet_swap_rows in H by lia.
    rewrite <- (Ropp_involutive (fdet n a)), <- H, <- sigma_opp.
    apply sigma_ext. intros j _. unfold cofactor.
    rewrite (fdet_ext (pred n) (fminor k j (swap_rows k a)) (fminor (S k) j a))
      by (intros; apply fminor_swap_rows).
    unfold swap_rows at 1. rewrite Nat.eqb_refl.
    replace (S k + j)%nat with (S (k + j)) by lia. rewrite pow_m1_S. ring.
Qed.

(** The entries of one row against the cofactors of another. *)
Lemma fdet_alien_cofactors (i k n : nat) (a : nat -> nat -> R) :
  (i < n)%nat -> (k < n)%nat -> i <> k ->
  sigma n (fun j => a i j * cofactor n a k j) = 0.
Proof.
  intros Hi Hk Hik.
  pose (b := with_row k (a i) a).
  assert (Hb : fdet n b = 0).
  { destruct (Nat.lt_ge_cases i k) as [Hlt|Hge].
    - apply (fdet_rows_equal (k - i - 1) i).
      + lia.
      + intros c _. replace (S (i + (k - i - 1))) with k by lia.
        unfold b, with_row. rewrite Nat.eqb_refl.
        destruct (Nat.eqb_spec i k); [lia|reflexivity].
    - apply (fdet_rows_equal (i - k - 1) k).
      + lia.
      + intros c _. replace (S (k + (i - k - 1))) with i by lia.
        unfold b, with_row. rewrite Nat.eqb_refl.
        destruct (Nat.eqb_spec i k); [lia|reflexivity]. }
  rewrite <- Hb, <- (fdet_expand_row k n b Hk).
  apply sigma_ext. intros j _. unfold cofactor.
  assert (b k j = a i j) as -> by (unfold b, with_row; rewrite Nat.eqb_refl; reflexivity).
  f_equal. f_equal. apply fdet_ext. intros r c _ _. unfold fminor, b, with_row.
  destruct (Nat.eqb_spec (skip k r) k) as [E|]; [|reflexivity].
  unfold skip in E. destruct (Nat.ltb_spec r k); lia.
Qed.

(** The transposed cofactors over the determinant are a right inverse. *)
Lemma finverse_right (n : nat) (a : nat -> nat -> R) (i k : nat) :
  fdet n a <> 0 -> (i < n)%nat -> (k < n)%nat ->
  sigma n (fun j => a i j * finverse n a j k) = if (i =? k)%nat then 1 else 0.
Proof.
  intros Hd Hi Hk. unfold finverse.
  rewrite (sigma_ext n _ (fun j => a i j * cofactor n a k j / fdet n a))
    by (intros; unfold Rdiv; ring).
  rewrite sigma_div.
  destruct (Nat.eqb_spec i k) as [->|Hne].
  - rewrite fdet_expand_row by exact Hk. field. exact Hd.
  - rewrite fdet_alien_cofactors by assumption. unfold Rdiv. ring.
Qed.

(** ** Elimination of the first column *)

Lemma sigma_S (n : nat) (f : nat -> R) : sigma (S n) f = f O + sigma n (fun i => f (S i)).
Proof. reflexivity. Qed.

Lemma fdet_zero_column (n : nat) (a : nat -> nat -> R) :
  (forall i, (i < S n)%nat -> a i 0%nat = 0) -> fdet (S n) a = 0.
Proof.
  revert a. induction n as [|n IH]; intros a Hz.
  - simpl. rewrite (Hz 0%nat) by lia. ring.
  - change (fdet (S (S n)) a)
      with (sigma (S (S n)) (fun j => (-1) ^ j * a 0%nat j * fdet (S n) (fminor 0 j a))).
    rewrite (sigma_ext (S (S n)) _ (fun _ => 0)); [apply sigma_zero|].
    intros j Hj. destruct j as [|j].
    + rewrite (Hz 0%nat) by lia. ring.
    + rewrite (IH (fminor 0 (S j) a)); [ring|].
      intros i Hi. unfold fminor. change (skip (S j) 0) with 0%nat. apply Hz.
      change (skip 0 i) with (S i). lia.
Qed.

Lemma fdet_eliminate (m n : nat) (a : nat -> nat -> R) :
  (m < n)%nat -> fdet n (eliminate m a) = fdet n a.
Proof.
  intros Hm. induction m as [|m IH].
  - apply fdet_ext. intros i j _ _. unfold eliminate.
    destruct (Nat.leb_spec 1 i), (Nat.leb_spec i 0); try reflexivity. lia.
  - rewrite <- IH by lia.
    pose (t := a (S m) 0%nat / a 0%nat 0%nat).
    rewrite (fdet_ext n (eliminate (S m) a)
               (with_row (S m) (fun j => 1 * a (S m) j + (- t) * a 0%nat j) (eliminate m a))).
    2:{ intros i j _ _. unfold eliminate, with_row, t.
        destruct (Nat.eqb_spec i (S m)) as [->|Hne].
        - destruct (Nat.leb_spec 1 (S m)); [|lia].
          rewrite Nat.leb_refl. simpl. ring.
        - destruct (Nat.leb_spec 1 i), (Nat.leb_spec i (S m)), (Nat.leb_spec i m);
            simpl; try reflexivity; lia. }
    rewrite fdet_row_linear by lia.
    rewrite (fdet_ext n (with_row (S m) (a (S m)) (eliminate m a)) (eliminate m a)).
    2:{ intros i j _ _. unfold with_row, eliminate.
        destruct (Nat.eqb_spec i (S m)) as [->|Hne]; [|reflexivity].
        destruct (Nat.leb_spec 1 (S m)), (Nat.leb_spec (S m) m); simpl; try reflexivity.
        lia. }
    rewrite (fdet_rows_equal m 0 n (with_row (S m) (a 0%nat) (eliminate m a))).
    + ring.
    + simpl. lia.
    + intros c _. unfold with_row, eliminate. simpl. rewrite Nat.eqb_refl. reflexivity.
Qed.

(** The determinant is the top-left entry times the determinant of
    its Schur complement. *)
Lemma fdet_schur (n : nat) (a : nat -> nat -> R) :
  a 0%nat 0%nat <> 0 -> fdet (S n) a = a 0%nat 0%nat * fdet n (schur a).
Proof.
  intros Ha.
  destruct n as [|n]; [simpl; ring|].
  rewrite <- (fdet_eliminate (S n) (S (S n)) a) by lia.
  change (fdet (S (S n)) (eliminate (S n) a))
    with (sigma (S (S n)) (fun j => (-1) ^ j * eliminate (S n) a 0%nat j
                                    * fdet (S n) (fminor 0 j (eliminate (S n) a)))).
  rewrite sigma_S.
  rewrite (sigma_ext (S n) _ (fun _ => 0)).
  2:{ intros j Hj. rewrite (fdet_zero_column n (fminor 0 (S j) (eliminate (S n) a))); [ring|].
      intros i Hi. unfold fminor. change (skip (S j) 0) with 0%nat.
      change (skip 0 i) with (S i). unfold eliminate.
      destruct (Nat.leb_spec 1 (S i)), (Nat.leb_spec (S i) (S n)); simpl; try lia.
      field. exact Ha. }
  rewrite sigma_zero.
  rewrite (fdet_ext (S n) (fminor 0 0 (eliminate (S n) a)) (schur a)).
  2:{ intros i j Hi Hj. unfold fminor, schur, eliminate.
      change (skip 0 i) with (S i). change (skip 0 j) with (S j).
      destruct (Nat.leb_spec 1 (S i)), (Nat.leb_spec (S i) (S n)); simpl; try lia.
      field. exact Ha. }
  unfold eliminate at 1. simpl. ring.
Qed.

(** ** Positive definite matrices *)

Lemma sigma_scal_r (n : nat) (c : R) (f : nat -> R) :
  sigma n (fun i => f i * c) = sigma n f * c.
Proof.
  rewrite <- (sigma_ext n (fun i => c * f i)) by (intros; ring).
  rewrite sigma_scal. ring.
Qed.

Lemma sigma_minus (n : nat) (f g : nat -> R) :
  sigma n (fun i => f i - g i) = sigma n f - sigma n g.
Proof.
  unfold Rminus. rewrite sigma_plus, sigma_opp. reflexivity.
Qed.

Lemma zero_or_not (n : nat) (v : nat -> R) :
  (forall i, (i < n)%nat -> v i = 0) \/ (exists i, (i < n)%nat /\ v i <> 0).
Proof.
  induction n as [|n IH]; [left; intros; lia|].
  destruct IH as [Hz|[i [Hi Hn]]].
  - destruct (Req_dec (v n) 0) as [E|E].
    + left. intros i Hi. destruct (Nat.eq_dec i n) as [->|]; [exact E|apply Hz; lia].
    + right. exists n. split; [lia|exact E].
  - right. exists i. split; [lia|exact Hn].
Qed.

(** The form split along the first coordinate. *)
Lemma qf_S (n : nat) (a : nat -> nat -> R) (v : nat -> R) :
  qf (S n) a v
  = a 0%nat 0%nat * v 0%nat * v 0%nat
    + v 0%nat * sigma n (fun j => a 0%nat (S j) * v (S j))
    + v 0%nat * sigma n (fun i => a (S i) 0%nat * v (S i))
    + qf n (fun i j => a (S i) (S j)) (fun i => v (S i)).
Proof.
  unfold qf. rewrite sigma_S, sigma_S.
  rewrite (sigma_ext n (fun i => sigma (S n) (fun j => v (S i) * a (S i) j * v j))
             (fun i => v (S i) * a (S i) 0%nat * v 0%nat
                       + sigma n (fun j => v (S i) * a (S i) (S j) * v (S j))))
    by (intros; apply sigma_S).
  rewrite sigma_plus.
  rewrite <- !sigma_scal.
  rewrite (sigma_ext n (fun i => v 0%nat * a 0%nat (S i) * v (S i))
             (fun i => v 0%nat * (a 0%nat (S i) * v (S i)))) by (intros; ring).
  rewrite (sigma_ext n (fun i => v (S i) * a (S i) 0%nat * v 0%nat)
             (fun i => v 0%nat * (a (S i) 0%nat * v (S i)))) by (intros; ring).
  ring.
Qed.

Lemma qf_ext (n : nat) (a b : nat -> nat -> R) (v w : nat -> R) :
  (forall i j, (i < n)%nat -> (j < n)%nat -> a i j = b i j) ->
  (forall i, (i < n)%nat -> v i = w i) ->
  qf n a v = qf n b w.
Proof.
  intros Ea Ev. unfold qf. apply sigma_ext. intros i Hi. apply sigma_ext. intros j Hj.
  rewrite Ea, !Ev by assumption. reflexivity.
Qed.

Lemma qf_schur (n : nat) (a : nat -> nat -> R) (u : nat -> R) :
  qf n (schur a) u
  = qf n (fun i j => a (S i) (S j)) u
    - sigma n (fun i => a (S i) 0%nat * u i) * sigma n (fun j => a 0%nat (S j) * u j)
      / a 0%nat 0%nat.
Proof.
  unfold qf, schur.
  rewrite (sigma_ext n _
     (fun i => sigma n (fun j => u i * a (S i) (S j) * u j)
               - (a (S i) 0%nat * u i) * (sigma n (fun j => a 0%nat (S j) * u j)
                                          / a 0%nat 0%nat))).
  - rewrite sigma_minus, sigma_scal_r. unfold Rdiv. ring.
  - intros i _. unfold Rdiv. rewrite <- sigma_scal_r, <- sigma_scal, <- sigma_minus.
    apply sigma_ext. intros j _. ring.
Qed.

Lemma pos_def_pivot (n : nat) (a : nat -> nat -> R) :
  pos_def (S n) a -> 0 < a 0%nat 0%nat.
Proof.
  intros [_ Hp].
  pose (e := fun i : nat => if (i =? 0)%nat then 1 else 0).
  assert (0 < qf (S n) a e) as H.
  { apply Hp. exists 0%nat. split; [lia|]. unfold e. simpl. lra. }
  rewrite qf_S in H.
  rewrite (sigma_ext n (fun j => a 0%nat (S j) * e (S j)) (fun _ => 0)) in H
    by (intros; unfold e; simpl; ring).
  rewrite (sigma_ext n (fun i => a (S i) 0%nat * e (S i)) (fun _ => 0)) in H
    by (intros; unfold e; simpl; ring).
  rewrite sigma_zero in H.
  assert (qf n (fun i j => a (S i) (S j)) (fun i => e (S i)) = 0) as Hq.
  { unfold qf. rewrite (sigma_ext n _ (fun _ => 0)); [apply sigma_zero|].
    intros i _. rewrite (sigma_ext n _ (fun _ => 0)); [apply sigma_zero|].
    intros j _. unfold e. simpl. ring. }
  rewrite Hq in H. unfold e in H. simpl in H. lra.
Qed.

Lemma pos_def_schur (n : nat) (a : nat -> nat -> R) :
  pos_def (S n) a -> pos_def n (schur a).
Proof.
  intros Hpd. pose proof (pos_def_pivot n a Hpd) as Ha. destruct Hpd as [Hs Hp].
  split.
  - intros i j Hi Hj. unfold schur.
    rewrite (Hs (S i) (S j)), (Hs (S i) 0%nat), (Hs 0%nat (S j)) by lia.
    field. lra.
  - intros u [i [Hi Hu]].
    pose (B := sigma n (fun j => a 0%nat (S j) * u j)).
    pose (v := fun i : nat => match i with O => - B / a 0%nat 0%nat | S i' => u i' end).
    assert (0 < qf (S n) a v) as H.
    { apply Hp. exists (S i). split; [lia|exact Hu]. }
    rewrite qf_S in H. rewrite qf_schur.
    assert (sigma n (fun i0 => a (S i0) 0%nat * u i0) = B) as HB'.
    { unfold B. apply sigma_ext. intros k Hk. rewrite (Hs (S k) 0%nat) by lia. reflexivity. }
    change (sigma n (fun j => a 0%nat (S j) * v (S j))) with B in H.
    change (sigma n (fun i0 => a (S i0) 0%nat * v (S i0)))
      with (sigma n (fun i0 => a (S i0) 0%nat * u i0)) in H.
    change (qf n (fun i0 j => a (S i0) (S j)) (fun i0 => v (S i0)))
      with (qf n (fun i0 j => a (S i0) (S j)) u) in H.
    rewrite HB' in *. fold B. change (v 0%nat) with (- B / a 0%nat 0%nat) in H.
    replace (qf n (fun i0 j => a (S i0) (S j)) u - B * B / a 0%nat 0%nat)
      with (a 0%nat 0%nat * (- B / a 0%nat 0%nat) * (- B / a 0%nat 0%nat)
            + - B / a 0%nat 0%nat * B + - B / a 0%nat 0%nat * B
            + qf n (fun i0 j => a (S i0) (S j)) u) by (field; lra).
    exact H.
Qed.

Lemma pos_def_det (n : nat) (a : nat -> nat -> R) : pos_def n a -> 0 < fdet n a.
Proof.
  revert a. induction n as [|n IH]; intros a Hpd; [simpl; lra|].
  pose proof (pos_def_pivot n a Hpd) as Ha.
  rewrite fdet_schur by lra.
  apply Rmult_lt_0_compat; [exact Ha|]. apply IH. apply pos_def_schur. exact Hpd.
Qed.

Lemma pos_def_nonneg (n : nat) (a : nat -> nat -> R) (v : nat -> R) :
  pos_def n a -> 0 <= qf n a v.
Proof.
  intros [_ Hp]. destruct (zero_or_not n v) as [Hz|Hn].
  - right. symmetry. unfold qf. rewrite (sigma_ext n _ (fun _ => 0)); [apply sigma_zero|].
    intros i Hi. rewrite (sigma_ext n _ (fun _ => 0)); [apply sigma_zero|].
    intros j Hj. rewrite (Hz i Hi). ring.
  - left. apply Hp. exact Hn.
Qed.

(** A positive definite system has at most one solution. *)
Lemma solves_unique (n : nat) (a : nat -> nat -> R) (w w' v : nat -> R) :
  pos_def n a -> solves n a w v -> solves n a w' v ->
  forall i, (i < n)%nat -> w i = w' i.
Proof.
  intros [_ Hp] Hw Hw'.
  pose (e := fun i => w i - w' i).
  assert (He : forall i, (i < n)%nat -> sigma n (fun j => a i j * e j) = 0).
  { intros i Hi. unfold e.
    rewrite (sigma_ext n _ (fun j => a i j * w j - a i j * w' j)) by (intros; ring).
    rewrite sigma_minus, (Hw i Hi), (Hw' i Hi). ring. }
  assert (Hq : qf n a e = 0).
  { unfold qf. rewrite (sigma_ext n _ (fun _ => 0)); [apply sigma_zero|].
    intros i Hi.
    rewrite (sigma_ext n _ (fun j => e i * (a i j * e j))) by (intros; ring).
    rewrite sigma_scal, (He i Hi). ring. }
  destruct (zero_or_not n e) as [Hz|Hn].
  - intros i Hi. specialize (Hz i Hi). unfold e in Hz. lra.
  - specialize (Hp e Hn). lra.
Qed.

Lemma sigma_delta (n i : nat) (v : nat -> R) :
  (i < n)%nat -> sigma n (fun k => (if (i =? k)%nat then 1 else 0) * v k) = v i.
Proof.
  revert i v. induction n as [|n IH]; intros i v Hi; [lia|].
  rewrite sigma_S. destruct i as [|i].
  - rewrite (sigma_ext n _ (fun _ => 0)) by (intros; simpl; ring).
    rewrite sigma_zero. simpl. ring.
  - rewrite (sigma_ext n _ (fun k => (if (i =? k)%nat then 1 else 0) * v (S k)))
      by (intros; reflexivity).
    rewrite (IH i (fun k => v (S k))) by lia. simpl. ring.
Qed.

(** The inverse applied to [v] solves the system. *)
Lemma finverse_solves (n : nat) (a : nat -> nat -> R) (v : nat -> R) :
  fdet n a <> 0 ->
  solves n a (fun j => sigma n (fun k => finverse n a j k * v k)) v.
Proof.
  intros Hd i Hi.
  rewrite (sigma_ext n _ (fun j => sigma n (fun k => a i j * finverse n a j k * v k))).
  2:{ intros j _. rewrite <- sigma_scal. apply sigma_ext. intros; ring. }
  rewrite sigma_swap.
  rewrite (sigma_ext n _ (fun k => (if (i =? k)%nat then 1 else 0) * v k)).
  2:{ intros k Hk. rewrite sigma_scal_r. rewrite finverse_right by assumption. reflexivity. }
  apply sigma_delta. exact Hi.
Qed.

(** [v^T a^-1 v] is [v . w] for the solution [w] of [a w = v]. *)
Lemma qinv_solves (n : nat) (a : nat -> nat -> R) (w v : nat -> R) :
  pos_def n a -> solves n a w v -> qinv n a v = sigma n (fun i => v i * w i).
Proof.
  intros Hpd Hw. unfold qinv, qf.
  pose proof (pos_def_det n a Hpd) as Hd.
  pose proof (finverse_solves n a v ltac:(lra)) as Hw0.
  apply sigma_ext. intros i Hi.
  rewrite (sigma_ext n _ (fun j => v i * (finverse n a i j * v j))) by (intros; ring).
  rewrite sigma_scal. f_equal.
  apply (solves_unique n a _ w v Hpd Hw0 Hw i Hi).
Qed.

Lemma qinv_nonneg (n : nat) (a : nat -> nat -> R) (v : nat -> R) :
  pos_def n a -> 0 <= qinv n a v.
Proof.
  intros Hpd.
  pose proof (pos_def_det n a Hpd) as Hd.
  pose (w := fun j => sigma n (fun k => finverse n a j k * v k)).
  pose proof (finverse_solves n a v ltac:(lra)) as Hw. fold w in Hw.
  rewrite (qinv_solves n a w v Hpd Hw).
  rewrite (sigma_ext n _ (fun i => sigma n (fun j => w i * a i j * w j))).
  - apply (pos_def_nonneg n a w Hpd).
  - intros i Hi. rewrite <- (Hw i Hi). rewrite <- sigma_scal_r.
    apply sigma_ext. intros; ring.
Qed.

(** ** Inverse forms and moments *)

Lemma ln_bound (t : R) : 0 < t -> ln t <= t - 1.
Proof.
  intros Ht. pose proof (exp_ineq1_le (ln t)) as H. rewrite exp_ln in H by exact Ht. lra.
Qed.

Lemma ln_le_mono (x y : R) : 0 < x -> x <= y -> ln x <= ln y.
Proof.
  intros Hx [Hlt|E]; [|rewrite E; lra]. left. apply ln_increasing; assumption.
Qed.

(** The inverse form split along the first coordinate. *)
Lemma qinv_schur (n : nat) (a : nat -> nat -> R) (v : nat -> R) :
  pos_def (S n) a ->
  qinv (S n) a v
  = v 0%nat * v 0%nat / a 0%nat 0%nat
    + qinv n (schur a) (fun i => v (S i) - v 0%nat / a 0%nat 0%nat * a (S i) 0%nat).
Proof.
  intros Hpd.
  pose proof (pos_def_pivot n a Hpd) as Ha.
  pose proof (pos_def_schur n a Hpd) as Hs.
  pose proof (pos_def_det n (schur a) Hs) as Hd.
  destruct Hpd as [Hsym Hpos].
  set (u := fun i => v (S i) - v 0%nat / a 0%nat 0%nat * a (S i) 0%nat).
  pose (w' := fun j => sigma n (fun k => finverse n (schur a) j k * u k)).
  pose proof (finverse_solves n (schur a) u ltac:(lra)) as Hw'. fold w' in Hw'.
  pose (B := sigma n (fun j => a 0%nat (S j) * w' j)).
  pose (w := fun i : nat => match i with
                            | O => (v 0%nat - B) / a 0%nat 0%nat
                            | S i' => w' i'
                            end).
  assert (Hrow : forall i, (i < n)%nat ->
            sigma n (fun j => a (S i) (S j) * w' j) = u i + a (S i) 0%nat / a 0%nat 0%nat * B).
  { intros i Hi. rewrite <- (Hw' i Hi). unfold B. rewrite <- sigma_scal, <- sigma_plus.
    apply sigma_ext. intros j _. unfold schur. field. lra. }
  assert (Hw : solves (S n) a w v).
  { intros i Hi. rewrite sigma_S. destruct i as [|i].
    - change (sigma n (fun i => a 0%nat (S i) * w (S i))) with B.
      change (w 0%nat) with ((v 0%nat - B) / a 0%nat 0%nat). field. lra.
    - change (sigma n (fun i0 => a (S i) (S i0) * w (S i0)))
        with (sigma n (fun j => a (S i) (S j) * w' j)).
      rewrite Hrow by lia. change (w 0%nat) with ((v 0%nat - B) / a 0%nat 0%nat).
      unfold u. field. lra. }
  rewrite (qinv_solves (S n) a w v (conj Hsym Hpos) Hw).
  rewrite (qinv_solves n (schur a) w' u Hs Hw').
  rewrite sigma_S.
  change (sigma n (fun i => v (S i) * w (S i))) with (sigma n (fun i => v (S i) * w' i)).
  change (w 0%nat) with ((v 0%nat - B) / a 0%nat 0%nat).
  assert (sigma n (fun i => u i * w' i)
          = sigma n (fun i => v (S i) * w' i) - v 0%nat / a 0%nat 0%nat * B) as ->.
  { unfold u, B. rewrite <- sigma_scal, <- sigma_minus. apply sigma_ext. intros i Hi.
    rewrite (Hsym 0%nat (S i)) by lia. ring. }
  field. lra.
Qed.

Lemma sigma_prod (n m : nat) (f g : nat -> R) :
  sigma n f * sigma m g = sigma n (fun i => sigma m (fun j => f i * g j)).
Proof.
  rewrite <- sigma_scal_r. apply sigma_ext. intros i _. rewrite sigma_scal. reflexivity.
Qed.

(** The form of a moment matrix is a weighted sum of squares. *)
Lemma qf_moment (d N : nat) (r : nat -> R) (y : nat -> nat -> R) (total : R) (z : nat -> R) :
  qf d (moment N r y total) z
  = sigma N (fun n => r n * (sigma d (fun i => z i * y n i) * sigma d (fun i => z i * y n i)))
    / total.
Proof.
  unfold qf, moment.
  transitivity
    (sigma d (fun i => sigma d (fun j =>
       sigma N (fun n => r n * ((z i * y n i) * (z j * y n j))))) / total).
  - rewrite <- sigma_div. apply sigma_ext. intros i _.
    rewrite <- sigma_div. apply sigma_ext. intros j _.
    transitivity ((z i * z j) * sigma N (fun n => r n * y n i * y n j) / total);
      [unfold Rdiv; ring|].
    f_equal. rewrite <- sigma_scal. apply sigma_ext. intros n _. ring.
  - f_equal.
    rewrite (sigma_ext d _
      (fun i => sigma N (fun n => sigma d (fun j => r n * ((z i * y n i) * (z j * y n j))))))
      by (intros; apply sigma_swap).
    rewrite sigma_swap. apply sigma_ext. intros n _.
    rewrite sigma_prod. rewrite <- sigma_scal. apply sigma_ext. intros i _.
    rewrite <- sigma_scal. reflexivity.
Qed.

(** The trace identity: the inverse forms of the vectors against their
    own moment matrix add up to the dimension. *)
Lemma qinv_moment (d N : nat) (r : nat -> R) (y : nat -> nat -> R) (total : R) :
  total <> 0 -> fdet d (moment N r y total) <> 0 ->
  sigma N (fun n => r n * qinv d (moment N r y total) (y n)) = total * INR d.
Proof.
  intros Ht Hd. set (a := moment N r y total).
  unfold qinv, qf.
  rewrite (sigma_ext N _
    (fun n => sigma d (fun i => sigma d (fun j => finverse d a i j * (r n * y n j * y n i))))).
  2:{ intros n _. rewrite <- sigma_scal. apply sigma_ext. intros i _.
      rewrite <- sigma_scal. apply sigma_ext. intros; ring. }
  rewrite sigma_swap.
  rewrite (sigma_ext d _ (fun i => sigma d (fun j => total * (a j i * finverse d a i j)))).
  2:{ intros i _. rewrite sigma_swap. apply sigma_ext. intros j _.
      rewrite sigma_scal. unfold a, moment. field. exact Ht. }
  rewrite sigma_swap.
  rewrite (sigma_ext d _ (fun _ => total * 1)).
  - rewrite sigma_const. ring.
  - intros j Hj. rewrite sigma_scal. f_equal.
    rewrite (finverse_right d a j j Hd Hj Hj). rewrite Nat.eqb_refl. reflexivity.
Qed.

(** Adding a non-negative multiple of [w w^T] does not lower the
    determinant of a positive definite matrix. *)
Lemma fdet_rank_one (n : nat) (s : nat -> nat -> R) (w : nat -> R) (kappa : R) :
  pos_def n s -> 0 <= kappa ->
  fdet n s <= fdet n (fun i j => s i j + kappa * w i * w j).
Proof.
  revert s w kappa. induction n as [|n IH]; intros s w kappa Hpd Hk; [simpl; lra|].
  pose proof (pos_def_pivot n s Hpd) as Hp.
  pose proof (pos_def_schur n s Hpd) as Hs.
  pose proof (pos_def_det n (schur s) Hs) as Hd.
  assert (Hsym : forall i, (i < n)%nat -> s 0%nat (S i) = s (S i) 0%nat)
    by (intros i Hi; destruct Hpd as [Hsym _]; apply Hsym; lia).
  set (p := s 0%nat 0%nat) in *.
  assert (0 <= kappa * w 0%nat * w 0%nat) as Hw0.
  { rewrite Rmult_assoc. apply Rmult_le_pos; [exact Hk|]. apply (Rle_0_sqr (w 0%nat)). }
  set (p' := p + kappa * w 0%nat * w 0%nat).
  assert (0 < p') as Hp' by (unfold p'; lra).
  pose (kappa' := kappa * p / p').
  assert (0 <= kappa') as Hk'.
  { unfold kappa', Rdiv. apply Rmult_le_pos; [apply Rmult_le_pos; lra|].
    left. apply Rinv_0_lt_compat. exact Hp'. }
  pose (z := fun i => w (S i) - w 0%nat / p * s (S i) 0%nat).
  rewrite (fdet_schur n s) by (fold p; lra).
  rewrite (fdet_schur n (fun i j => s i j + kappa * w i * w j)) by (fold p; fold p'; lra).
  fold p. fold p'.
  rewrite (fdet_ext n (schur (fun i j => s i j + kappa * w i * w j))
             (fun i j => schur s i j + kappa' * z i * z j)).
  2:{ intros i j Hi Hj. unfold schur, kappa', z. fold p. fold p'.
      rewrite (Hsym j Hj). unfold p'. field. fold p'. lra. }
  pose proof (IH (schur s) z kappa' Hs Hk') as H.
  apply Rle_trans with (p * fdet n (fun i j => schur s i j + kappa' * z i * z j)).
  - apply Rmult_le_compat_l; lra.
  - apply Rmult_le_compat_r; [|unfold p'; lra].
    apply Rle_trans with (fdet n (schur s)); lra.
Qed.

Lemma moment_sym (N : nat) (r : nat -> R) (y : nat -> nat -> R) (total : R) (i j : nat) :
  moment N r y total i j = moment N r y total j i.
Proof. unfold moment. f_equal. apply sigma_ext. intros; ring. Qed.

(** The moments of the residuals of a regression on the first
    coordinate with coefficients [c]. *)
Lemma moment_residual (N : nat) (r : nat -> R) (y : nat -> nat -> R) (total : R)
  (c : nat -> R) (i j : nat) :
  moment N r (fun n k => y n (S k) - y n 0%nat * c k) total i j
  = moment N r y total (S i) (S j)
    - c j * moment N r y total (S i) 0%nat
    - c i * moment N r y total 0%nat (S j)
    + c i * c j * moment N r y total 0%nat 0%nat.
Proof.
  unfold moment.
  rewrite (sigma_ext N _
     (fun n => r n * y n (S i) * y n (S j)
               - c j * (r n * y n (S i) * y n 0%nat)
               - c i * (r n * y n 0%nat * y n (S j))
               + c i * c j * (r n * y n 0%nat * y n 0%nat))) by (intros; ring).
  rewrite sigma_plus, !sigma_minus, !sigma_scal. unfold Rdiv. ring.
Qed.

(** For weights [r], vectors [y] with positive definite moments and a
    positive definite [a]: the moments minimise
    [sum_n r_n y_n^T a^-1 y_n + total * ln det a]. *)
Lemma moment_bound (d : nat) :
  forall (N : nat) (r : nat -> R) (y : nat -> nat -> R) (a : nat -> nat -> R) (total : R),
  0 < total -> pos_def d a -> pos_def d (moment N r y total) ->
  total * (INR d + ln (fdet d (moment N r y total)))
  <= sigma N (fun n => r n * qinv d a (y n)) + total * ln (fdet d a).
Proof.
  induction d as [|d IH]; intros N r y a total Ht Ha HT.
  - simpl. rewrite ln_1. unfold qinv, qf. simpl.
    rewrite (sigma_ext N _ (fun _ => 0)) by (intros; ring). rewrite sigma_zero. lra.
  - set (T := moment N r y total) in *.
    pose proof (pos_def_pivot d a Ha) as Hp.
    pose proof (pos_def_pivot d T HT) as Hsig.
    pose proof (pos_def_schur d a Ha) as HSa.
    pose proof (pos_def_schur d T HT) as HST.
    pose proof (pos_def_det d (schur a) HSa) as HDa.
    pose proof (pos_def_det d (schur T) HST) as HDT.
    set (p := a 0%nat 0%nat) in *. set (sg := T 0%nat 0%nat) in *.
    pose (c := fun i => a (S i) 0%nat / p).
    pose (u := fun n k => y n (S k) - y n 0%nat * c k).
    set (Tu := moment N r u total).
    (* the residual moments are the Schur complement plus a rank-one term *)
    assert (HTu : forall i j, (i < d)%nat -> (j < d)%nat ->
              Tu i j = schur T i j + sg * (c i - T (S i) 0%nat / sg) * (c j - T (S j) 0%nat / sg)).
    { intros i j Hi Hj. unfold Tu, u. rewrite moment_residual.
      rewrite (moment_sym N r y total 0%nat (S j)). fold T. fold sg.
      unfold schur. fold sg.
      assert (T 0%nat (S j) = T (S j) 0%nat) as -> by apply moment_sym.
      field. lra. }
    (* they are positive definite *)
    assert (HTupd : pos_def d Tu).
    { split; [intros; apply moment_sym|].
      intros z [i [Hi Hz]].
      pose (zt := fun k : nat => match k with
                                 | O => - sigma d (fun i => z i * c i)
                                 | S k' => z k'
                                 end).
      assert (0 < qf (S d) T zt) as H.
      { destruct HT as [_ HT]. apply HT. exists (S i). split; [lia|exact Hz]. }
      unfold T in H. rewrite qf_moment in H. unfold Tu. rewrite qf_moment.
      rewrite (sigma_ext N _
        (fun n => r n * (sigma (S d) (fun i => zt i * y n i) * sigma (S d) (fun i => zt i * y n i)))).
      - exact H.
      - intros n _. f_equal.
        assert (sigma d (fun i0 => z i0 * u n i0) = sigma (S d) (fun i0 => zt i0 * y n i0)) as ->;
          [|reflexivity].
        rewrite sigma_S. change (zt 0%nat) with (- sigma d (fun i => z i * c i)).
        change (sigma d (fun i0 => zt (S i0) * y n (S i0)))
          with (sigma d (fun i0 => z i0 * y n (S i0))).
        unfold u.
        rewrite (sigma_ext d _ (fun i0 => z i0 * y n (S i0) - y n 0%nat * (z i0 * c i0)))
          by (intros; ring).
        rewrite sigma_minus, sigma_scal. ring. }
    pose proof (pos_def_det d Tu HTupd) as HDTu.
    specialize (IH N r u (schur a) total Ht HSa HTupd). fold Tu in IH.
    (* determinants *)
    assert (HdetT : fdet d (schur T) <= fdet d Tu).
    { rewrite (fdet_ext d Tu _ HTu).
      apply (fdet_rank_one d (schur T) (fun i => c i - T (S i) 0%nat / sg) sg HST). lra. }
    assert (Hln : ln (fdet d (schur T)) <= ln (fdet d Tu))
      by (apply ln_le_mono; assumption).
    rewrite (fdet_schur d T) by (fold sg; lra).
    rewrite (fdet_schur d a) by (fold p; lra).
    fold p. fold sg. rewrite !ln_mult by assumption.
    (* the inverse forms *)
    rewrite (sigma_ext N _
       (fun n => r n * y n 0%nat * y n 0%nat / p + r n * qinv d (schur a) (u n))).
    2:{ intros n _. rewrite (qinv_schur d a (y n) Ha). fold p.
        assert (qinv d (schur a) (fun i => y n (S i) - y n 0%nat / p * a (S i) 0%nat)
                = qinv d (schur a) (u n)) as ->.
        { unfold qinv. apply qf_ext; [intros; reflexivity|].
          intros i _. unfold u, c. unfold Rdiv. ring. }
        unfold Rdiv. ring. }
    rewrite sigma_plus, sigma_div.
    assert (sigma N (fun n => r n * y n 0%nat * y n 0%nat) = total * sg) as ->.
    { unfold sg, T, moment. field. lra. }
    (* the scalar inequality *)
    assert (Hsc : ln sg - ln p <= sg / p - 1).
    { pose proof (ln_bound (sg * / p)) as H.
      rewrite ln_mult, ln_Rinv in H; try lra.
      - apply H. apply Rmult_lt_0_compat; [lra|]. apply Rinv_0_lt_compat. lra.
      - apply Rinv_0_lt_compat. lra. }
    rewrite S_INR.
    assert (total * (ln (fdet d (schur T))) <= total * ln (fdet d Tu)) as H1
      by (apply Rmult_le_compat_l; lra).
    assert (total * (ln sg - ln p) <= total * (sg / p - 1)) as H2
      by (apply Rmult_le_compat_l; lra).
    replace (total * sg / p) with (total * (sg / p)) by (unfold Rdiv; ring).
    lra.
Qed.

(** ** Lists of rows and functions of indices *)

Lemma nth_drop_nth {A : Type} (j c : nat) (l : list A) (d : A) :
  nth c (drop_nth j l) d = nth (skip j c) l d.
Proof.
  revert j c. induction l as [|x l IH]; intros j c.
  - assert (forall k, nth k (@nil A) d = d) as Hnil by (intros [|]; reflexivity).
    destruct j; simpl drop_nth; rewrite !Hnil; reflexivity.
  - destruct j as [|j].
    + simpl. unfold skip. simpl. reflexivity.
    + destruct c as [|c]; [reflexivity|].
      simpl drop_nth. cbn [nth]. rewrite IH. unfold skip.
      change (S c <? S j)%nat with (c <? j)%nat.
      destruct (c <? j)%nat; reflexivity.
Qed.

Lemma entry_minor (i j r c : nat) (m : list (list R)) :
  entry (minor i j m) r c = entry m (skip i r) (skip j c).
Proof.
  unfold entry, minor.
  assert (E : drop_nth j (@nil R) = []) by (destruct j; reflexivity).
  replace (nth r (map (drop_nth j) (drop_nth i m)) [])
    with (nth r (map (drop_nth j) (drop_nth i m)) (drop_nth j []))
    by (rewrite E; reflexivity).
  rewrite (map_nth (drop_nth j)). rewrite nth_drop_nth, nth_drop_nth. reflexivity.
Qed.

Lemma Rdet_fdet (n : nat) (m : list (list R)) : Rdet n m = fdet n (entry m).
Proof.
  revert m. induction n as [|n IH]; intros m; [reflexivity|].
  cbn [fdet]. destruct m as [|r rest].
  - cbn [Rdet]. rewrite (sigma_ext (S n) _ (fun _ => 0)); [symmetry; apply sigma_zero|].
    intros j _. unfold entry. simpl. destruct j; simpl; unfold zero, R_zero; ring.
  - cbn [Rdet]. apply sigma_ext. intros j _.
    change (entry (r :: rest) 0 j) with (nth j r 0). f_equal.
    change (map (drop_nth j) rest) with (minor 0 j (r :: rest)).
    rewrite IH. apply fdet_ext. intros i c _ _. apply entry_minor.
Qed.

Lemma Rinverse_finverse (m : list (list R)) (i j : nat) :
  (i < length m)%nat -> (j < length m)%nat ->
  entry (Rinverse m) i j = finverse (length m) (entry m) i j.
Proof.
  intros Hi Hj. unfold Rinverse. rewrite entry_tab2 by assumption.
  unfold finverse, cofactor. rewrite !Rdet_fdet.
  rewrite (fdet_ext (pred (length m)) (entry (minor j i m)) (fminor j i (entry m)))
    by (intros; apply entry_minor).
  rewrite (Nat.add_comm j i). reflexivity.
Qed.

Lemma mahalanobis_qinv (x mu : list R) (c : list (list R)) :
  length c = length mu ->
  mahalanobis x mu c = qinv (length mu) (entry c) (fun i => nth i x 0 - nth i mu 0).
Proof.
  intros Hc. unfold mahalanobis, qinv, qf. cbv zeta.
  rewrite sigma_swap. apply sigma_ext. intros i Hi.
  rewrite <- Hc in *.
  rewrite <- (sigma_scal_r (length c)). apply sigma_ext. intros j Hj.
  rewrite Rinverse_finverse by assumption. reflexivity.
Qed.

(** The logarithm of the density. *)
Lemma ln_gaussian_density (x mu : list R) (c : list (list R)) :
  length c = length mu -> 0 < fdet (length mu) (entry c) ->
  ln (gaussian_density x mu c)
  = - (INR (length mu) / 2) * ln (2 * PI)
    - / 2 * (ln (fdet (length mu) (entry c))
             + qinv (length mu) (entry c) (fun i => nth i x 0 - nth i mu 0)).
Proof.
  intros Hc Hd. unfold gaussian_density. cbv zeta.
  rewrite mahalanobis_qinv by exact Hc. rewrite Rdet_fdet.
  set (A := Rpower (2 * PI) (- (INR (length mu) / 2))).
  set (B := Rpower (fdet (length mu) (entry c)) (- (1 / 2))).
  set (E := exp (- (1 / 2) * qinv (length mu) (entry c) (fun i => nth i x 0 - nth i mu 0))).
  assert (0 < A) by (unfold A, Rpower; apply exp_pos).
  assert (0 < B) by (unfold B, Rpower; apply exp_pos).
  assert (0 < E) by (unfold E; apply exp_pos).
  rewrite (ln_mult (A * B) E) by (try apply Rmult_lt_0_compat; assumption).
  rewrite (ln_mult A B) by assumption.
  unfold A, B, E. rewrite !ln_Rpower, ln_exp. lra.
Qed.

(** ** The expectation-maximisation inequality *)

Lemma sigma_le (n : nat) (f g : nat -> R) :
  (forall i, (i < n)%nat -> f i <= g i) -> sigma n f <= sigma n g.
Proof.
  revert f g. induction n as [|n IH]; intros f g H; simpl; [lra|].
  assert (f O <= g O) by (apply H; lia).
  assert (sigma n (fun i => f (S i)) <= sigma n (fun i => g (S i)))
    by (apply IH; intros; apply H; lia).
  lra.
Qed.

Lemma sigma_pos (n : nat) (f : nat -> R) :
  (0 < n)%nat -> (forall i, (i < n)%nat -> 0 < f i) -> 0 < sigma n f.
Proof.
  revert f. induction n as [|n IH]; intros f Hn H; [lia|].
  simpl. assert (0 < f O) by (apply H; lia).
  assert (0 <= sigma n (fun i => f (S i)))
    by (apply sigma_nonneg; intros; left; apply H; lia).
  lra.
Qed.

(** Concavity of the logarithm. *)
Lemma jensen_ln (K : nat) (r a : nat -> R) :
  (forall k, (k < K)%nat -> 0 <= r k) -> sigma K r = 1 ->
  (forall k, (k < K)%nat -> 0 < a k) -> 0 < sigma K (fun k => r k * a k) ->
  sigma K (fun k => r k * ln (a k)) <= ln (sigma K (fun k => r k * a k)).
Proof.
  intros Hr Hsum Ha HA. set (A := sigma K (fun k => r k * a k)) in *.
  assert (H : sigma K (fun k => r k * ln (a k))
              <= sigma K (fun k => r k * ln A + (r k * a k / A - r k))).
  { apply sigma_le. intros k Hk.
    pose proof (ln_bound (a k * / A)) as Hb.
    rewrite ln_mult, ln_Rinv in Hb; try lra.
    - assert (0 < a k * / A) as Hp
        by (apply Rmult_lt_0_compat; [apply Ha; exact Hk|apply Rinv_0_lt_compat; exact HA]).
      specialize (Hb Hp).
      assert (r k * (ln (a k) - ln A) <= r k * (a k * / A - 1))
        by (apply Rmult_le_compat_l; [apply Hr; exact Hk|lra]).
      unfold Rdiv. lra.
    - apply Ha. exact Hk.
    - apply Rinv_0_lt_compat. exact HA. }
  rewrite sigma_plus, sigma_minus, sigma_scal_r, sigma_div, Hsum in H.
  fold A in H. unfold Rdiv in H. rewrite Rinv_r in H by lra. lra.
Qed.

(** The form of a sum of two vectors. *)
Lemma qf_plus (n : nat) (b : nat -> nat -> R) (y e : nat -> R) :
  qf n b (fun i => y i + e i)
  = qf n b y
    + sigma n (fun i => y i * sigma n (fun j => b i j * e j))
    + sigma n (fun j => y j * sigma n (fun i => e i * b i j))
    + qf n b e.
Proof.
  unfold qf.
  rewrite (sigma_ext n (fun j => y j * sigma n (fun i => e i * b i j))
             (fun j => sigma n (fun i => e i * b i j * y j))).
  2:{ intros j _. rewrite <- sigma_scal. apply sigma_ext. intros; ring. }
  rewrite (sigma_swap n n (fun j i => e i * b i j * y j)).
  rewrite <- !sigma_plus. apply sigma_ext. intros i _.
  rewrite <- sigma_scal, <- !sigma_plus. apply sigma_ext. intros; ring.
Qed.

(** Around the weighted mean the weighted forms are smallest. *)
Lemma mean_shift (N d : nat) (r : nat -> R) (x : nat -> nat -> R) (b : nat -> nat -> R)
  (m : nat -> R) (total : R) :
  total = sigma N r -> total <> 0 ->
  let m' := fun i => sigma N (fun n => r n * x n i) / total in
  sigma N (fun n => r n * qf d b (fun i => x n i - m i))
  = sigma N (fun n => r n * qf d b (fun i => x n i - m' i))
    + total * qf d b (fun i => m' i - m i).
Proof.
  intros Ht Hne m'.
  assert (Hzero : forall i, sigma N (fun n => r n * (x n i - m' i)) = 0).
  { intros i.
    rewrite (sigma_ext N _ (fun n => r n * x n i - m' i * r n)) by (intros; ring).
    rewrite sigma_minus, sigma_scal, <- Ht. unfold m'. field. exact Hne. }
  rewrite (sigma_ext N (fun n => r n * qf d b (fun i => x n i - m i))
     (fun n => r n * qf d b (fun i => x n i - m' i)
               + (sigma d (fun i => sigma d (fun j => b i j * (m' j - m j)) * (r n * (x n i - m' i)))
                  + sigma d (fun j => sigma d (fun i => (m' i - m i) * b i j) * (r n * (x n j - m' j))))
               + r n * qf d b (fun i => m' i - m i))).
  - rewrite !sigma_plus.
    rewrite (sigma_swap N d
      (fun n i => sigma d (fun j => b i j * (m' j - m j)) * (r n * (x n i - m' i)))).
    rewrite (sigma_swap N d
      (fun n j => sigma d (fun i => (m' i - m i) * b i j) * (r n * (x n j - m' j)))).
    rewrite (sigma_ext d
      (fun j => sigma N (fun i => sigma d (fun j0 => b j j0 * (m' j0 - m j0))
                                  * (r i * (x i j - m' j)))) (fun _ => 0)).
    2:{ intros i _. rewrite sigma_scal, Hzero. ring. }
    rewrite (sigma_ext d
      (fun j => sigma N (fun i => sigma d (fun i0 => (m' i0 - m i0) * b i0 j)
                                  * (r i * (x i j - m' j)))) (fun _ => 0)).
    2:{ intros i _. rewrite sigma_scal, Hzero. ring. }
    rewrite sigma_zero, sigma_scal_r, <- Ht. ring.
  - intros n _.
    rewrite (qf_ext d b b (fun i => x n i - m i)
               (fun i => (x n i - m' i) + (m' i - m i)))
      by (intros; try reflexivity; ring).
    rewrite qf_plus.
    rewrite (sigma_ext d (fun i => sigma d (fun j => b i j * (m' j - m j)) * (r n * (x n i - m' i)))
               (fun i => r n * ((x n i - m' i) * sigma d (fun j => b i j * (m' j - m j)))))
      by (intros; ring).
    rewrite (sigma_ext d (fun j => sigma d (fun i => (m' i - m i) * b i j) * (r n * (x n j - m' j)))
               (fun j => r n * ((x n j - m' j) * sigma d (fun i => (m' i - m i) * b i j))))
      by (intros; ring).
    rewrite !sigma_scal. ring.
Qed.

Section EMTurn.

Variables N D K : nat.
Variable x : nat -> nat -> R.
Variable w : nat -> R.
Variable mu : nat -> nat -> R.
Variable cv : nat -> nat -> nat -> R.
Variables dens dens' : nat -> nat -> R.

Let e (n : nat) : R := sigma K (fun k => w k * dens n k).
Let r (n k : nat) : R := w k * dens n k / e n.
Let nk (k : nat) : R := sigma N (fun n => r n k).
Let w' (k : nat) : R := nk k / INR N.
Let mu' (k d : nat) : R := sigma N (fun n => r n k * x n d) / nk k.
Let cv' (k : nat) : nat -> nat -> R :=
  moment N (fun n => r n k) (fun n i => x n i - mu' k i) (nk k).
Let cD : R := INR D / 2 * ln (2 * PI).

Hypothesis some_point : (0 < N)%nat.
Hypothesis some_component : (0 < K)%nat.
Hypothesis weights_pos : forall k, (k < K)%nat -> 0 < w k.
Hypothesis weights_sum : sigma K w = 1.
Hypothesis dens_pos : forall n k, (n < N)%nat -> (k < K)%nat -> 0 < dens n k.
Hypothesis dens'_pos : forall n k, (n < N)%nat -> (k < K)%nat -> 0 < dens' n k.
Hypothesis ln_dens : forall n k, (n < N)%nat -> (k < K)%nat ->
  ln (dens n k)
  = - cD - / 2 * (ln (fdet D (cv k)) + qinv D (cv k) (fun i => x n i - mu k i)).
Hypothesis ln_dens' : forall n k, (n < N)%nat -> (k < K)%nat ->
  ln (dens' n k)
  = - cD - / 2 * (ln (fdet D (cv' k)) + qinv D (cv' k) (fun i => x n i - mu' k i)).
Hypothesis cov_pd : forall k, (k < K)%nat -> pos_def D (cv k).
Hypothesis cov'_pd : forall k, (k < K)%nat -> pos_def D (cv' k).

Lemma em_e_pos (n : nat) : (n < N)%nat -> 0 < e n.
Proof.
  intros Hn. apply sigma_pos; [exact some_component|].
  intros k Hk. apply Rmult_lt_0_compat; [apply weights_pos|apply dens_pos]; assumption.
Qed.

Lemma em_r_pos (n k : nat) : (n < N)%nat -> (k < K)%nat -> 0 < r n k.
Proof.
  intros Hn Hk. unfold r, Rdiv. apply Rmult_lt_0_compat.
  - apply Rmult_lt_0_compat; [apply weights_pos|apply dens_pos]; assumption.
  - apply Rinv_0_lt_compat. apply em_e_pos. exact Hn.
Qed.

Lemma em_r_sum (n : nat) : (n < N)%nat -> sigma K (r n) = 1.
Proof.
  intros Hn. unfold r. rewrite (sigma_div K (e n) (fun k => w k * dens n k)).
  fold (e n). pose proof (em_e_pos n Hn). field. lra.
Qed.

Lemma em_nk_pos (k : nat) : (k < K)%nat -> 0 < nk k.
Proof.
  intros Hk. apply sigma_pos; [exact some_point|]. intros n Hn. apply em_r_pos; assumption.
Qed.

Lemma em_nk_sum : sigma K nk = INR N.
Proof.
  unfold nk. rewrite sigma_swap.
  rewrite (sigma_ext N _ (fun _ => 1)) by (intros n Hn; apply em_r_sum; exact Hn).
  rewrite sigma_const. ring.
Qed.

Lemma em_w'_pos (k : nat) : (k < K)%nat -> 0 < w' k.
Proof.
  intros Hk. unfold w', Rdiv. apply Rmult_lt_0_compat; [apply em_nk_pos; exact Hk|].
  apply Rinv_0_lt_compat. apply lt_0_INR. exact some_point.
Qed.

(** The weights: Gibbs' inequality. *)
Lemma em_weights : 0 <= sigma K (fun k => nk k * (ln (w' k) - ln (w k))).
Proof.
  assert (HN : 0 < INR N) by (apply lt_0_INR; exact some_point).
  assert (H : sigma K (fun k => nk k * (ln (w k) - ln (w' k)))
              <= sigma K (fun k => INR N * w k - nk k)).
  { apply sigma_le. intros k Hk.
    pose proof (em_nk_pos k Hk) as Hnk. pose proof (em_w'_pos k Hk) as Hw'.
    pose proof (weights_pos k Hk) as Hw.
    pose proof (ln_bound (w k * / w' k)) as Hb.
    rewrite ln_mult, ln_Rinv in Hb; try lra; [|apply Rinv_0_lt_compat; exact Hw'].
    assert (0 < w k * / w' k) as Hp
      by (apply Rmult_lt_0_compat; [exact Hw|apply Rinv_0_lt_compat; exact Hw']).
    specialize (Hb Hp).
    assert (nk k * (ln (w k) - ln (w' k)) <= nk k * (w k * / w' k - 1))
      by (apply Rmult_le_compat_l; lra).
    assert (nk k * (w k * / w' k - 1) = INR N * w k - nk k) as E
      by (unfold w'; field; lra).
    lra. }
  rewrite sigma_minus, sigma_scal, weights_sum, em_nk_sum in H.
  rewrite (sigma_ext K (fun k => nk k * (ln (w' k) - ln (w k)))
             (fun k => - (nk k * (ln (w k) - ln (w' k))))) by (intros; ring).
  rewrite sigma_opp. lra.
Qed.

(** One component: the new mean and covariance do at least as well. *)
Lemma em_component (k : nat) :
  (k < K)%nat ->
  0 <= sigma N (fun n => r n k * (ln (dens' n k) - ln (dens n k))).
Proof.
  intros Hk.
  pose proof (em_nk_pos k Hk) as Hnk.
  pose proof (cov_pd k Hk) as Hpd. pose proof (cov'_pd k Hk) as Hpd'.
  pose proof (pos_def_det D (cv' k) Hpd') as Hdet'.
  set (rk := fun n => r n k).
  set (y := fun n i => x n i - mu' k i).
  (* the new covariance against its own residuals *)
  assert (Hown : sigma N (fun n => rk n * qinv D (cv' k) (y n)) = nk k * INR D).
  { apply (qinv_moment D N rk y (nk k)); [lra|]. apply Rgt_not_eq. exact Hdet'. }
  (* the old covariance: from the old mean to the new one, then the moments *)
  assert (Hshift : sigma N (fun n => rk n * qinv D (cv k) (y n))
                   <= sigma N (fun n => rk n * qinv D (cv k) (fun i => x n i - mu k i))).
  { unfold qinv.
    rewrite (mean_shift N D rk x (finverse D (cv k)) (mu k) (nk k) eq_refl ltac:(lra)).
    cbv zeta. fold (mu' k). 
    assert (0 <= nk k * qf D (finverse D (cv k))
                          (fun i => sigma N (fun n => rk n * x n i) / nk k - mu k i)).
    { apply Rmult_le_pos; [lra|]. apply (qinv_nonneg D (cv k) _ Hpd). }
    unfold y, mu', rk in *. lra. }
  pose proof (moment_bound D N rk y (cv k) (nk k) Hnk Hpd Hpd') as Hbound.
  (* the logarithms *)
  rewrite (sigma_ext N _
    (fun n => / 2 * (rk n * ln (fdet D (cv k))
                     + rk n * qinv D (cv k) (fun i => x n i - mu k i)
                     - rk n * ln (fdet D (cv' k))
                     - rk n * qinv D (cv' k) (y n)))).
  2:{ intros n Hn. rewrite (ln_dens n k Hn Hk), (ln_dens' n k Hn Hk). unfold rk, y. ring. }
  rewrite sigma_scal, !sigma_minus, sigma_plus, !sigma_scal_r, Hown.
  change (sigma N rk) with (nk k).
  change (moment N rk y (nk k)) with (cv' k) in Hbound.
  set (A := ln (fdet D (cv k))) in *. set (B := ln (fdet D (cv' k))) in *.
  assert (nk k * (INR D + B) = nk k * INR D + nk k * B) as E by ring.
  lra.
Qed.

(** One turn does not lower the log-likelihood. *)
Lemma em_turn :
  sigma N (fun n => ln (e n))
  <= sigma N (fun n => ln (sigma K (fun k => w' k * dens' n k))).
Proof.
  assert (Hn : forall n, (n < N)%nat ->
            sigma K (fun k => r n k * (ln (w' k) - ln (w k) + (ln (dens' n k) - ln (dens n k))))
            <= ln (sigma K (fun k => w' k * dens' n k)) - ln (e n)).
  { intros n Hn. pose proof (em_e_pos n Hn) as He.
    pose (a := fun k => w' k * dens' n k / (w k * dens n k)).
    assert (Ha : forall k, (k < K)%nat -> 0 < a k).
    { intros k Hk. unfold a, Rdiv. apply Rmult_lt_0_compat.
      - apply Rmult_lt_0_compat; [apply em_w'_pos|apply dens'_pos]; assumption.
      - apply Rinv_0_lt_compat.
        apply Rmult_lt_0_compat; [apply weights_pos|apply dens_pos]; assumption. }
    assert (He' : 0 < sigma K (fun k => w' k * dens' n k)).
    { apply sigma_pos; [exact some_component|]. intros k Hk.
      apply Rmult_lt_0_compat; [apply em_w'_pos|apply dens'_pos]; assumption. }
    assert (HA : sigma K (fun k => r n k * a k)
                 = sigma K (fun k => w' k * dens' n k) / e n).
    { rewrite <- sigma_div. apply sigma_ext. intros k Hk. unfold r, a.
      pose proof (weights_pos k Hk). pose proof (dens_pos n k Hn Hk). field. lra. }
    pose proof (jensen_ln K (r n) a
                  (fun k Hk => Rlt_le _ _ (em_r_pos n k Hn Hk)) (em_r_sum n Hn) Ha) as J.
    rewrite HA in J.
    assert (0 < sigma K (fun k => w' k * dens' n k) / e n) as Hq
      by (unfold Rdiv; apply Rmult_lt_0_compat; [exact He'|apply Rinv_0_lt_compat; exact He]).
    specialize (J Hq).
    assert (Hdiv : ln (sigma K (fun k => w' k * dens' n k) / e n)
                   = ln (sigma K (fun k => w' k * dens' n k)) - ln (e n)).
    { unfold Rdiv. rewrite ln_mult, ln_Rinv; try lra. apply Rinv_0_lt_compat; exact He. }
    rewrite Hdiv in J.
    apply Rle_trans with (sigma K (fun k => r n k * ln (a k))); [|lra].
    right. apply sigma_ext. intros k Hk. f_equal. unfold a, Rdiv.
    pose proof (em_w'_pos k Hk). pose proof (dens'_pos n k Hn Hk).
    pose proof (weights_pos k Hk). pose proof (dens_pos n k Hn Hk).
    rewrite ln_mult, ln_Rinv, !ln_mult; try lra.
    - apply Rmult_lt_0_compat; lra.
    - apply Rmult_lt_0_compat; lra.
    - apply Rinv_0_lt_compat. apply Rmult_lt_0_compat; lra. }
  assert (Hall : sigma N (fun n => sigma K (fun k =>
                    r n k * (ln (w' k) - ln (w k) + (ln (dens' n k) - ln (dens n k)))))
                 <= sigma N (fun n => ln (sigma K (fun k => w' k * dens' n k)) - ln (e n)))
    by (apply sigma_le; exact Hn).
  rewrite sigma_minus in Hall.
  rewrite sigma_swap in Hall.
  rewrite (sigma_ext K _
     (fun k => nk k * (ln (w' k) - ln (w k))
               + sigma N (fun n => r n k * (ln (dens' n k) - ln (dens n k))))) in Hall.
  2:{ intros k _. unfold nk. rewrite <- sigma_scal_r, <- sigma_plus.
      apply sigma_ext. intros; ring. }
  rewrite sigma_plus in Hall.
  pose proof em_weights as HW.
  assert (0 <= sigma K (fun k => sigma N (fun n => r n k * (ln (dens' n k) - ln (dens n k)))))
    as HG by (apply sigma_nonneg; intros k Hk; apply em_component; exact Hk).
  lra.
Qed.

End EMTurn.

(** ** Matrices that agree on the first [n] indices *)

Lemma cofactor_ext (n : nat) (a b : nat -> nat -> R) (i j : nat) :
  (forall i j, (i < n)%nat -> (j < n)%nat -> a i j = b i j) ->
  cofactor n a i j = cofactor n b i j.
Proof.
  intros E. unfold cofactor. f_equal.
  destruct n as [|n]; [reflexivity|]. cbn [pred].
  apply fdet_ext. intros r c Hr Hc. unfold fminor. apply E; apply skip_lt; assumption.
Qed.

Lemma qinv_ext (n : nat) (a b : nat -> nat -> R) (v u : nat -> R) :
  (forall i j, (i < n)%nat -> (j < n)%nat -> a i j = b i j) ->
  (forall i, (i < n)%nat -> v i = u i) ->
  qinv n a v = qinv n b u.
Proof.
  intros Ea Ev. unfold qinv. apply qf_ext; [|exact Ev].
  intros i j _ _. unfold finverse.
  rewrite (cofactor_ext n a b j i Ea), (fdet_ext n a b Ea). reflexivity.
Qed.

Lemma pos_def_ext (n : nat) (a b : nat -> nat -> R) :
  (forall i j, (i < n)%nat -> (j < n)%nat -> a i j = b i j) ->
  pos_def n a -> pos_def n b.
Proof.
  intros E [Hs Hp]. split.
  - intros i j Hi Hj. rewrite <- !E by assumption. apply Hs; assumption.
  - intros v Hv. rewrite <- (qf_ext n a b v v E (fun _ _ => eq_refl)). apply Hp. exact Hv.
Qed.

(** One turn, with the new parameters given by their entries. *)
Lemma em_turn_ext (N D K : nat) (x : nat -> nat -> R) (w : nat -> R)
  (mu : nat -> nat -> R) (cv : nat -> nat -> nat -> R) (dens dens' : nat -> nat -> R)
  (r : nat -> nat -> R) (w' : nat -> R) (mu' : nat -> nat -> R)
  (cv' : nat -> nat -> nat -> R) :
  (0 < N)%nat -> (0 < K)%nat ->
  (forall k, (k < K)%nat -> 0 < w k) -> sigma K w = 1 ->
  (forall n k, (n < N)%nat -> (k < K)%nat -> 0 < dens n k) ->
  (forall n k, (n < N)%nat -> (k < K)%nat -> 0 < dens' n k) ->
  (forall k, (k < K)%nat -> pos_def D (cv k)) ->
  (forall k, (k < K)%nat -> pos_def D (cv' k)) ->
  (forall n k, (n < N)%nat -> (k < K)%nat ->
     ln (dens n k)
     = - (INR D / 2 * ln (2 * PI))
       - / 2 * (ln (fdet D (cv k)) + qinv D (cv k) (fun i => x n i - mu k i))) ->
  (forall n k, (n < N)%nat -> (k < K)%nat ->
     ln (dens' n k)
     = - (INR D / 2 * ln (2 * PI))
       - / 2 * (ln (fdet D (cv' k)) + qinv D (cv' k) (fun i => x n i - mu' k i))) ->
  (forall n k, (n < N)%nat -> (k < K)%nat ->
     r n k = w k * dens n k / sigma K (fun j => w j * dens n j)) ->
  (forall k, (k < K)%nat -> w' k = sigma N (fun n => r n k) / INR N) ->
  (forall k i, (k < K)%nat -> (i < D)%nat ->
     mu' k i = sigma N (fun n => r n k * x n i) / sigma N (fun n => r n k)) ->
  (forall k a b, (k < K)%nat -> (a < D)%nat -> (b < D)%nat ->
     cv' k a b
     = sigma N (fun n => r n k * ((x n a - mu' k a) * (x n b - mu' k b)))
       / sigma N (fun n => r n k)) ->
  sigma N (fun n => ln (sigma K (fun k => w k * dens n k)))
  <= sigma N (fun n => ln (sigma K (fun k => w' k * dens' n k))).
Proof.
  intros HN HK Hw Hs Hd Hd' Hpd Hpd' Hln Hln' Hr Hw' Hmu' Hcv'.
  pose (r0 := fun n k => w k * dens n k / sigma K (fun j => w j * dens n j)).
  pose (nk0 := fun k => sigma N (fun n => r0 n k)).
  pose (mu0 := fun k i => sigma N (fun n => r0 n k * x n i) / nk0 k).
  pose (cv0 := fun k => moment N (fun n => r0 n k) (fun n i => x n i - mu0 k i) (nk0 k)).
  assert (Enk : forall k, (k < K)%nat -> sigma N (fun n => r n k) = nk0 k).
  { intros k Hk. apply sigma_ext. intros n Hn. apply Hr; assumption. }
  assert (Emu : forall k i, (k < K)%nat -> (i < D)%nat -> mu' k i = mu0 k i).
  { intros k i Hk Hi. rewrite Hmu', Enk by assumption. unfold mu0. f_equal.
    apply sigma_ext. intros n Hn. rewrite Hr by assumption. reflexivity. }
  assert (Ecv : forall k, (k < K)%nat ->
            forall a b, (a < D)%nat -> (b < D)%nat -> cv' k a b = cv0 k a b).
  { intros k Hk a b Ha Hb. rewrite Hcv', !Emu, Enk by assumption.
    unfold cv0, moment. f_equal. apply sigma_ext. intros n Hn.
    rewrite Hr by assumption. fold (r0 n k). ring. }
  assert (L' : forall n k, (n < N)%nat -> (k < K)%nat ->
            ln (dens' n k)
            = - (INR D / 2 * ln (2 * PI))
              - / 2 * (ln (fdet D (cv0 k)) + qinv D (cv0 k) (fun i => x n i - mu0 k i))).
  { intros n k Hn Hk. rewrite Hln' by assumption.
    rewrite (fdet_ext D (cv' k) (cv0 k) (Ecv k Hk)).
    rewrite (qinv_ext D (cv' k) (cv0 k) (fun i => x n i - mu' k i)
               (fun i => x n i - mu0 k i) (Ecv k Hk)); [reflexivity|].
    intros i Hi. rewrite Emu by assumption. reflexivity. }
  assert (P0 : forall k, (k < K)%nat -> pos_def D (cv0 k)).
  { intros k Hk. apply (pos_def_ext D (cv' k)); [apply Ecv; exact Hk|apply Hpd'; exact Hk]. }
  pose proof (em_turn N D K x w mu cv dens dens' HN HK Hw Hs Hd Hd' Hln L' Hpd P0) as T.
  eapply Rle_trans; [exact T|]. right.
  apply sigma_ext. intros n Hn. f_equal. apply sigma_ext. intros k Hk.
  rewrite Hw', Enk by assumption. reflexivity.
Qed.

(** ** From the arrays to their entries *)

Lemma m_step_lift (X P : list (list R)) (D K : nat) :
  rows_of D X -> rows_of K P -> length P = length X ->
  (forall k, (k < K)%nat -> mass X P k <> 0) ->
  m_step (lift_m X) (lift_m P) (Z.of_nat K)
  = Ok (lift_v (tab K (new_weight X P)),
        lift_m (tab K (fun k => tab D (new_mean X P k))),
        tab K (fun k => Arr2 (lift_m (tab D (fun a => tab D (new_cov X P k a)))))).
Proof.
  intros HX HP HL Hmass.
  rewrite (lift_m_tab2 D X HX), (lift_m_tab2 K P HP), HL.
  rewrite m_step_tab by exact Hmass.
  unfold lift_v, lift_m. rewrite !tab_map.
  apply f_equal. apply f_equal2; [apply f_equal2|].
  - reflexivity.
  - apply tab_ext. intros k _. rewrite tab_map. reflexivity.
  - apply tab_ext. intros k _. f_equal. rewrite tab_map. apply tab_ext. intros a _.
    rewrite tab_map. apply tab_ext. intros b _. f_equal.
    unfold new_cov, new_mean, mass. f_equal. apply sigma_ext. intros n _. ring.
Qed.

Lemma rows_of_tab {A : Type} (n d : nat) (f : nat -> nat -> A) :
  rows_of d (tab n (fun i => tab d (f i))).
Proof.
  unfold rows_of. apply Forall_forall. intros row Hrow.
  unfold tab in Hrow at 1. apply in_map_iff in Hrow. destruct Hrow as [i [<- _]].
  apply tab_length.
Qed.

Lemma rows_of_nth {A : Type} (d : nat) (m : list (list A)) (i : nat) :
  rows_of d m -> (i < length m)%nat -> length (nth i m []) = d.
Proof.
  intros R Hi. unfold rows_of in R. rewrite Forall_forall in R. apply R. apply nth_In. exact Hi.
Qed.

Lemma lift_m_nth (m : list (list R)) (i : nat) : nth i (lift_m m) [] = lift_v (nth i m []).
Proof. unfold lift_m. change (@nil float64) with (lift_v []). apply map_nth. Qed.

Lemma lift_c_nth (C : list (list (list R))) (k : nat) :
  (k < length C)%nat -> nth k (lift_c C) (Arr0 NaN) = Arr2 (lift_m (nth k C [])).
Proof.
  intros Hk. unfold lift_c.
  rewrite (nth_indep _ (Arr0 NaN) (Arr2 (lift_m []))) by (rewrite length_map; exact Hk).
  apply (map_nth (fun c => Arr2 (lift_m c))).
Qed.

(** The density of the notebook is the Gaussian density. *)
Lemma multivariate_gaussian_proper (D : nat) : gaussian_pdf D multivariate_gaussian.
Proof.
  intros x m c Hx Hm [Hc [Hsq Hpd]].
  apply multivariate_gaussian_pos_det.
  - congruence.
  - congruence.
  - rewrite Hc. exact Hsq.
  - rewrite Hm, Rdet_fdet. apply pos_def_det. exact Hpd.
Qed.

Lemma ln_gaussian_proper (D : nat) (x m : list R) (c : list (list R)) :
  length m = D -> proper_covariance D c ->
  ln (gaussian_density x m c)
  = - (INR D / 2 * ln (2 * PI))
    - / 2 * (ln (fdet D (entry c)) + qinv D (entry c) (fun i => nth i x 0 - nth i m 0)).
Proof.
  intros Hm [Hc [_ Hpd]].
  rewrite ln_gaussian_density.
  - rewrite Hm. ring.
  - congruence.
  - rewrite Hm. apply pos_def_det. exact Hpd.
Qed.

Section Turn.

Variable pdf : vec -> vec -> ndarray -> result float64.
Variables (X : list (list R)) (D K : nat).
Variables (W : list R) (M : list (list R)) (C : list (list (list R))).

Hypothesis pdf_gaussian : gaussian_pdf D pdf.

Hypothesis some_point : (0 < length X)%nat.
Hypothesis some_component : (0 < K)%nat.
Hypothesis points : rows_of D X.
Hypothesis proper : proper_mixture D K W M C.

(** The densities, the posterior and the model the M-step draws from it. *)
Let dens (n k : nat) : R := gaussian_density (nth n X []) (nth k M []) (nth k C []).
Let P : list (list R) := tab (length X) (fun n => tab K (responsibility K W dens n)).
Let W' : list R := tab K (new_weight X P).
Let M' : list (list R) := tab K (fun k => tab D (new_mean X P k)).
Let C' : list (list (list R)) := tab K (fun k => tab D (fun a => tab D (new_cov X P k a))).

Lemma turn_weight_pos (k : nat) : (k < K)%nat -> 0 < nth k W 0.
Proof.
  intros Hk. destruct proper as [HWl [HWp _]].
  rewrite Forall_forall in HWp. apply HWp. apply nth_In. lia.
Qed.

Lemma turn_covariance (k : nat) : (k < K)%nat -> proper_covariance D (nth k C []).
Proof.
  intros Hk. destruct proper as [_ [_ [_ [_ [_ [HCl HCp]]]]]].
  rewrite Forall_forall in HCp. apply HCp. apply nth_In. lia.
Qed.

Lemma turn_mean_length (k : nat) : (k < K)%nat -> length (nth k M []) = D.
Proof.
  intros Hk. destruct proper as [_ [_ [_ [HMl [HMr _]]]]].
  apply rows_of_nth; [exact HMr|lia].
Qed.

Lemma turn_evidence_pos (n : nat) : 0 < evidence K W dens n.
Proof.
  unfold evidence. apply sigma_pos; [exact some_component|]. intros k Hk.
  unfold joint. apply Rmult_lt_0_compat; [apply turn_weight_pos; exact Hk|].
  apply gaussian_density_pos.
Qed.

Lemma turn_density_values (n k : nat) :
  (n < length (lift_m X))%nat -> (k < K)%nat ->
  pdf (nth n (lift_m X) []) (nth k (lift_m M) []) (nth k (lift_c C) (Arr0 NaN))
  = Ok (Fin (dens n k)).
Proof.
  intros Hn Hk. rewrite lift_m_length in Hn.
  destruct proper as [_ [_ [_ [_ [_ [HCl _]]]]]].
  rewrite !lift_m_nth, lift_c_nth by lia.
  apply pdf_gaussian.
  - apply rows_of_nth; assumption.
  - apply turn_mean_length; exact Hk.
  - apply turn_covariance; exact Hk.
Qed.

Lemma turn_posterior (es : mat -> vec -> mat -> list ndarray -> Z -> result mat) :
  es = e_step pdf \/ es = e_step_pointwise pdf ->
  es (lift_m X) (lift_v W) (lift_m M) (lift_c C) (Z.of_nat K) = Ok (lift_m P).
Proof.
  intros Hes.
  destruct proper as [HWl [_ [_ [HMl [_ [HCl _]]]]]].
  assert (HP : lift_m P
               = tab (length (lift_m X))
                     (fun n => tab K (fun k => Fin (responsibility K W dens n k)))).
  { unfold P, lift_m at 1. rewrite tab_map, lift_m_length. apply tab_ext. intros n _.
    rewrite tab_map. reflexivity. }
  rewrite HP.
  destruct Hes as [-> | ->];
    [apply e_step_tab|apply e_step_pointwise_tab];
    try (rewrite ?lift_m_length; unfold lift_c; rewrite ?length_map; lia);
    try exact turn_density_values;
    intros n _; apply Rgt_not_eq; apply turn_evidence_pos.
Qed.

Lemma turn_entry (n k : nat) :
  (n < length X)%nat -> (k < K)%nat ->
  entry P n k
  = nth k W 0 * dens n k / sigma K (fun j => nth j W 0 * dens n j).
Proof. intros Hn Hk. unfold P. rewrite entry_tab2 by assumption. reflexivity. Qed.

Lemma turn_mass_pos (k : nat) : (k < K)%nat -> 0 < mass X P k.
Proof.
  intros Hk. unfold mass. apply sigma_pos; [exact some_point|]. intros n Hn.
  rewrite turn_entry by assumption. unfold Rdiv. apply Rmult_lt_0_compat.
  - apply Rmult_lt_0_compat; [apply turn_weight_pos; exact Hk|apply gaussian_density_pos].
  - apply Rinv_0_lt_compat. apply (turn_evidence_pos n).
Qed.

Lemma turn_model (es : mat -> vec -> mat -> list ndarray -> Z -> result mat) :
  es = e_step pdf \/ es = e_step_pointwise pdf ->
  em_iteration es (lift_m X) (Z.of_nat K) (lift_params W M C) = Ok (lift_params W' M' C').
Proof.
  intros Hes. unfold em_iteration, lift_params.
  rewrite (turn_posterior es Hes). cbn [bind].
  rewrite (m_step_lift X P D K).
  - unfold W', M', C', lift_c. rewrite tab_map. reflexivity.
  - exact points.
  - apply rows_of_tab.
  - unfold P. apply tab_length.
  - intros k Hk. apply Rgt_not_eq. apply turn_mass_pos. exact Hk.
Qed.

Lemma turn_next_covariance (k : nat) :
  (k < K)%nat -> pos_def D (entry (nth k C' [])) -> proper_covariance D (nth k C' []).
Proof.
  intros Hk Hpd. revert Hpd. unfold C'.
  rewrite (tab_nth K k (fun k => tab D (fun a => tab D (new_cov X P k a)))) by exact Hk.
  intros Hpd. split; [apply tab_length|]. split; [apply rows_of_tab|exact Hpd].
Qed.

Lemma turn_next_weights : sigma K (fun k => nth k W' 0) = 1.
Proof.
  assert (HN : 0 < INR (length X)) by (apply lt_0_INR; exact some_point).
  rewrite (sigma_ext K _ (fun k => mass X P k / INR (length X))).
  2:{ intros k Hk. unfold W'. rewrite (tab_nth K k (new_weight X P)) by exact Hk. reflexivity. }
  rewrite (sigma_div K (INR (length X)) (mass X P)). unfold mass.
  rewrite <- sigma_swap.
  rewrite (sigma_ext (length X) _ (fun _ => 1)).
  - rewrite sigma_const. field. lra.
  - intros n Hn.
    rewrite (sigma_ext K _ (responsibility K W dens n)).
    + apply responsibility_row_sum. apply Rgt_not_eq. apply turn_evidence_pos.
    + intros k Hk. unfold P. rewrite entry_tab2 by assumption. reflexivity.
Qed.

Lemma turn_proper :
  Forall (fun c => pos_def D (entry c)) C' -> proper_mixture D K W' M' C'.
Proof.
  intros HC'.
  assert (HN : 0 < INR (length X)) by (apply lt_0_INR; exact some_point).
  split; [apply tab_length|]. split; [|split; [exact turn_next_weights|]].
  { apply Forall_forall. intros v Hv. unfold W', tab in Hv. apply in_map_iff in Hv.
    destruct Hv as [k [<- Hk]]. apply in_seq in Hk.
    unfold new_weight, Rdiv. apply Rmult_lt_0_compat.
    - apply turn_mass_pos. lia.
    - apply Rinv_0_lt_compat. exact HN. }
  split; [apply tab_length|]. split; [apply rows_of_tab|]. split; [apply tab_length|].
  apply Forall_forall. intros c Hc.
  destruct (In_nth _ _ [] Hc) as [k [Hk <-]]. unfold C' in Hk. rewrite tab_length in Hk.
  apply turn_next_covariance; [exact Hk|].
  rewrite Forall_forall in HC'. apply HC'. apply nth_In. unfold C'. rewrite tab_length. exact Hk.
Qed.

Lemma turn_likelihood :
  Forall (fun c => pos_def D (entry c)) C' ->
  log_likelihood K X W M C <= log_likelihood K X W' M' C'.
Proof.
  intros HC'.
  assert (HC'k : forall k, (k < K)%nat -> proper_covariance D (nth k C' [])).
  { intros k Hk. apply turn_next_covariance; [exact Hk|].
    rewrite Forall_forall in HC'. apply HC'. apply nth_In.
    unfold C'. rewrite tab_length. exact Hk. }
  assert (HM'k : forall k, (k < K)%nat -> nth k M' [] = tab D (new_mean X P k)).
  { intros k Hk. unfold M'. apply (tab_nth K k (fun k => tab D (new_mean X P k))). exact Hk. }
  destruct proper as [HWl [HWp [HWs [HMl [HMr [HCl HCp]]]]]].
  unfold log_likelihood, mixture_density.
  apply (em_turn_ext (length X) D K (entry X) (fun k => nth k W 0) (entry M)
           (fun k => entry (nth k C [])) dens
           (fun n k => gaussian_density (nth n X []) (nth k M' []) (nth k C' []))
           (entry P) (fun k => nth k W' 0) (entry M') (fun k => entry (nth k C' []))).
  - exact some_point.
  - exact some_component.
  - exact turn_weight_pos.
  - exact HWs.
  - intros; apply gaussian_density_pos.
  - intros; apply gaussian_density_pos.
  - intros k Hk. apply (turn_covariance k Hk).
  - intros k Hk. apply (HC'k k Hk).
  - intros n k Hn Hk. unfold dens.
    apply ln_gaussian_proper; [apply turn_mean_length|apply turn_covariance]; exact Hk.
  - intros n k Hn Hk.
    apply ln_gaussian_proper; [|apply HC'k; exact Hk].
    rewrite HM'k by exact Hk. apply tab_length.
  - exact turn_entry.
  - intros k Hk. unfold W'. rewrite (tab_nth K k (new_weight X P)) by exact Hk. reflexivity.
  - intros k i Hk Hi. unfold M'. rewrite entry_tab2 by assumption. reflexivity.
  - intros k a b Hk Ha Hb. unfold C'.
    rewrite (tab_nth K k (fun k => tab D (fun a => tab D (new_cov X P k a)))) by exact Hk.
    rewrite entry_tab2 by assumption.
    unfold M'. rewrite !entry_tab2 by assumption. reflexivity.
Qed.

End Turn.

(** ** Arrays with finite entries are told apart by their entries *)

Lemma map_injective {A B : Type} (f : A -> B) :
  (forall a b, f a = f b -> a = b) -> forall l l', map f l = map f l' -> l = l'.
Proof.
  intros Hf l. induction l as [|a l IH]; intros [|b l'] E; try discriminate E; [reflexivity|].
  simpl in E. injection E as E1 E2. f_equal; [apply Hf; exact E1|apply IH; exact E2].
Qed.

Lemma lift_v_injective (v u : list R) : lift_v v = lift_v u -> v = u.
Proof. apply map_injective. intros a b E. injection E as E. exact E. Qed.

Lemma lift_m_injective (m m' : list (list R)) : lift_m m = lift_m m' -> m = m'.
Proof. apply map_injective. exact lift_v_injective. Qed.

Lemma lift_c_injective (C C' : list (list (list R))) : lift_c C = lift_c C' -> C = C'.
Proof.
  apply map_injective. intros a b E. injection E as E. apply lift_m_injective. exact E.
Qed.

Lemma pos_def_2 (a b c : R) :
  0 < a -> 0 < a * c - b * b -> pos_def 2 (entry [[a; b]; [b; c]]).
Proof.
  intros Ha Hd. split.
  - intros i j Hi Hj. small_index i Hi; small_index j Hj; reflexivity.
  - intros v [i [Hi Hv]]. unfold qf, entry. simpl. unfold zero, R_zero.
    assert (0 < c) by nra.
    assert (E : v 0%nat * a * v 0%nat + (v 0%nat * b * v 1%nat + 0)
                + (v 1%nat * b * v 0%nat + (v 1%nat * c * v 1%nat + 0) + 0)
                = (a * v 0%nat + b * v 1%nat) ^ 2 / a
                  + (a * c - b * b) / a * (v 1%nat) ^ 2) by (field; lra).
    rewrite E. clear E.
    assert (0 < / a) by (apply Rinv_0_lt_compat; exact Ha).
    assert (0 <= (a * v 0%nat + b * v 1%nat) ^ 2) by apply pow2_ge_0.
    assert (0 <= (v 1%nat) ^ 2) by apply pow2_ge_0.
    assert (0 < (a * c - b * b) / a)
      by (unfold Rdiv; apply Rmult_lt_0_compat; assumption).
    destruct (Req_dec (v 1%nat) 0) as [Z1|N1].
    + assert (v 0%nat <> 0) by (small_index i Hi; [exact Hv|contradiction]).
      rewrite Z1.
      assert (0 < (a * v 0%nat + b * 0) ^ 2).
      { replace ((a * v 0%nat + b * 0) ^ 2) with ((a * v 0%nat) * (a * v 0%nat)) by ring.
        assert (a * v 0%nat <> 0) by (apply Rmult_integral_contrapositive_currified; lra).
        destruct (Rtotal_order (a * v 0%nat) 0) as [L|[E|G]]; [|contradiction|]; nra. }
      unfold Rdiv. nra.
    + assert (0 < (v 1%nat) ^ 2).
      { replace ((v 1%nat) ^ 2) with (v 1%nat * v 1%nat) by ring.
        destruct (Rtotal_order (v 1%nat) 0) as [L|[E|G]]; [|contradiction|]; nra. }
      unfold Rdiv in *. nra.
Qed.

Lemma proper_covariance_2 (a b c : R) :
  0 < a -> 0 < a * c - b * b -> proper_covariance 2 [[a; b]; [b; c]].
Proof.
  intros Ha Hd. split; [reflexivity|]. split; [repeat constructor|].
  apply pos_def_2; assumption.
Qed.

(** * The claims *)

(** ** E-step *)



(** ** M-step *)





(** C6, as the code has it.  When the responsibility mass [n_k] of a
    component is zero, the M-step raises nothing and re-seeds nothing:
    it divides by [n_k] and returns a model in which every entry of
    [mean_k] and of [covariance_k] is [nan] or an infinity. *)
Theorem m_step_zero_mass (data prior_pi : mat) (D K k : nat) :
  rows_of D data -> rows_of K prior_pi -> length prior_pi = length data ->
  (0 < length data)%nat -> (k < K)%nat ->
  nth k (sum_axis0 prior_pi) NaN = Fin 0 ->
  exists (w : vec) (means : mat) (covs : list ndarray),
    m_step data prior_pi (Z.of_nat K) = Ok (w, means, covs)
    /\ (forall d, (d < D)%nat -> ~ is_finite (entry means k d))
    /\ exists c, nth_error covs k = Some (Arr2 c)
         /\ forall a b, (a < D)%nat -> (b < D)%nat -> ~ is_finite (entry c a b).
Proof.
  intros HX HP HL HN Hk Hzero. unfold mat, vec in *.
  pose proof (rows_of_tab2 D data HX) as Ed.
  pose proof (rows_of_tab2 K prior_pi HP) as Ep. rewrite HL in Ep.
  set (N := length data) in *.
  rewrite Ep in Hzero.
  rewrite (sum_axis0_ftab N K (entry prior_pi) HN) in Hzero.
  rewrite tab_nth in Hzero by exact Hk.
  rewrite Ed, Ep.
  rewrite (m_step_ftab N D K (entry data) (entry prior_pi) HN).
  eexists _, _, _. split; [reflexivity|]. split.
  - intros d Hd. rewrite entry_tab2 by assumption. rewrite Hzero.
    apply fdiv_zero_not_finite.
  - eexists. split; [rewrite tab_nth_error by exact Hk; reflexivity|].
    intros a b Ha Hb. rewrite entry_tab2 by assumption. rewrite Hzero.
    apply fdiv_zero_not_finite.
Qed.

Lemma m_step_zero_mass_witness :
  exists (w : vec) (means : mat) (covs : list ndarray),
    m_step (lift_m lonely_point) (lift_m one_sided) 2 = Ok (w, means, covs)
    /\ (forall d, (d < 1)%nat -> ~ is_finite (entry means 1 d))
    /\ exists c, nth_error covs 1 = Some (Arr2 c)
         /\ forall a b, (a < 1)%nat -> (b < 1)%nat -> ~ is_finite (entry c a b).
Proof.
  apply (m_step_zero_mass (lift_m lonely_point) (lift_m one_sided) 1 2 1).
  - repeat constructor.
  - repeat constructor.
  - reflexivity.
  - simpl. lia.
  - lia.
  - simpl. f_equal. lra.
Defined.

(** C6, as the specification has it, fails: one point, two components,
    the second with no responsibility at all.  The call returns; the
    second mean and the second covariance are [nan]. *)
Lemma m_step_returns_nan :
  m_step (lift_m lonely_point) (lift_m one_sided) 2
  = Ok ([Fin 1; Fin 0], [[Fin 1]; [NaN]], [Arr2 [[Fin 0]]; Arr2 [[NaN]]]).
Proof.
  change (lift_m lonely_point) with (tab 1 (fun n => tab 1 (fun d => Fin 1))).
  change (lift_m one_sided)
    with (tab 1 (fun n => tab 2 (fun k => if Nat.eqb k 0 then Fin 1 else Fin 0))).
  rewrite (m_step_ftab 1 1 2) by lia.
  unfold tab, fsum. simpl.
  float_cases; repeat (f_equal; try lra).
Qed.

(** ** Density *)




(** ** Initialization *)

(** C8, as the code has it.  For [1 <= K <= N] initialization returns
    the points at K distinct positions of the dataset (the first K of a
    permutation of [range(N)]), K times the covariance [np.cov] of the
    dataset and K weights [1/K].  The permutation is drawn right after
    [np.random.seed(42)]: the selection, and the state the global
    generator is left in, do not depend on the state the caller had set. *)
Theorem initialize_parameters_selection (G : generator) (data : mat) (K : nat)
  (s : random_state G) :
  shuffles G -> (0 < K <= length data)%nat ->
  let drawn := permutation G (length data) (seed G 42) in
  let indices := firstn K (fst drawn) in
  initialize_parameters G data (Z.of_nat K) s
  = (Ok (map (fun i => nth i data []) indices,
         repeat (np_cov data) K,
         repeat (Fin (1 / INR K)) K),
     snd drawn)
  /\ length indices = K /\ NoDup indices
  /\ Forall (fun i => (i < length data)%nat) indices.
Proof.
  intros HG [HK HN] drawn indices.
  destruct (firstn_shuffle (fst drawn) (length data) K (HG _ _) HN) as [Hlen [Hnd Hlt]].
  split; [|split; [|split]]; try assumption.
  unfold initialize_parameters.
  rewrite random_choice_accepts by exact HN. fold drawn. fold indices.
  cbn [bind]. rewrite (mapM_index data [] indices Hlt). cbn [bind].
  rewrite Nat2Z.id, uniform_weights by exact HK. reflexivity.
Qed.

Lemma initialize_parameters_selection_witness :
  let drawn := permutation rotating 3 (seed rotating 42) in
  let indices := firstn 1 (fst drawn) in
  initialize_parameters rotating (lift_m triangle) 1 7%Z
  = (Ok (map (fun i => nth i (lift_m triangle) []) indices,
         repeat (np_cov (lift_m triangle)) 1,
         repeat (Fin (1 / INR 1)) 1),
     snd drawn)
  /\ length indices = 1%nat /\ NoDup indices
  /\ Forall (fun i => (i < 3)%nat) indices.
Proof.
  apply (initialize_parameters_selection rotating (lift_m triangle) 1 7%Z).
  - exact rotating_shuffles.
  - simpl. lia.
Defined.

(** C8, as the specification has it, fails.  With a generator whose
    draws do depend on its state, seeding it with 1 or with 2 before
    the call changes what [np.random.choice] would draw, yet
    initialization returns the same model, and it leaves the caller's
    generator in the state that follows seed 42. *)
Lemma initialize_parameters_ignores_caller_seed :
  fst (random_choice rotating 3 1 (seed rotating 1))
  <> fst (random_choice rotating 3 1 (seed rotating 2))
  /\ initialize_parameters rotating (lift_m triangle) 1 (seed rotating 1)
     = initialize_parameters rotating (lift_m triangle) 1 (seed rotating 2)
  /\ snd (initialize_parameters rotating (lift_m triangle) 1 (seed rotating 1)) = 43%Z.
Proof.
  split; [|split].
  - simpl. discriminate.
  - reflexivity.
  - rewrite initialize_parameters_triangle. reflexivity.
Qed.

(** ** Driver *)

(** C10.  Two calls of the fit with the same arguments return the same
    weights, means and covariances and leave the generator in the same
    state, whatever state it was in before each call: initialization
    seeds it with the constant 42. *)
Theorem gmm_step_repeatable (G : generator)
  (e_step_bound : mat -> vec -> mat -> list ndarray -> Z -> result mat)
  (data : mat) (num_components max_iters : Z) (s1 s2 : random_state G) :
  gmm_step G e_step_bound data num_components max_iters s1
  = gmm_step G e_step_bound data num_components max_iters s2
  /\ snd (initialize_parameters G data num_components s1)
     = snd (random_choice G (length data) num_components (seed G 42)).
Proof.
  split; [reflexivity|].
  unfold initialize_parameters.
  destruct (random_choice G (length data) num_components (seed G 42)). reflexivity.
Qed.

(** C5, as the code has it.  A component count below zero or above the
    number of points (so also an empty dataset with [K >= 1]) makes
    [np.random.choice] raise [ValueError] in initialization, whatever
    the E-step is bound to: no turn of the loop is taken.  A component
    count of zero is not rejected: the fit returns the empty model. *)
Theorem gmm_step_input_checks (G : generator)
  (e_step_bound : mat -> vec -> mat -> list ndarray -> Z -> result mat)
  (pdf : vec -> vec -> ndarray -> result float64)
  (data : mat) (num_components max_iters : Z) (s : random_state G) :
  ((num_components < 0 \/ Z.of_nat (length data) < num_components)%Z ->
     gmm_step G e_step_bound data num_components max_iters s = (Raise ValueError, seed G 42)
     /\ gmm_history G e_step_bound data num_components max_iters s = Raise ValueError)
  /\ gmm_step G (e_step pdf) data 0 max_iters s
     = (Ok ([], [], []), snd (permutation G (length data) (seed G 42))).
Proof.
  split.
  - intros H. unfold gmm_step, gmm_history.
    rewrite initialize_parameters_rejects by exact H. split; reflexivity.
  - unfold gmm_step, initialize_parameters.
    rewrite (random_choice_accepts G (length data) 0) by lia.
    cbn [bind firstn mapM Z.to_nat repeat map].
    rewrite em_loop_no_component. reflexivity.
Qed.

Lemma gmm_step_input_checks_witness :
  gmm_step rotating (e_step multivariate_gaussian) (lift_m triangle) 4 100 0%Z
  = (Raise ValueError, 42%Z)
  /\ gmm_history rotating (e_step multivariate_gaussian) (lift_m triangle) 4 100 0%Z
     = Raise ValueError.
Proof.
  apply (gmm_step_input_checks rotating (e_step multivariate_gaussian) multivariate_gaussian
           (lift_m triangle) 4 100 0%Z).
  right. simpl. lia.
Defined.

(** C5, as the specification has it, fails: zero components on three
    points are not rejected, the hundred turns run and the empty model
    comes back. *)
Lemma gmm_step_accepts_no_component :
  gmm_step rotating (e_step multivariate_gaussian) (lift_m triangle) 0 100 0%Z
  = (Ok ([], [], []), 43%Z).
Proof.
  unfold gmm_step, initialize_parameters.
  change (random_choice rotating (length (lift_m triangle)) 0 (seed rotating 42))
    with (@Ok (list nat) [], 43%Z).
  cbn [bind mapM Z.to_nat repeat map].
  rewrite em_loop_no_component. reflexivity.
Qed.

(** C4, as the code has it.  The driver has no tolerance and no test in
    its loop: unless an exception ends the fit, it takes exactly
    [max_iters] E/M turns, and what it returns is the model after the
    last one. *)
Theorem gmm_step_takes_every_turn (G : generator)
  (e_step_bound : mat -> vec -> mat -> list ndarray -> Z -> result mat)
  (data : mat) (num_components max_iters : Z) (s : random_state G) :
  match fst (initialize_parameters G data num_components s) with
  | Raise e => fst (gmm_step G e_step_bound data num_components max_iters s) = Raise e
  | Ok (means, covariances, weights) =>
      match gmm_history G e_step_bound data num_components max_iters s with
      | Ok history =>
          length history = Z.to_nat max_iters
          /\ fst (gmm_step G e_step_bound data num_components max_iters s)
             = Ok (last history (weights, means, covariances))
      | Raise e => fst (gmm_step G e_step_bound data num_components max_iters s) = Raise e
      end
  end.
Proof.
  unfold gmm_step, gmm_history.
  destruct (initialize_parameters G data num_components s) as [[[[means covs] weights]|e] s'];
    [|reflexivity].
  cbn [fst bind].
  exact (em_history_loop e_step_bound data num_components (Z.to_nat max_iters)
           (weights, means, covs)).
Qed.

(** C4, as the specification has it, fails.  One component on three
    points is at its fixed point after the first turn: the second turn
    changes nothing, so any positive tolerance is met, and the third
    turn is taken all the same. *)
Lemma gmm_step_keeps_turning :
  gmm_history rotating (e_step_pointwise multivariate_gaussian) (lift_m triangle) 1 3 0%Z
  = Ok [single_gaussian; single_gaussian; single_gaussian].
Proof.
  assert (Hfix : em_iteration (e_step_pointwise multivariate_gaussian) (lift_m triangle) 1
                   single_gaussian = Ok single_gaussian).
  { apply (em_iteration_triangle sample_mean sample_cov).
    - reflexivity.
    - reflexivity.
    - repeat constructor.
    - unfold sample_cov. rewrite Rdet_2. lra. }
  unfold gmm_history. rewrite initialize_parameters_triangle.
  change (Z.to_nat 3) with 3%nat. cbn [fst bind em_history].
  assert (Hfirst : em_iteration (e_step_pointwise multivariate_gaussian) (lift_m triangle) 1
                     ([Fin 1], [lift_v origin], [Arr2 (lift_m unbiased_cov)])
                   = Ok single_gaussian).
  { apply (em_iteration_triangle origin unbiased_cov).
    - reflexivity.
    - reflexivity.
    - repeat constructor.
    - unfold unbiased_cov. rewrite Rdet_2. lra. }
  match goal with
  | |- bind ?first _ = _ => change first with
      (em_iteration (e_step_pointwise multivariate_gaussian) (lift_m triangle) 1
         ([Fin 1], [lift_v origin], [Arr2 (lift_m unbiased_cov)]))
  end.
  rewrite Hfirst. cbn [bind]. rewrite Hfix. cbn [bind]. rewrite Hfix. reflexivity.
Qed.

(** ** Log-likelihood *)

(** C9.  In exact arithmetic on finite values (rounding is not
    modelled), one E-step/M-step turn from a proper mixture (positive
    weights of sum 1, positive definite covariances) on at least one
    point returns a model, and if the covariances of that model are
    positive definite, it is a proper mixture again and the
    log-likelihood of the points under it is at least the log-likelihood
    under the model the turn started from.  This holds for the E-step
    of either cell, over a density function that returns the Gaussian
    density. *)
Theorem em_iteration_monotone
  (pdf : vec -> vec -> ndarray -> result float64)
  (es : mat -> vec -> mat -> list ndarray -> Z -> result mat)
  (X : list (list R)) (D K : nat)
  (W : list R) (M : list (list R)) (C : list (list (list R))) :
  gaussian_pdf D pdf ->
  es = e_step pdf \/ es = e_step_pointwise pdf ->
  (0 < length X)%nat -> (0 < D)%nat -> (0 < K)%nat -> rows_of D X ->
  proper_mixture D K W M C ->
  exists (W' : list R) (M' : list (list R)) (C' : list (list (list R))),
    em_iteration es (lift_m X) (Z.of_nat K) (lift_params W M C) = Ok (lift_params W' M' C')
    /\ (Forall (fun c => pos_def D (entry c)) C' ->
        proper_mixture D K W' M' C'
        /\ log_likelihood K X W M C <= log_likelihood K X W' M' C').
Proof.
  intros Hpdf Hes HN _ HK HX Hproper.
  eexists _, _, _. split.
  - apply (turn_model pdf X D K W M C Hpdf HN HK HX Hproper es Hes).
  - intros HC'. split.
    + apply (turn_proper X D K W M C HN HK Hproper). exact HC'.
    + apply (turn_likelihood X D K W M C HN HK Hproper). exact HC'.
Qed.

(** The second cell on the sample: from the initial model to the sample
    mean and covariance. *)
Lemma em_iteration_monotone_witness :
  em_iteration (e_step_pointwise multivariate_gaussian) (lift_m triangle) 1
               (lift_params [1] [origin] [unbiased_cov])
  = Ok (lift_params [1] [sample_mean] [sample_cov])
  /\ log_likelihood 1 triangle [1] [origin] [unbiased_cov]
     <= log_likelihood 1 triangle [1] [sample_mean] [sample_cov].
Proof.
  assert (Hturn : em_iteration (e_step_pointwise multivariate_gaussian) (lift_m triangle) 1
                    (lift_params [1] [origin] [unbiased_cov])
                  = Ok (lift_params [1] [sample_mean] [sample_cov])).
  { apply (em_iteration_triangle origin unbiased_cov).
    - reflexivity.
    - reflexivity.
    - repeat constructor.
    - unfold unbiased_cov. rewrite Rdet_2. lra. }
  split; [exact Hturn|].
  destruct (em_iteration_monotone multivariate_gaussian
              (e_step_pointwise multivariate_gaussian)
              triangle 2 1 [1] [origin] [unbiased_cov]) as [W' [M' [C' [E H]]]].
  - apply multivariate_gaussian_proper.
  - right. reflexivity.
  - simpl. lia.
  - lia.
  - lia.
  - repeat constructor.
  - split; [reflexivity|]. split; [repeat constructor; lra|]. split; [simpl; lra|].
    split; [reflexivity|]. split; [repeat constructor|]. split; [reflexivity|].
    constructor; [|constructor]. apply proper_covariance_2; lra.
  - change (Z.of_nat 1) with 1%Z in E. rewrite Hturn in E.
    injection E as EW EM EC.
    apply (lift_v_injective [1] W') in EW.
    apply (lift_m_injective [sample_mean] M') in EM.
    apply (lift_c_injective [sample_cov] C') in EC.
    subst W' M' C'. apply H.
    constructor; [|constructor]. apply pos_def_2; lra.
Defined.

(** * Further properties of the mixture code *)

(** ** What the M-step keeps *)

(** X2.  After an M-step on responsibilities whose rows sum to 1, the
    new means weighted by the new weights average to the mean of the
    points: the mixture as a whole keeps the sample mean. *)
Theorem m_step_keeps_sample_mean (X P : list (list R)) (D K : nat) :
  rows_of D X -> rows_of K P -> length P = length X -> (0 < length X)%nat ->
  (forall n, (n < length X)%nat -> sigma K (entry P n) = 1) ->
  (forall k, (k < K)%nat -> mass X P k <> 0) ->
  exists (W' : list R) (M' : list (list R)) (C' : list ndarray),
    m_step (lift_m X) (lift_m P) (Z.of_nat K) = Ok (lift_v W', lift_m M', C')
    /\ forall d, (d < D)%nat ->
         sigma K (fun k => nth k W' 0 * entry M' k d)
         = sigma (length X) (fun n => entry X n d) / INR (length X).
Proof.
  intros HX HP HL HN Hrow Hmass.
  eexists _, _, _. split; [apply (m_step_lift X P D K); assumption|].
  intros d Hd.
  assert (HNR : INR (length X) <> 0) by (apply not_0_INR; lia).
  rewrite (sigma_ext K _
             (fun k => sigma (length X) (fun n => entry P n k * entry X n d) / INR (length X))).
  2:{ intros k Hk. rewrite (tab_nth K k (new_weight X P)) by exact Hk.
      rewrite entry_tab2 by assumption. unfold new_weight, new_mean.
      pose proof (Hmass k Hk). field. split; assumption. }
  rewrite (sigma_div K (INR (length X))). f_equal.
  rewrite sigma_swap. apply sigma_ext. intros n Hn.
  rewrite sigma_scal_r, (Hrow n Hn). ring.
Qed.

Lemma m_step_keeps_sample_mean_witness :
  exists (W' : list R) (M' : list (list R)) (C' : list ndarray),
    m_step (lift_m triangle) (lift_m shared) 2 = Ok (lift_v W', lift_m M', C')
    /\ forall d, (d < 2)%nat ->
         sigma 2 (fun k => nth k W' 0 * entry M' k d)
         = sigma (length triangle) (fun n => entry triangle n d) / INR (length triangle).
Proof.
  apply (m_step_keeps_sample_mean triangle shared 2 2).
  - repeat constructor.
  - repeat constructor.
  - reflexivity.
  - simpl. lia.
  - intros n Hn. simpl in Hn. small_index n Hn; unfold entry, shared; simpl;
      unfold zero, R_zero; lra.
  - intros k Hk. small_index k Hk; unfold mass, entry, shared; simpl;
      unfold zero, R_zero; lra.
Defined.



(** ** Weights up to a factor *)



(** ** The density *)




(** ** Data of one column *)

Lemma np_cov_one_column (data : mat) :
  (0 < length data)%nat -> rows_of 1 data -> exists v, np_cov data = Arr0 v.
Proof.
  intros HN HR. unfold np_cov.
  destruct data as [|r rest]; [simpl in HN; lia|].
  assert (Hr : length r = 1%nat) by (inversion HR; assumption).
  destruct rest as [|r' rest].
  - destruct r as [|a [|b r]]; try discriminate Hr.
    unfold cov_rows. cbn. eexists. reflexivity.
  - unfold transpose. cbn [shape1]. rewrite Hr. cbn [seq map].
    unfold cov_rows. cbn [map]. eexists. reflexivity.
Qed.

(** X6.  On data of a single column, [np.cov] returns a 0-d array, which
    [np.linalg.det] rejects: with the density of the second cell,
    [gmm_step] raises [LinAlgError] in its first turn. *)
Theorem gmm_step_one_column_raises (G : generator) (data : mat) (K : nat) (max_iters : Z)
  (s : random_state G) :
  shuffles G -> rows_of 1 data -> (0 < K <= length data)%nat -> (0 < max_iters)%Z ->
  fst (gmm_step G (e_step_pointwise multivariate_gaussian) data (Z.of_nat K) max_iters s)
  = Raise LinAlgError.
Proof.
  intros HG HR [HK HN] Hturns.
  destruct (np_cov_one_column data ltac:(lia) HR) as [v Hv].
  unfold gmm_step, initialize_parameters.
  rewrite random_choice_accepts by exact HN.
  set (drawn := permutation G (length data) (seed G 42)).
  destruct (firstn_shuffle (fst drawn) (length data) K (HG _ _) HN) as [Hlen [_ Hlt]].
  cbn [bind fst]. rewrite (mapM_index data [] _ Hlt). cbn [bind fst].
  rewrite Nat2Z.id, uniform_weights by exact HK. rewrite Hv.
  destruct (Z.to_nat max_iters) as [|turns] eqn:Et; [lia|].
  cbn [em_loop]. unfold em_iteration, e_step_pointwise.
  assert ((Z.of_nat K <? 0)%Z = false) as -> by (apply Z.ltb_ge; lia).
  rewrite Nat2Z.id.
  destruct K as [|K]; [lia|]. destruct data as [|x data]; [simpl in HN; lia|].
  destruct (fst drawn) as [|i0 rest] eqn:Ed; [simpl in Hlen; discriminate Hlen|].
  cbn. reflexivity.
Qed.

Lemma gmm_step_one_column_raises_witness :
  fst (gmm_step rotating (e_step_pointwise multivariate_gaussian)
         [[Fin 1]; [Fin 2]; [Fin 4]] (Z.of_nat 2) 100 0%Z)
  = Raise LinAlgError.
Proof.
  apply (gmm_step_one_column_raises rotating [[Fin 1]; [Fin 2]; [Fin 4]] 2 100 0%Z).
  - exact rotating_shuffles.
  - repeat constructor.
  - simpl. lia.
  - lia.
Defined.

(** ** The log-likelihood along the loop *)

(** One turn from a proper mixture. *)
Lemma turn_summary (pdf : vec -> vec -> ndarray -> result float64)
  (es : mat -> vec -> mat -> list ndarray -> Z -> result mat)
  (X : list (list R)) (D K : nat) (start : model) :
  gaussian_pdf D pdf -> es = e_step pdf \/ es = e_step_pointwise pdf ->
  (0 < length X)%nat -> (0 < K)%nat -> rows_of D X ->
  (let '(W, M, C) := start in proper_mixture D K W M C) ->
  exists next : model,
    em_iteration es (lift_m X) (Z.of_nat K) (lift_model start) = Ok (lift_model next)
    /\ (positive_definite_model D next ->
        (let '(W, M, C) := next in proper_mixture D K W M C)
        /\ model_likelihood K X start <= model_likelihood K X next).
Proof.
  destruct start as [[W M] C]. intros Hpdf Hes HN HK HX Hproper.
  eexists (_, _, _). split.
  - apply (turn_model pdf X D K W M C Hpdf HN HK HX Hproper es Hes).
  - intros HC'. split.
    + apply (turn_proper X D K W M C HN HK Hproper). exact HC'.
    + apply (turn_likelihood X D K W M C HN HK Hproper). exact HC'.
Qed.

Lemma lift_model_injective (m m' : model) : lift_model m = lift_model m' -> m = m'.
Proof.
  destruct m as [[W M] C], m' as [[W' M'] C']. unfold lift_model, lift_params.
  intros E. injection E as EW EM EC.
  apply lift_v_injective in EW. apply lift_m_injective in EM. apply lift_c_injective in EC.
  subst. reflexivity.
Qed.

(** X7.  Along the loop of [gmm_step], started from a proper mixture: if
    the models reached after each turn have finite entries and positive
    definite covariances, their log-likelihoods, from the starting model
    on, never decrease. *)
Theorem em_history_ascends (pdf : vec -> vec -> ndarray -> result float64)
  (es : mat -> vec -> mat -> list ndarray -> Z -> result mat)
  (X : list (list R)) (D K : nat) (turns : nat) (start : model) (reached : list model) :
  gaussian_pdf D pdf -> es = e_step pdf \/ es = e_step_pointwise pdf ->
  (0 < length X)%nat -> (0 < D)%nat -> (0 < K)%nat -> rows_of D X ->
  (let '(W, M, C) := start in proper_mixture D K W M C) ->
  em_history es (lift_m X) (Z.of_nat K) turns (lift_model start)
  = Ok (map lift_model reached) ->
  Forall (positive_definite_model D) reached ->
  Sorted Rle (map (model_likelihood K X) (start :: reached)).
Proof.
  intros Hpdf Hes HN _ HK HX. revert start reached.
  induction turns as [|turns IH]; intros start reached Hproper Hhist Hpd.
  - simpl in Hhist. destruct reached; [|discriminate Hhist].
    simpl. constructor; constructor.
  - cbn [em_history] in Hhist.
    destruct (turn_summary pdf es X D K start Hpdf Hes HN HK HX Hproper)
      as [next [Hturn Hnext]].
    rewrite Hturn in Hhist. cbn [bind] in Hhist.
    destruct (em_history es (lift_m X) (Z.of_nat K) turns (lift_model next))
      as [rest|e] eqn:Hrest; [|discriminate Hhist].
    cbn [bind] in Hhist. destruct reached as [|m reached]; [discriminate Hhist|].
    cbn [map] in Hhist. injection Hhist. intros Hreached Hm.
    apply lift_model_injective in Hm. subst m.
    inversion Hpd as [|? ? Hpd1 Hpd2]; subst.
    destruct (Hnext Hpd1) as [Hproper' Hle].
    cbn [map]. constructor.
    + apply (IH next reached Hproper'); [|exact Hpd2]. exact Hrest.
    + constructor. exact Hle.
Qed.

Lemma em_history_ascends_witness :
  Sorted Rle (map (model_likelihood 1 triangle)
                  [([1], [origin], [unbiased_cov]);
                   ([1], [sample_mean], [sample_cov]);
                   ([1], [sample_mean], [sample_cov])]).
Proof.
  apply (em_history_ascends multivariate_gaussian (e_step_pointwise multivariate_gaussian)
           triangle 2 1 2 ([1], [origin], [unbiased_cov])
           [([1], [sample_mean], [sample_cov]); ([1], [sample_mean], [sample_cov])]).
  - apply multivariate_gaussian_proper.
  - right. reflexivity.
  - simpl. lia.
  - lia.
  - lia.
  - repeat constructor.
  - split; [reflexivity|]. split; [repeat constructor; lra|]. split; [simpl; lra|].
    split; [reflexivity|]. split; [repeat constructor|]. split; [reflexivity|].
    constructor; [|constructor]. apply proper_covariance_2; lra.
  - cbn [em_history].
    change (lift_model ([1], [origin], [unbiased_cov]))
      with ([Fin 1], [lift_v origin], [Arr2 (lift_m unbiased_cov)]).
    change (Z.of_nat 1) with 1%Z.
    rewrite (em_iteration_triangle origin unbiased_cov);
      [|reflexivity|reflexivity|repeat constructor|unfold unbiased_cov; rewrite Rdet_2; lra].
    cbn [bind]. unfold single_gaussian.
    rewrite (em_iteration_triangle sample_mean sample_cov);
      [|reflexivity|reflexivity|repeat constructor|unfold sample_cov; rewrite Rdet_2; lra].
    reflexivity.
  - repeat constructor; apply pos_def_2; lra.
Defined.

(** * Purity and Gini index *)

(** ** Distinct labels *)

Lemma insert_unique_In (x z : Z) (l : list Z) :
  In z (insert_unique x l) <-> z = x \/ In z l.
Proof.
  induction l as [|y l IH]; simpl.
  - intuition.
  - destruct (Z.ltb_spec x y); [simpl; intuition|].
    destruct (Z.eqb_spec x y); [subst; simpl; intuition|].
    simpl. rewrite IH. intuition.
Qed.

Lemma insert_unique_sorted (x : Z) (l : list Z) :
  StronglySorted Z.lt l -> StronglySorted Z.lt (insert_unique x l).
Proof.
  induction l as [|y l IH]; intros S; simpl.
  - constructor; constructor.
  - inversion S as [|? ? Sl Hy]; subst.
    destruct (Z.ltb_spec x y).
    + constructor; [exact S|]. constructor; [exact H|].
      rewrite Forall_forall in *. intros z Hz. specialize (Hy z Hz). lia.
    + destruct (Z.eqb_spec x y); [exact S|].
      constructor; [apply IH; exact Sl|].
      rewrite Forall_forall in *. intros z Hz. apply insert_unique_In in Hz.
      destruct Hz as [->|Hz]; [lia|apply Hy; exact Hz].
Qed.

Lemma np_unique_sorted (l : list Z) : StronglySorted Z.lt (np_unique l).
Proof.
  induction l as [|x l IH]; [constructor|]. simpl. apply insert_unique_sorted. exact IH.
Qed.

Lemma np_unique_In (z : Z) (l : list Z) : In z (np_unique l) <-> In z l.
Proof.
  induction l as [|x l IH]; simpl; [reflexivity|].
  rewrite insert_unique_In, IH. intuition.
Qed.

Lemma sorted_NoDup (l : list Z) : StronglySorted Z.lt l -> NoDup l.
Proof.
  induction 1 as [|x l S IH Hx]; constructor; [|exact IH].
  intros Hin. rewrite Forall_forall in Hx. specialize (Hx x Hin). lia.
Qed.

Lemma np_unique_NoDup (l : list Z) : NoDup (np_unique l).
Proof. apply sorted_NoDup. apply np_unique_sorted. Qed.

Lemma np_unique_not_nil (l : list Z) : l <> [] -> np_unique l <> [].
Proof.
  destruct l as [|x l]; [congruence|]. intros _ E.
  assert (In x (np_unique (x :: l))) as Hin by (apply np_unique_In; left; reflexivity).
  rewrite E in Hin. exact Hin.
Qed.

(** ** Counting *)

Lemma zsum_app (u v : list Z) : zsum (u ++ v) = (zsum u + zsum v)%Z.
Proof. induction u as [|x u IH]; simpl; [reflexivity|]. rewrite IH. lia. Qed.

Lemma zsum_map_add {A : Type} (f g : A -> Z) (l : list A) :
  zsum (map (fun a => (f a + g a)%Z) l) = (zsum (map f l) + zsum (map g l))%Z.
Proof. induction l as [|a l IH]; simpl; [reflexivity|]. rewrite IH. lia. Qed.

Lemma zsum_map_ext {A : Type} (f g : A -> Z) (l : list A) :
  (forall a, In a l -> f a = g a) -> zsum (map f l) = zsum (map g l).
Proof.
  induction l as [|a l IH]; intros E; simpl; [reflexivity|].
  rewrite (E a) by (left; reflexivity). rewrite IH; [reflexivity|].
  intros b Hb. apply E. right. exact Hb.
Qed.

Lemma zsum_nonneg (l : list Z) : Forall (fun x => (0 <= x)%Z) l -> (0 <= zsum l)%Z.
Proof. induction 1; simpl; lia. Qed.

Lemma zsum_zero {A : Type} (l : list A) : zsum (map (fun _ => 0%Z) l) = 0%Z.
Proof. induction l; simpl; lia. Qed.

(** One sample is counted once among distinct labels that include its own. *)
Lemma zsum_indicator (U : list Z) (a : Z) :
  NoDup U -> In a U -> zsum (map (fun c => if Z.eq_dec c a then 1 else 0)%Z U) = 1%Z.
Proof.
  induction 1 as [|x U Hx Hnd IH]; intros Hin; [contradiction|].
  simpl. destruct (Z.eq_dec x a) as [E|E].
  - subst. rewrite (zsum_map_ext _ (fun _ => 0%Z)).
    + rewrite zsum_zero. lia.
    + intros c Hc. destruct (Z.eq_dec c a); [subst; contradiction|reflexivity].
  - destruct Hin as [Hin|Hin]; [contradiction|]. rewrite IH by exact Hin. lia.
Qed.

(** The counts of one cluster over the classes add up to its size. *)
Lemma column_sum (U : list Z) (samples : list (Z * Z)) (k : Z) :
  NoDup U -> (forall s, In s samples -> In (fst s) U) ->
  zsum (map (fun c => count_pair samples c k) U)
  = Z.of_nat (count_occ Z.eq_dec (map snd samples) k).
Proof.
  intros Hnd. induction samples as [|[a b] samples IH]; intros Hin.
  - simpl. unfold count_pair. simpl. apply zsum_zero.
  - assert (Hrest : forall s, In s samples -> In (fst s) U)
      by (intros s Hs; apply Hin; right; exact Hs).
    specialize (IH Hrest).
    assert (Ha : In a U) by (apply (Hin (a, b)); left; reflexivity).
    rewrite (zsum_map_ext _
               (fun c => ((if Z.eq_dec b k then (if Z.eq_dec c a then 1 else 0) else 0)
                          + count_pair samples c k)%Z)).
    + rewrite zsum_map_add, IH. cbn [map snd count_occ].
      destruct (Z.eq_dec b k) as [E|E].
      * rewrite zsum_indicator by assumption. lia.
      * rewrite zsum_zero. lia.
    + intros c _. unfold count_pair. cbn [count_occ].
      destruct (pair_eq_dec (a, b) (c, k)) as [E|E].
      * injection E as -> ->. destruct (Z.eq_dec k k); [|congruence].
        destruct (Z.eq_dec c c); [|congruence]. lia.
      * destruct (Z.eq_dec b k); [|lia]. destruct (Z.eq_dec c a); [|lia].
        subst. congruence.
Qed.

(** The sizes of the clusters add up to the number of samples. *)
Lemma sizes_sum (U l : list Z) :
  NoDup U -> (forall x, In x l -> In x U) ->
  zsum (map (fun k => Z.of_nat (count_occ Z.eq_dec l k)) U) = Z.of_nat (length l).
Proof.
  intros Hnd. induction l as [|b l IH]; intros Hin.
  - simpl. apply zsum_zero.
  - assert (Hrest : forall x, In x l -> In x U) by (intros x Hx; apply Hin; right; exact Hx).
    specialize (IH Hrest).
    rewrite (zsum_map_ext _
               (fun k => ((if Z.eq_dec k b then 1 else 0)
                          + Z.of_nat (count_occ Z.eq_dec l k))%Z)).
    + rewrite zsum_map_add, IH, zsum_indicator; [simpl length; lia|exact Hnd|].
      apply Hin. left. reflexivity.
    + intros k _. cbn [count_occ]. destruct (Z.eq_dec b k), (Z.eq_dec k b); subst;
        try congruence; lia.
Qed.

Lemma zmax_fold (l : list Z) (x : Z) :
  (x <= fold_left Z.max l x)%Z
  /\ Forall (fun y => (y <= fold_left Z.max l x)%Z) l
  /\ (fold_left Z.max l x = x \/ In (fold_left Z.max l x) l).
Proof.
  revert x. induction l as [|y l IH]; intros x; simpl.
  - split; [lia|]. split; [constructor|left; reflexivity].
  - destruct (IH (Z.max x y)) as [H1 [H2 H3]]. split; [lia|]. split.
    + constructor; [lia|exact H2].
    + destruct H3 as [H3|H3]; [|right; right; exact H3].
      rewrite H3. destruct (Z.max_spec x y) as [[_ E]|[_ E]]; rewrite E; intuition.
Qed.

Lemma zmax_upper (l : list Z) (y : Z) : In y l -> (y <= zmax l)%Z.
Proof.
  destruct l as [|x l]; [contradiction|]. intros Hy. unfold zmax.
  destruct (zmax_fold l x) as [H1 [H2 _]].
  destruct Hy as [<-|Hy]; [exact H1|]. rewrite Forall_forall in H2. apply H2. exact Hy.
Qed.

Lemma zmax_In (l : list Z) : l <> [] -> In (zmax l) l.
Proof.
  destruct l as [|x l]; [congruence|]. intros _. unfold zmax.
  destruct (zmax_fold l x) as [_ [_ [H|H]]]; [left; symmetry; exact H|right; exact H].
Qed.

(** ** A table of counts *)

Lemma zsum_tab (n : nat) (f : nat -> Z) : IZR (zsum (tab n f)) = sigma n (fun i => IZR (f i)).
Proof.
  revert f. induction n as [|n IH]; intros f; [reflexivity|].
  rewrite tab_S. cbn [zsum fold_right]. fold (zsum (tab n (fun i => f (S i)))).
  rewrite plus_IZR, IH. reflexivity.
Qed.

Lemma map_tab {A B : Type} (f : A -> B) (l : list A) (d : A) :
  map f l = tab (length l) (fun i => f (nth i l d)).
Proof. rewrite (tab_of_list l d) at 1. apply tab_map. Qed.

Lemma fold_left_seq (g : float64 -> nat -> float64) (f : nat -> R) (n : nat) :
  (forall j a, (j < n)%nat -> g (Fin a) j = Fin (a + f j)) ->
  fold_left g (seq 0 n) (Fin 0) = Fin (sigma n f).
Proof.
  induction n as [|n IH]; intros E; [reflexivity|].
  rewrite seq_S, fold_left_app, IH by (intros; apply E; lia).
  cbn [fold_left Nat.add]. rewrite E by lia. rewrite sigma_last. reflexivity.
Qed.

Lemma sigma_lt (n : nat) (f g : nat -> R) :
  (0 < n)%nat -> (forall i, (i < n)%nat -> f i < g i) -> sigma n f < sigma n g.
Proof.
  intros Hn H.
  assert (0 < sigma n (fun i => g i - f i))
    by (apply sigma_pos; [exact Hn|]; intros i Hi; specialize (H i Hi); lra).
  rewrite sigma_minus in *. lra.
Qed.

Lemma amax_axis0_rows (m : list (list Z)) :
  m <> [] -> amax_axis0 m = Ok (map (fun j => zmax (col m j)) (seq 0 (shape1 m))).
Proof. destruct m; [congruence|reflexivity]. Qed.

Section Table.

Variables L K : nat.
Variable c : nat -> nat -> Z.

Hypothesis some_class : (0 < L)%nat.
Hypothesis counts : forall i j, (i < L)%nat -> (j < K)%nat -> (0 <= c i j)%Z.

Let table : list (list Z) := tab L (fun i => tab K (c i)).
Let size (j : nat) : R := sigma L (fun i => IZR (c i j)).
Let most (j : nat) : R := IZR (zmax (tab L (fun i => c i j))).
Let total : R := sigma K size.

Hypothesis sizes : forall j, (j < K)%nat -> 0 < size j.
Hypothesis some_cluster : (0 < K)%nat.

Lemma table_total : IZR (zsum (map zsum table)) = total.
Proof.
  unfold table. rewrite tab_map, zsum_tab. unfold total, size. rewrite sigma_swap.
  apply sigma_ext. intros i _. apply zsum_tab.
Qed.

Lemma table_total_pos : 0 < total.
Proof. apply sigma_pos; assumption. Qed.

Lemma table_column (j : nat) : (j < K)%nat -> col table j = tab L (fun i => c i j).
Proof. intros Hj. unfold table. apply col_tab2. exact Hj. Qed.

Lemma table_size (j : nat) : (j < K)%nat -> IZR (zsum (col table j)) = size j.
Proof. intros Hj. rewrite table_column by exact Hj. apply zsum_tab. Qed.

Lemma table_most (j : nat) :
  (j < K)%nat ->
  (exists i, (i < L)%nat /\ most j = IZR (c i j))
  /\ forall i, (i < L)%nat -> IZR (c i j) <= most j.
Proof.
  intros Hj. unfold most. split.
  - assert (Hin : In (zmax (tab L (fun i => c i j))) (tab L (fun i => c i j))).
    { apply zmax_In. intros E. apply (f_equal (@length Z)) in E.
      rewrite tab_length in E. simpl in E. lia. }
    unfold tab in Hin at 2. apply in_map_iff in Hin. destruct Hin as [i [E Hi]].
    apply in_seq in Hi. exists i. split; [lia|]. rewrite <- E. reflexivity.
  - intros i Hi. apply IZR_le. apply zmax_upper. unfold tab. apply in_map_iff.
    exists i. split; [reflexivity|]. apply in_seq. lia.
Qed.

Lemma table_most_bounds (j : nat) : (j < K)%nat -> 0 < most j <= size j.
Proof.
  intros Hj. destruct (table_most j Hj) as [[i [Hi E]] Hup]. split.
  - destruct (Rlt_le_dec 0 (most j)) as [Hpos|Hneg]; [exact Hpos|]. exfalso.
    pose proof (sizes j Hj) as Hs. unfold size in Hs.
    assert (sigma L (fun i => IZR (c i j)) <= sigma L (fun _ => 0)).
    { apply sigma_le. intros i' Hi'. specialize (Hup i' Hi'). lra. }
    rewrite sigma_zero in *. lra.
  - rewrite E. unfold size. apply (sigma_term_le L (fun i => IZR (c i j)) i); [|exact Hi].
    intros i' Hi'. apply IZR_le. apply counts; assumption.
Qed.

(** The squares of the counts of a cluster, between the square of the
    largest and the largest times the size. *)
Lemma table_squares (j : nat) :
  (j < K)%nat ->
  most j * most j <= sigma L (fun i => IZR (c i j) * IZR (c i j)) <= most j * size j.
Proof.
  intros Hj. destruct (table_most j Hj) as [[i [Hi E]] Hup]. split.
  - rewrite E. apply (sigma_term_le L (fun i => IZR (c i j) * IZR (c i j)) i); [|exact Hi].
    intros i' _. apply Rle_0_sqr.
  - unfold size. rewrite <- sigma_scal. apply sigma_le. intros i' Hi'.
    apply Rmult_le_compat_r; [apply IZR_le; apply counts; assumption|apply Hup; exact Hi'].
Qed.

Lemma purity_table :
  (let* maxima := amax_axis0 table in
   Ok (fdiv (Fin (IZR (zsum maxima))) (Fin (IZR (zsum (map zsum table))))))
  = Ok (Fin (sigma K most / total)).
Proof.
  pose proof table_total_pos as Ht.
  rewrite amax_axis0_rows.
  2:{ intros E. apply (f_equal (@length (list Z))) in E. unfold table in E.
      rewrite tab_length in E. simpl in E. lia. }
  cbn [bind]. f_equal. rewrite table_total.
  rewrite fdiv_fin by lra. f_equal. f_equal.
  assert (Hs : shape1 table = K) by (unfold table; apply shape1_tab2; exact some_class).
  rewrite Hs.
  change (map (fun j => zmax (col table j)) (seq 0 K))
    with (tab K (fun j => zmax (col table j))).
  rewrite zsum_tab. apply sigma_ext. intros j Hj.
  rewrite table_column by exact Hj. reflexivity.
Qed.

Let impurity (j : nat) : R :=
  size j / total * (1 - sigma L (fun i => IZR (c i j) / size j * (IZR (c i j) / size j))).

Lemma gini_table :
  fold_left (gini_turn table (zsum (map zsum table))) (seq 0 (shape1 table)) (Fin 0)
  = Fin (sigma K impurity).
Proof.
  pose proof table_total_pos as Ht.
  assert (Hsh : shape1 table = K) by (unfold table; apply shape1_tab2; exact some_class).
  rewrite Hsh.
  apply fold_left_seq. intros j a Hj. unfold gini_turn.
  pose proof (sizes j Hj) as Hs. pose proof (table_size j Hj) as Hsize.
  destruct (Z.eqb_spec (zsum (col table j)) 0) as [E|_].
  { rewrite E in Hsize. simpl in Hsize. lra. }
  rewrite Hsize, table_total, table_column by exact Hj.
  rewrite !tab_map.
  rewrite (tab_ext L _ (fun i => Fin (IZR (c i j) / size j * (IZR (c i j) / size j)))).
  2:{ intros i _. rewrite fdiv_fin by lra. reflexivity. }
  rewrite fsum_tab. rewrite fdiv_fin by lra. unfold impurity.
  cbn [fsub fopp fadd fmul]. apply f_equal. ring.
Qed.

(** Each cluster's share of the Gini index, against its share of the
    samples outside its largest class. *)
Lemma impurity_bounds (j : nat) :
  (j < K)%nat ->
  (size j - most j) / total <= impurity j <= 2 * ((size j - most j) / total)
  /\ impurity j < size j / total.
Proof.
  intros Hj. pose proof table_total_pos as Ht. pose proof (sizes j Hj) as Hs.
  pose proof (table_most_bounds j Hj) as [Hm1 Hm2].
  pose proof (table_squares j Hj) as [Hq1 Hq2].
  set (q := sigma L (fun i => IZR (c i j) * IZR (c i j))) in *.
  assert (E : impurity j = (size j * size j - q) / (size j * total)).
  { unfold impurity.
    rewrite (sigma_ext L _ (fun i => / (size j * size j) * (IZR (c i j) * IZR (c i j))))
      by (intros; field; lra).
    rewrite sigma_scal. fold q. field. lra. }
  rewrite E.
  assert (Hd : 0 < size j * total) by (apply Rmult_lt_0_compat; assumption).
  assert (Hi : 0 < / (size j * total)) by (apply Rinv_0_lt_compat; exact Hd).
  assert (E1 : (size j - most j) / total = (size j * size j - most j * size j) / (size j * total))
    by (field; lra).
  assert (E2 : size j / total = (size j * size j) / (size j * total)) by (field; lra).
  rewrite E1, E2. unfold Rdiv. split; [split|].
  - apply Rmult_le_compat_r; lra.
  - rewrite <- Rmult_assoc. apply Rmult_le_compat_r; [lra|]. nra.
  - apply Rmult_lt_compat_r; [exact Hi|]. nra.
Qed.

End Table.

(** ** The table of two label arrays *)

Lemma combine_snd {A B : Type} (u : list A) (v : list B) :
  length u = length v -> map snd (combine u v) = v.
Proof.
  revert v. induction u as [|a u IH]; intros [|b v] E; try discriminate E; [reflexivity|].
  simpl. f_equal. apply IH. simpl in E. lia.
Qed.

Section Labels.

Variables t p : list Z.
Hypothesis same_length : length t = length p.
Hypothesis some_sample : t <> [].

Let samples : list (Z * Z) := combine t p.
Let classes : list Z := np_unique t.
Let clusters : list Z := np_unique p.
Let c (i j : nat) : Z := count_pair samples (nth i classes 0%Z) (nth j clusters 0%Z).

Lemma labels_table :
  contingency_matrix t p = Ok (tab (length classes) (fun i => tab (length clusters) (c i))).
Proof.
  unfold contingency_matrix. rewrite same_length, Nat.eqb_refl.
  f_equal. fold samples classes clusters.
  rewrite (map_tab _ classes 0%Z). apply tab_ext. intros i _.
  rewrite (map_tab _ clusters 0%Z). reflexivity.
Qed.

Lemma labels_some_class : (0 < length classes)%nat.
Proof.
  pose proof (np_unique_not_nil t some_sample) as H. fold classes in H.
  destruct classes; [congruence|simpl; lia].
Qed.

Lemma labels_some_cluster : (0 < length clusters)%nat.
Proof.
  assert (p <> []) as Hp.
  { intros E. rewrite E in same_length. destruct t; [congruence|discriminate same_length]. }
  pose proof (np_unique_not_nil p Hp) as H. fold clusters in H.
  destruct clusters; [congruence|simpl; lia].
Qed.

Lemma labels_counts (i j : nat) : (0 <= c i j)%Z.
Proof. unfold c, count_pair. lia. Qed.

Lemma labels_size (j : nat) :
  sigma (length classes) (fun i => IZR (c i j))
  = INR (count_occ Z.eq_dec p (nth j clusters 0%Z)).
Proof.
  rewrite <- zsum_tab. unfold c.
  rewrite <- (map_tab (fun cl => count_pair samples cl (nth j clusters 0%Z)) classes 0%Z).
  rewrite column_sum.
  - unfold samples. rewrite combine_snd by exact same_length. symmetry. apply INR_IZR_INZ.
  - apply np_unique_NoDup.
  - intros [a b] Hs. apply np_unique_In. apply (in_combine_l _ _ _ _ Hs).
Qed.

Lemma labels_size_pos (j : nat) :
  (j < length clusters)%nat -> 0 < sigma (length classes) (fun i => IZR (c i j)).
Proof.
  intros Hj. rewrite labels_size. apply lt_0_INR.
  apply (count_occ_In Z.eq_dec). apply np_unique_In. apply nth_In. exact Hj.
Qed.

Lemma labels_total :
  sigma (length clusters) (fun j => sigma (length classes) (fun i => IZR (c i j)))
  = INR (length t).
Proof.
  rewrite (sigma_ext _ _ (fun j => IZR (Z.of_nat (count_occ Z.eq_dec p (nth j clusters 0%Z))))).
  2:{ intros j _. rewrite labels_size. apply INR_IZR_INZ. }
  rewrite <- zsum_tab.
  rewrite <- (map_tab (fun k => Z.of_nat (count_occ Z.eq_dec p k)) clusters 0%Z).
  rewrite sizes_sum.
  - rewrite same_length. symmetry. apply INR_IZR_INZ.
  - apply np_unique_NoDup.
  - intros x Hx. apply np_unique_In. exact Hx.
Qed.

Lemma labels_purity :
  purity_score t p
  = Ok (Fin (sigma (length clusters)
                   (fun j => IZR (zmax (tab (length classes) (fun i => c i j))))
             / INR (length t))).
Proof.
  unfold purity_score. rewrite labels_table. cbn [bind].
  rewrite (purity_table (length classes) (length clusters) c labels_some_class
             labels_size_pos labels_some_cluster).
  rewrite labels_total. reflexivity.
Qed.

Lemma labels_gini :
  gini_index t p
  = Ok (Fin (sigma (length clusters) (fun j =>
               let size := sigma (length classes) (fun i => IZR (c i j)) in
               size / INR (length t)
               * (1 - sigma (length classes)
                        (fun i => IZR (c i j) / size * (IZR (c i j) / size)))))).
Proof.
  unfold gini_index. rewrite labels_table. cbn [bind].
  rewrite (gini_table (length classes) (length clusters) c labels_some_class
             labels_size_pos labels_some_cluster).
  rewrite labels_total. reflexivity.
Qed.

End Labels.

(** X8.  For label arrays of one non-zero length, [purity_score] returns
    a number above 0 and at most 1. *)
Theorem purity_score_bounds (true_labels centroid_labels : list Z) :
  length true_labels = length centroid_labels -> true_labels <> [] ->
  exists u : R, purity_score true_labels centroid_labels = Ok (Fin u) /\ 0 < u <= 1.
Proof.
  intros Hlen Hne. eexists. split; [apply labels_purity; assumption|].
  set (L := length (np_unique true_labels)). set (K := length (np_unique centroid_labels)).
  set (c := fun i j => count_pair (combine true_labels centroid_labels)
                         (nth i (np_unique true_labels) 0%Z)
                         (nth j (np_unique centroid_labels) 0%Z)).
  assert (HN : 0 < INR (length true_labels)).
  { apply lt_0_INR. destruct true_labels; [congruence|simpl; lia]. }
  pose proof (labels_some_class true_labels centroid_labels Hlen Hne) as HL.
  pose proof (labels_some_cluster true_labels centroid_labels Hlen Hne) as HK.
  pose proof (labels_size_pos true_labels centroid_labels Hlen) as Hs.
  pose proof (labels_total true_labels centroid_labels Hlen) as Ht.
  fold L K c in HL, HK, Hs, Ht |- *.
  assert (Hb : forall j, (j < K)%nat ->
            0 < IZR (zmax (tab L (fun i => c i j)))
            <= sigma L (fun i => IZR (c i j))).
  { intros j Hj.
    apply (table_most_bounds L K c HL
             (fun i j _ _ => labels_counts true_labels centroid_labels Hlen i j) Hs HK j Hj). }
  split.
  - unfold Rdiv. apply Rmult_lt_0_compat; [|apply Rinv_0_lt_compat; exact HN].
    apply sigma_pos; [exact HK|]. intros j Hj. apply Hb. exact Hj.
  - apply (Rmult_le_reg_r (INR (length true_labels))); [exact HN|].
    unfold Rdiv. rewrite Rmult_assoc, Rinv_l, Rmult_1_r, Rmult_1_l by lra.
    rewrite <- Ht. apply sigma_le. intros j Hj. apply Hb. exact Hj.
Qed.

Lemma purity_score_bounds_witness :
  exists u : R, purity_score [0; 0; 1; 1]%Z [5; 5; 5; 7]%Z = Ok (Fin u) /\ 0 < u <= 1.
Proof. apply purity_score_bounds; [reflexivity|discriminate]. Defined.

(** X9.  For label arrays of one non-zero length, the Gini index lies
    between the share of samples outside the largest class of their
    cluster, [1 - purity], and twice that share, and below 1.  So the
    Gini index is 0 exactly when the purity is 1. *)
Theorem gini_index_against_purity (true_labels centroid_labels : list Z) :
  length true_labels = length centroid_labels -> true_labels <> [] ->
  exists u g : R,
    purity_score true_labels centroid_labels = Ok (Fin u)
    /\ gini_index true_labels centroid_labels = Ok (Fin g)
    /\ 1 - u <= g <= 2 * (1 - u) /\ g < 1.
Proof.
  intros Hlen Hne. eexists _, _.
  split; [apply labels_purity; assumption|].
  split; [apply labels_gini; assumption|].
  set (L := length (np_unique true_labels)). set (K := length (np_unique centroid_labels)).
  pose (c := fun i j => count_pair (combine true_labels centroid_labels)
                          (nth i (np_unique true_labels) 0%Z)
                          (nth j (np_unique centroid_labels) 0%Z)).
  pose (size := fun j => sigma L (fun i => IZR (c i j))).
  pose (most := fun j => IZR (zmax (tab L (fun i => c i j)))).
  pose (part := fun j => size j / INR (length true_labels)
                         * (1 - sigma L (fun i => IZR (c i j) / size j * (IZR (c i j) / size j)))).
  change (1 - sigma K most / INR (length true_labels) <= sigma K part
          <= 2 * (1 - sigma K most / INR (length true_labels))
          /\ sigma K part < 1).
  assert (HN : 0 < INR (length true_labels)).
  { apply lt_0_INR. destruct true_labels; [congruence|simpl; lia]. }
  pose proof (labels_some_class true_labels centroid_labels Hlen Hne) as HL.
  pose proof (labels_some_cluster true_labels centroid_labels Hlen Hne) as HK.
  pose proof (labels_size_pos true_labels centroid_labels Hlen) as Hs.
  pose proof (labels_total true_labels centroid_labels Hlen) as Ht.
  change (sigma K size = INR (length true_labels)) in Ht.
  assert (Hb : forall j, (j < K)%nat ->
            ((size j - most j) / sigma K size <= part j <= 2 * ((size j - most j) / sigma K size))
            /\ part j < size j / sigma K size).
  { intros j Hj. unfold part. rewrite <- Ht.
    apply (impurity_bounds L K c HL
             (fun i j _ _ => labels_counts true_labels centroid_labels Hlen i j) Hs HK j Hj). }
  rewrite <- Ht. set (total := sigma K size) in *.
  assert (Htot : 0 < total) by (rewrite Ht; exact HN).
  assert (E : 1 - sigma K most / total = sigma K (fun j => (size j - most j) / total)).
  { rewrite (sigma_div K total (fun j => size j - most j)), sigma_minus.
    fold total. field. lra. }
  rewrite E. split; [split|].
  - apply sigma_le. intros j Hj. apply (Hb j Hj).
  - rewrite <- sigma_scal. apply sigma_le. intros j Hj. apply (Hb j Hj).
  - apply Rlt_le_trans with (sigma K (fun j => size j / total)).
    + apply sigma_lt; [exact HK|]. intros j Hj. apply (Hb j Hj).
    + rewrite (sigma_div K total size). fold total. right. field. lra.
Qed.

Lemma gini_index_against_purity_witness :
  exists u g : R,
    purity_score [0; 0; 1; 1]%Z [5; 5; 5; 7]%Z = Ok (Fin u)
    /\ gini_index [0; 0; 1; 1]%Z [5; 5; 5; 7]%Z = Ok (Fin g)
    /\ 1 - u <= g <= 2 * (1 - u) /\ g < 1.
Proof. apply gini_index_against_purity; [reflexivity|discriminate]. Defined.

(** ** Pure clusters *)

Lemma sigma_two_terms (n : nat) (f : nat -> R) (i j : nat) :
  (forall k, (k < n)%nat -> 0 <= f k) -> (i < n)%nat -> (j < n)%nat -> i <> j ->
  f i + f j <= sigma n f.
Proof.
  intros Hf Hi Hj Hij.
  rewrite (sigma_ext n f (fun k => (if (k =? i)%nat then f k else 0)
                                   + (if (k =? i)%nat then 0 else f k)))
    by (intros k _; destruct (k =? i)%nat; ring).
  rewrite sigma_plus.
  pose proof (sigma_term_le n (fun k => if (k =? i)%nat then f k else 0) i) as H1.
  pose proof (sigma_term_le n (fun k => if (k =? i)%nat then 0 else f k) j) as H2.
  cbv beta in H1, H2. rewrite Nat.eqb_refl in H1.
  destruct (Nat.eqb_spec j i) as [E|_]; [congruence|].
  assert (forall k, (k < n)%nat -> 0 <= (if (k =? i)%nat then f k else 0))
    by (intros k Hk; destruct (k =? i)%nat; [apply Hf; exact Hk|lra]).
  assert (forall k, (k < n)%nat -> 0 <= (if (k =? i)%nat then 0 else f k))
    by (intros k Hk; destruct (k =? i)%nat; [lra|apply Hf; exact Hk]).
  specialize (H1 ltac:(assumption) Hi). specialize (H2 ltac:(assumption) Hj). lra.
Qed.

Lemma sigma_single (n : nat) (f : nat -> R) (i : nat) :
  (i < n)%nat -> (forall k, (k < n)%nat -> k <> i -> f k = 0) -> sigma n f = f i.
Proof.
  revert f i. induction n as [|n IH]; intros f i Hi Hz; [lia|].
  rewrite sigma_S. destruct i as [|i].
  - rewrite (sigma_ext n _ (fun _ => 0)) by (intros k Hk; apply Hz; lia).
    rewrite sigma_zero. ring.
  - rewrite (Hz 0%nat) by lia.
    rewrite (IH (fun k => f (S k)) i) by (try lia; intros k Hk Hne; apply Hz; lia).
    ring.
Qed.

Lemma sigma_le_eq (n : nat) (f g : nat -> R) :
  (forall i, (i < n)%nat -> f i <= g i) -> sigma n f = sigma n g ->
  forall i, (i < n)%nat -> f i = g i.
Proof.
  intros Hle Heq i Hi.
  pose proof (sigma_term_le n (fun k => g k - f k) i) as H. cbv beta in H.
  assert (forall k, (k < n)%nat -> 0 <= g k - f k)
    by (intros k Hk; specialize (Hle k Hk); lra).
  specialize (H ltac:(assumption) Hi). rewrite sigma_minus in H.
  specialize (Hle i Hi). lra.
Qed.

Lemma combine_In_snd {A B : Type} (u : list A) (v : list B) (b : B) :
  length u = length v -> In b v -> exists a, In (a, b) (combine u v).
Proof.
  revert v. induction u as [|a u IH]; intros [|b' v] E Hb; try discriminate E;
    [contradiction|].
  destruct Hb as [->|Hb].
  - exists a. left. reflexivity.
  - destruct (IH v ltac:(simpl in E; lia) Hb) as [a' Ha']. exists a'. right. exact Ha'.
Qed.

Lemma NoDup_nth_eq (l : list Z) (i j : nat) :
  NoDup l -> (i < length l)%nat -> (j < length l)%nat -> nth i l 0%Z = nth j l 0%Z -> i = j.
Proof. intros Hnd Hi Hj E. apply (proj1 (NoDup_nth l 0%Z) Hnd i j Hi Hj E). Qed.

(** X10.  The purity is 1 exactly when no cluster holds samples of two
    different true labels. *)
Theorem purity_score_one (true_labels centroid_labels : list Z) :
  length true_labels = length centroid_labels -> true_labels <> [] ->
  (purity_score true_labels centroid_labels = Ok (Fin 1)
   <-> forall a a' k, In (a, k) (combine true_labels centroid_labels) ->
                      In (a', k) (combine true_labels centroid_labels) -> a = a').
Proof.
  intros Hlen Hne.
  rewrite (labels_purity true_labels centroid_labels Hlen Hne).
  set (samples := combine true_labels centroid_labels).
  set (classes := np_unique true_labels). set (clusters := np_unique centroid_labels).
  set (L := length classes). set (K := length clusters).
  pose (c := fun i j => count_pair samples (nth i classes 0%Z) (nth j clusters 0%Z)).
  pose (size := fun j => sigma L (fun i => IZR (c i j))).
  pose (most := fun j => IZR (zmax (tab L (fun i => c i j)))).
  change (Ok (Fin (sigma K most / INR (length true_labels))) = Ok (Fin 1)
          <-> forall a a' k, In (a, k) samples -> In (a', k) samples -> a = a').
  assert (HN : 0 < INR (length true_labels)).
  { apply lt_0_INR. destruct true_labels; [congruence|simpl; lia]. }
  pose proof (labels_some_class true_labels centroid_labels Hlen Hne) as HL.
  pose proof (labels_some_cluster true_labels centroid_labels Hlen Hne) as HK.
  pose proof (labels_size_pos true_labels centroid_labels Hlen) as Hs.
  pose proof (labels_total true_labels centroid_labels Hlen) as Ht.
  change (sigma K size = INR (length true_labels)) in Ht.
  pose proof (fun i j (_ : (i < L)%nat) (_ : (j < K)%nat) =>
                labels_counts true_labels centroid_labels Hlen i j) as Hc.
  assert (Hmost : forall j, (j < K)%nat -> most j <= size j)
    by (intros j Hj; apply (table_most_bounds L K c HL Hc Hs HK j Hj)).
  assert (Hin : forall i j, (0 < c i j)%Z <-> In (nth i classes 0%Z, nth j clusters 0%Z) samples).
  { intros i j. unfold c, count_pair. rewrite (count_occ_In pair_eq_dec). lia. }
  assert (Hclass : forall a k, In (a, k) samples ->
            exists i j, (i < L)%nat /\ (j < K)%nat
                        /\ nth i classes 0%Z = a /\ nth j clusters 0%Z = k).
  { intros a k Hs'.
    assert (Ha : In a classes) by (apply np_unique_In; apply (in_combine_l _ _ _ _ Hs')).
    assert (Hk : In k clusters) by (apply np_unique_In; apply (in_combine_r _ _ _ _ Hs')).
    destruct (In_nth _ _ 0%Z Ha) as [i [Hi Ei]]. destruct (In_nth _ _ 0%Z Hk) as [j [Hj Ej]].
    exists i, j. repeat split; assumption. }
  split.
  - intros E a a' k Ha Ha'. injection E as E.
    assert (Hsum : sigma K most = sigma K size).
    { rewrite Ht. apply (Rmult_eq_reg_r (/ INR (length true_labels)));
        [|apply Rinv_neq_0_compat; lra].
      unfold Rdiv in E. rewrite E. field. lra. }
    destruct (Hclass a k Ha) as [i [j [Hi [Hj [Ei Ej]]]]].
    destruct (Hclass a' k Ha') as [i' [j' [Hi' [Hj' [Ei' Ej']]]]].
    assert (j' = j) as ->.
    { apply (NoDup_nth_eq clusters); try assumption; [apply np_unique_NoDup|congruence]. }
    destruct (Nat.eq_dec i i') as [Eii|Nii]; [congruence|]. exfalso.
    pose proof (sigma_le_eq K most size Hmost Hsum j Hj) as Hj_eq.
    destruct (table_most L K c HL HK j Hj) as [[i0 [Hi0 E0]] _].
    fold (most j) in E0.
    assert (H1 : 1 <= IZR (c i j)).
    { apply IZR_le. apply (Zlt_le_succ 0). apply Hin. rewrite Ei, Ej. exact Ha. }
    assert (H2 : 1 <= IZR (c i' j)).
    { apply IZR_le. apply (Zlt_le_succ 0). apply Hin. rewrite Ei', Ej. exact Ha'. }
    assert (Hnn : forall k0, (k0 < L)%nat -> 0 <= IZR (c k0 j))
      by (intros k0 Hk0; apply IZR_le; apply Hc; assumption).
    destruct (Nat.eq_dec i0 i) as [Ei0|Ni0].
    + subst i0.
      pose proof (sigma_two_terms L (fun i => IZR (c i j)) i i' Hnn Hi Hi' Nii) as H.
      cbv beta in H. fold (size j) in H. lra.
    + pose proof (sigma_two_terms L (fun i => IZR (c i j)) i0 i Hnn Hi0 Hi Ni0) as H.
      cbv beta in H. fold (size j) in H. lra.
  - intros Hpure. do 2 f_equal.
    assert (Hsum : sigma K most = sigma K size).
    { apply sigma_ext. intros j Hj. apply Rle_antisym; [apply Hmost; exact Hj|].
      assert (Hk : In (nth j clusters 0%Z) centroid_labels)
        by (apply np_unique_In; apply nth_In; exact Hj).
      destruct (combine_In_snd true_labels centroid_labels _ Hlen Hk) as [a0 Ha0].
      fold samples in Ha0.
      destruct (Hclass a0 _ Ha0) as [i0 [j0 [Hi0 [_ [Ei0 _]]]]].
      unfold size. rewrite (sigma_single L (fun i => IZR (c i j)) i0 Hi0).
      - apply (table_most L K c HL HK j Hj). exact Hi0.
      - intros i Hi Hne'. 
        destruct (Z.eq_dec (c i j) 0) as [Ez|Nz]; [rewrite Ez; reflexivity|]. exfalso.
        assert (0 <= c i j)%Z as Hnn by (apply (Hc i j Hi Hj)).
        assert (0 < c i j)%Z as Hpos by lia.
        apply Hin in Hpos.
        pose proof (Hpure _ _ _ Hpos Ha0) as Eq. rewrite <- Ei0 in Eq.
        apply Hne'. apply (NoDup_nth_eq classes); try assumption. apply np_unique_NoDup. }
    rewrite Hsum, Ht. field. lra.
Qed.

Lemma purity_score_one_witness :
  purity_score [0; 0; 1; 1]%Z [5; 5; 7; 7]%Z = Ok (Fin 1)
  <-> forall a a' k, In (a, k) (combine [0; 0; 1; 1]%Z [5; 5; 7; 7]%Z) ->
                     In (a', k) (combine [0; 0; 1; 1]%Z [5; 5; 7; 7]%Z) -> a = a'.
Proof. apply purity_score_one; [reflexivity|discriminate]. Defined.

(** * KMeans *)

(** ** The smallest entry of a finite row *)

Lemma fle_fin (a b : R) : fle (Fin a) (Fin b) = true <-> a <= b.
Proof. simpl. destruct (Rle_dec a b); split; intros; try assumption; try reflexivity; try discriminate; contradiction. Qed.

Lemma argmin_scan_finite (l : list R) :
  forall (m : R) (ind i : nat),
  let r := argmin_scan (Fin m) ind i (lift_v l) in
  (r = ind /\ Forall (fun x => m <= x) l)
  \/ (exists j, r = (i + j)%nat /\ (j < length l)%nat /\ nth j l 0 < m
                /\ Forall (fun x => nth j l 0 <= x) l
                /\ forall j', (j' < j)%nat -> nth j l 0 < nth j' l 0).
Proof.
  induction l as [|v l IH]; intros m ind i; cbn zeta.
  - left. split; [reflexivity|constructor].
  - cbn [lift_v map argmin_scan]. fold (lift_v l).
    destruct (fle (Fin m) (Fin v)) eqn:E.
    + apply fle_fin in E. cbn [negb].
      destruct (IH m ind (S i)) as [[Hr Hall]|[j [Hr [Hj [Hlt [Hall Hbefore]]]]]].
      * left. split; [exact Hr|constructor; assumption].
      * right. exists (S j). split; [rewrite Hr; lia|]. split; [simpl; lia|].
        split; [exact Hlt|]. split; [constructor; [simpl; lra|exact Hall]|].
        intros j' Hj'. destruct j' as [|j']; [simpl; lra|]. simpl. apply Hbefore. lia.
    + assert (v < m) as Hv.
      { destruct (Rle_lt_dec m v) as [H|H]; [|exact H].
        apply fle_fin in H. congruence. }
      cbn [negb is_nan].
      destruct (IH v i (S i)) as [[Hr Hall]|[j [Hr [Hj [Hlt [Hall Hbefore]]]]]].
      * right. exists 0%nat. split; [rewrite Hr; lia|]. split; [simpl; lia|].
        split; [exact Hv|]. split; [constructor; [simpl; lra|exact Hall]|].
        intros j' Hj'. lia.
      * right. exists (S j). split; [rewrite Hr; lia|]. split; [simpl; lia|].
        split; [simpl; lra|]. split; [constructor; [simpl; lra|exact Hall]|].
        intros j' Hj'. destruct j' as [|j']; [simpl; lra|]. simpl. apply Hbefore. lia.
Qed.

(** On finite entries [np.argmin] returns the first index of a smallest
    entry. *)
Lemma argmin_finite (l : list R) :
  l <> [] ->
  exists r, argmin (lift_v l) = Ok r /\ (r < length l)%nat
            /\ (forall j, (j < length l)%nat -> nth r l 0 <= nth j l 0)
            /\ (forall j, (j < r)%nat -> nth r l 0 < nth j l 0).
Proof.
  destruct l as [|v l]; [congruence|]. intros _.
  cbn [lift_v map argmin is_nan]. fold (lift_v l).
  destruct (argmin_scan_finite l v 0 1) as [[Hr Hall]|[j [Hr [Hj [Hlt [Hall Hbefore]]]]]];
    cbn zeta in Hr; rewrite Hr; eexists; (split; [reflexivity|]).
  - split; [simpl; lia|]. split; [|intros; lia].
    intros j Hj. destruct j as [|j]; [simpl; lra|]. simpl.
    rewrite Forall_forall in Hall. apply Hall. apply nth_In. simpl in Hj. lia.
  - split; [simpl; lia|]. split.
    + intros j0 Hj0. destruct j0 as [|j0]; [simpl; lra|]. simpl.
      rewrite Forall_forall in Hall. apply Hall. apply nth_In. simpl in Hj0. lia.
    + intros j0 Hj0. destruct j0 as [|j0]; [simpl; lra|]. simpl. apply Hbefore. lia.
Qed.

Lemma fminimum_fin (a b : R) : fminimum (Fin a) (Fin b) = Fin (Rmin a b).
Proof.
  unfold fminimum. cbn [is_nan]. rewrite orb_false_r. unfold Rmin.
  simpl. destruct (Rle_dec a b); reflexivity.
Qed.

Lemma fold_fminimum_finite (l : list R) (v : R) :
  exists m, fold_left fminimum (lift_v l) (Fin v) = Fin m
            /\ (m = v \/ In m l) /\ m <= v /\ Forall (fun x => m <= x) l.
Proof.
  revert v. induction l as [|x l IH]; intros v.
  - exists v. simpl. split; [reflexivity|]. split; [left; reflexivity|]. split; [lra|constructor].
  - cbn [lift_v map fold_left]. fold (lift_v l). rewrite fminimum_fin.
    destruct (IH (Rmin v x)) as [m [E [Hin [Hle Hall]]]].
    exists m. split; [exact E|].
    pose proof (Rmin_l v x). pose proof (Rmin_r v x).
    split; [|split; [lra|constructor; [lra|exact Hall]]].
    destruct Hin as [Hm|Hin]; [|right; right; exact Hin].
    unfold Rmin in Hm. destruct (Rle_dec v x); [left; exact Hm|right; left; symmetry; exact Hm].
Qed.

(** On finite entries [np.min] returns the entry [np.argmin] points at. *)
Lemma np_min_argmin (l : list R) (r : nat) :
  argmin (lift_v l) = Ok r -> np_min (lift_v l) = Ok (Fin (nth r l 0)).
Proof.
  intros Hr. destruct l as [|v l]; [discriminate Hr|].
  destruct (argmin_finite (v :: l) ltac:(congruence)) as [r' [Hr' [Hlt [Hmin _]]]].
  rewrite Hr in Hr'. injection Hr' as <-.
  cbn [lift_v map np_min]. fold (lift_v l).
  destruct (fold_fminimum_finite l v) as [m [E [Hin [Hle Hall]]]].
  rewrite E. do 2 f_equal. apply Rle_antisym.
  - assert (In (nth r (v :: l) 0) (v :: l)) as H by (apply nth_In; exact Hlt).
    destruct H as [H|H]; [rewrite <- H; exact Hle|].
    rewrite Forall_forall in Hall. apply Hall. exact H.
  - destruct Hin as [->|Hin].
    + apply (Hmin 0%nat). simpl. lia.
    + destruct (In_nth l m 0 Hin) as [j [Hj <-]]. apply (Hmin (S j)). simpl. lia.
Qed.

(** ** Distances between finite points *)

Lemma sqdist_nonneg (x c : list R) : 0 <= sqdist x c.
Proof. unfold sqdist. apply sigma_nonneg. intros d _. apply Rle_0_sqr. Qed.

Lemma euclidean_finite (x c : list R) :
  length c = length x -> euclidean (lift_v x) (lift_v c) = Fin (sqrt (sqdist x c)).
Proof.
  intros Hc. unfold euclidean. rewrite (lift_v_tab x), (lift_v_tab c), Hc, zip_with_tab.
  rewrite (tab_ext (length x) _
             (fun d => Fin ((nth d x 0 - nth d c 0) * (nth d x 0 - nth d c 0))))
    by (intros; simpl; do 2 f_equal; ring).
  rewrite fsum_tab. fold (sqdist x c). pose proof (sqdist_nonneg x c) as H.
  simpl. destruct (Rlt_dec (sqdist x c) 0); [lra|reflexivity].
Qed.

Lemma distances_finite (x : list R) (Cs : list (list R)) :
  rows_of (length x) Cs ->
  map (euclidean (lift_v x)) (lift_m Cs) = lift_v (map (fun c => sqrt (sqdist x c)) Cs).
Proof.
  intros HR. unfold lift_m, lift_v. rewrite !map_map. apply map_ext_in.
  intros c Hc. apply euclidean_finite. unfold rows_of in HR. rewrite Forall_forall in HR.
  apply HR. exact Hc.
Qed.

Lemma nth_distance (x : list R) (Cs : list (list R)) (j : nat) :
  (j < length Cs)%nat ->
  nth j (map (fun c => sqrt (sqdist x c)) Cs) 0 = sqrt (sqdist x (nth j Cs [])).
Proof.
  intros Hj. rewrite (nth_indep _ 0 (sqrt (sqdist x []))) by (rewrite length_map; exact Hj).
  apply (map_nth (fun c => sqrt (sqdist x c))).
Qed.

(** The nearest centroid of one point. *)
Lemma nearest_finite (x : list R) (Cs : list (list R)) :
  Cs <> [] -> rows_of (length x) Cs ->
  exists r,
    argmin (map (euclidean (lift_v x)) (lift_m Cs)) = Ok r
    /\ np_min (map (euclidean (lift_v x)) (lift_m Cs)) = Ok (Fin (sqrt (sqdist x (nth r Cs []))))
    /\ (r < length Cs)%nat
    /\ (forall j, (j < length Cs)%nat -> sqdist x (nth r Cs []) <= sqdist x (nth j Cs []))
    /\ (forall j, (j < r)%nat -> sqdist x (nth r Cs []) < sqdist x (nth j Cs [])).
Proof.
  intros Hne HR. rewrite (distances_finite x Cs HR).
  set (row := map (fun c => sqrt (sqdist x c)) Cs).
  assert (Hrow : row <> []) by (unfold row; destruct Cs; [congruence|discriminate]).
  assert (Hlen : length row = length Cs) by (unfold row; apply length_map).
  destruct (argmin_finite row Hrow) as [r [Hr [Hlt [Hmin Hfirst]]]].
  rewrite Hlen in *. exists r. split; [exact Hr|]. split.
  - rewrite (np_min_argmin row r Hr). unfold row. rewrite nth_distance by exact Hlt.
    reflexivity.
  - split; [exact Hlt|]. split.
    + intros j Hj. specialize (Hmin j Hj). unfold row in Hmin.
      rewrite !nth_distance in Hmin by assumption.
      apply sqrt_le_0; [apply sqdist_nonneg|apply sqdist_nonneg|exact Hmin].
    + intros j Hj. specialize (Hfirst j Hj). unfold row in Hfirst.
      rewrite !nth_distance in Hfirst by lia.
      apply sqrt_lt_0_alt. exact Hfirst.
Qed.

Lemma cdist_finite (X Cs : list (list R)) (D : nat) :
  rows_of D X -> rows_of D Cs ->
  cdist (lift_m X) (lift_m Cs)
  = Ok (map (fun x => map (euclidean (lift_v x)) (lift_m Cs)) X).
Proof.
  intros HX HC. unfold cdist.
  assert ((is_nil (lift_m X) || is_nil (lift_m Cs)
           || (shape1 (lift_m X) =? shape1 (lift_m Cs))%nat)%bool = true) as ->.
  { destruct X as [|x X]; [reflexivity|]. destruct Cs as [|c Cs]; [reflexivity|].
    inversion HX; inversion HC; subst. cbn. unfold lift_v. rewrite !length_map.
    replace (length c) with (length x) by congruence. apply Nat.eqb_refl. }
  f_equal. unfold lift_m. rewrite map_map. reflexivity.
Qed.

(** ** Assignment *)

(** Labels and smallest distances of finite points, row by row. *)
Lemma assignment_finite (X Cs : list (list R)) :
  Cs <> [] -> (forall x, In x X -> rows_of (length x) Cs) ->
  exists ls : list nat,
    mapM argmin (map (fun x => map (euclidean (lift_v x)) (lift_m Cs)) X) = Ok ls
    /\ mapM np_min (map (fun x => map (euclidean (lift_v x)) (lift_m Cs)) X)
       = Ok (tab (length X)
                 (fun n => Fin (sqrt (sqdist (nth n X []) (nth (nth n ls O) Cs [])))))
    /\ length ls = length X
    /\ forall n, (n < length X)%nat ->
         let x := nth n X [] in
         let l := nth n ls O in
         (l < length Cs)%nat
         /\ (forall j, (j < length Cs)%nat -> sqdist x (nth l Cs []) <= sqdist x (nth j Cs []))
         /\ (forall j, (j < l)%nat -> sqdist x (nth l Cs []) < sqdist x (nth j Cs [])).
Proof.
  intros Hne HC. induction X as [|x X IH].
  - exists []. split; [reflexivity|]. split; [reflexivity|]. split; [reflexivity|].
    intros n Hn. simpl in Hn. lia.
  - destruct (nearest_finite x Cs Hne (HC x (or_introl eq_refl)))
      as [r [Hr [Hm [Hlt [Hmin Hfirst]]]]].
    destruct IH as [ls [Els [Ems [Hlen Hls]]]];
      [intros y Hy; apply HC; right; exact Hy|].
    exists (r :: ls). cbn [map mapM]. rewrite Hr, Hm. cbn [bind]. rewrite Els, Ems. cbn [bind].
    split; [reflexivity|]. split; [simpl length; rewrite tab_S; reflexivity|].
    split; [simpl; lia|].
    intros n Hn. destruct n as [|n]; cbn zeta; cbn [nth].
    + split; [exact Hlt|]. split; assumption.
    + apply Hls. simpl in Hn. lia.
Qed.

Lemma rows_of_points (X Cs : list (list R)) (D : nat) :
  rows_of D X -> rows_of D Cs -> forall x, In x X -> rows_of (length x) Cs.
Proof.
  intros HX HC x Hx. unfold rows_of in HX. rewrite Forall_forall in HX. rewrite (HX x Hx).
  exact HC.
Qed.

Lemma not_nil_length {A : Type} (l : list A) : l <> [] -> (length l =? 0)%nat = false.
Proof. destruct l; [congruence|reflexivity]. Qed.

(** Labels and objective on finite points and centroids. *)
Lemma finite_assignment (self : KMeans.state) (X Cs : list (list R)) (D : nat) :
  KMeans.centroids self = Some (lift_m Cs) ->
  rows_of D X -> rows_of D Cs -> Cs <> [] ->
  exists ls : list nat,
    KMeans.cluster_assignment (lift_m X) (lift_m Cs) = Ok ls
    /\ KMeans.objective self (lift_m X) = Ok (Fin (assigned_cost X Cs ls))
    /\ length ls = length X
    /\ forall n, (n < length X)%nat ->
         let x := nth n X [] in
         let l := nth n ls O in
         (l < length Cs)%nat
         /\ (forall j, (j < length Cs)%nat -> sqdist x (nth l Cs []) <= sqdist x (nth j Cs []))
         /\ (forall j, (j < l)%nat -> sqdist x (nth l Cs []) < sqdist x (nth j Cs [])).
Proof.
  intros Hself HX HC Hne.
  unfold KMeans.cluster_assignment, KMeans.objective. rewrite Hself. cbn [bind].
  rewrite (cdist_finite X Cs D HX HC). cbn [bind]. unfold argmin_axis1, min_axis1.
  rewrite lift_m_length, (not_nil_length Cs Hne).
  destruct (assignment_finite X Cs Hne (rows_of_points X Cs D HX HC))
    as [ls [Els [Ems [Hlen Hls]]]].
  exists ls. split; [exact Els|]. split; [|split; [exact Hlen|exact Hls]].
  rewrite Ems. cbn [bind]. rewrite tab_map.
  rewrite (tab_ext (length X) _
             (fun n => Fin (sqdist (nth n X []) (nth (nth n ls O) Cs [])))).
  - rewrite fsum_tab. reflexivity.
  - intros n _. cbn [fmul]. f_equal. apply sqrt_sqrt. apply sqdist_nonneg.
Qed.

(** X11.  On finite points and at least one finite centroid of the same
    width, [cluster_assignment] gives every point the index of a nearest
    centroid, and among nearest centroids the first. *)
Theorem cluster_assignment_nearest (X Cs : list (list R)) (D : nat) :
  rows_of D X -> rows_of D Cs -> Cs <> [] ->
  exists ls : list nat,
    KMeans.cluster_assignment (lift_m X) (lift_m Cs) = Ok ls
    /\ length ls = length X
    /\ forall n, (n < length X)%nat ->
         let x := nth n X [] in
         let l := nth n ls O in
         (l < length Cs)%nat
         /\ (forall j, (j < length Cs)%nat -> sqdist x (nth l Cs []) <= sqdist x (nth j Cs []))
         /\ (forall j, (j < l)%nat -> sqdist x (nth l Cs []) < sqdist x (nth j Cs [])).
Proof.
  intros HX HC Hne.
  destruct (finite_assignment (KMeans.set_centroids (KMeans.init 0 0) (lift_m Cs)) X Cs D
              eq_refl HX HC Hne) as [ls [Els [_ [Hlen Hls]]]].
  exists ls. split; [exact Els|]. split; [exact Hlen|exact Hls].
Qed.

Lemma cluster_assignment_nearest_witness :
  exists ls : list nat,
    KMeans.cluster_assignment (lift_m triangle) (lift_m [[0; 0]; [2; 2]]) = Ok ls
    /\ length ls = length triangle
    /\ forall n, (n < length triangle)%nat ->
         let x := nth n triangle [] in
         let l := nth n ls O in
         (l < 2)%nat
         /\ (forall j, (j < 2)%nat ->
               sqdist x (nth l [[0; 0]; [2; 2]] []) <= sqdist x (nth j [[0; 0]; [2; 2]] []))
         /\ (forall j, (j < l)%nat ->
               sqdist x (nth l [[0; 0]; [2; 2]] []) < sqdist x (nth j [[0; 0]; [2; 2]] [])).
Proof.
  apply (cluster_assignment_nearest triangle [[0; 0]; [2; 2]] 2).
  - repeat constructor.
  - repeat constructor.
  - discriminate.
Defined.

(** ** The objective *)

Lemma assigned_cost_least (X Cs : list (list R)) (ls ls' : list nat) :
  (forall n, (n < length X)%nat ->
     forall j, (j < length Cs)%nat ->
       sqdist (nth n X []) (nth (nth n ls O) Cs []) <= sqdist (nth n X []) (nth j Cs [])) ->
  (forall n, (n < length X)%nat -> (nth n ls' O < length Cs)%nat) ->
  assigned_cost X Cs ls <= assigned_cost X Cs ls'.
Proof.
  intros Hmin Hls'. unfold assigned_cost. apply sigma_le. intros n Hn.
  apply Hmin; [exact Hn|apply Hls'; exact Hn].
Qed.

(** X12.  On finite points and centroids, [objective] returns the sum
    of the squared distances from the points to the centroids that
    [cluster_assignment] gives them; no other assignment has a smaller
    sum. *)
Theorem objective_of_assignment (self : KMeans.state) (X Cs : list (list R)) (D : nat) :
  KMeans.centroids self = Some (lift_m Cs) ->
  rows_of D X -> rows_of D Cs -> Cs <> [] ->
  exists ls : list nat,
    KMeans.cluster_assignment (lift_m X) (lift_m Cs) = Ok ls
    /\ KMeans.objective self (lift_m X) = Ok (Fin (assigned_cost X Cs ls))
    /\ forall ls', (forall n, (n < length X)%nat -> (nth n ls' O < length Cs)%nat) ->
                   assigned_cost X Cs ls <= assigned_cost X Cs ls'.
Proof.
  intros Hself HX HC Hne.
  destruct (finite_assignment self X Cs D Hself HX HC Hne) as [ls [Els [Eobj [_ Hls]]]].
  exists ls. split; [exact Els|]. split; [exact Eobj|].
  intros ls' Hls'. apply assigned_cost_least; [|exact Hls'].
  intros n Hn j Hj. apply (Hls n Hn). exact Hj.
Qed.

Lemma objective_of_assignment_witness :
  exists ls : list nat,
    KMeans.cluster_assignment (lift_m triangle) (lift_m [[0; 0]; [2; 2]]) = Ok ls
    /\ KMeans.objective (KMeans.set_centroids (KMeans.init 2 100) (lift_m [[0; 0]; [2; 2]]))
                        (lift_m triangle)
       = Ok (Fin (assigned_cost triangle [[0; 0]; [2; 2]] ls))
    /\ forall ls', (forall n, (n < length triangle)%nat -> (nth n ls' O < 2)%nat) ->
                   assigned_cost triangle [[0; 0]; [2; 2]] ls
                   <= assigned_cost triangle [[0; 0]; [2; 2]] ls'.
Proof.
  apply (objective_of_assignment
           (KMeans.set_centroids (KMeans.init 2 100) (lift_m [[0; 0]; [2; 2]]))
           triangle [[0; 0]; [2; 2]] 2).
  - reflexivity.
  - repeat constructor.
  - repeat constructor.
  - discriminate.
Defined.

(** ** Centroids *)

Lemma member_cons (l : nat) (ls : list nat) (i n : nat) :
  member (l :: ls) i (S n) = member ls i n.
Proof. reflexivity. Qed.

Lemma member_range (ls : list nat) (i n : nat) : 0 <= member ls i n <= 1.
Proof. unfold member. destruct (nth n ls O =? i)%nat; lra. Qed.

(** The selected rows of a cluster, by their column sums and number. *)
Lemma select_sums (X : list (list R)) (ls : list nat) (i d : nat) :
  length ls = length X ->
  let rows := map fst (filter snd (combine (lift_m X) (map (fun l => (l =? i)%nat) ls))) in
  fsum (col rows d) = Fin (sigma (length X) (fun n => member ls i n * entry X n d))
  /\ INR (length rows) = sigma (length X) (member ls i).
Proof.
  revert ls. induction X as [|x X IH]; intros [|l ls] Hlen; try discriminate Hlen.
  - cbn. split; reflexivity.
  - cbn zeta. cbn [lift_m map combine filter snd]. fold (lift_m X).
    destruct (IH ls ltac:(simpl in Hlen; lia)) as [Hs Hn]. cbn zeta in Hs, Hn.
    simpl length. rewrite !sigma_S.
    rewrite (sigma_ext (length X) (fun n => member (l :: ls) i (S n) * entry (x :: X) (S n) d)
               (fun n => member ls i n * entry X n d)) by (intros; reflexivity).
    rewrite (sigma_ext (length X) (fun n => member (l :: ls) i (S n)) (member ls i))
      by (intros; reflexivity).
    unfold member at 1 3. cbn [nth].
    destruct (Nat.eqb_spec l i) as [E|E].
    + cbn [map fst col length]. unfold col in Hs. unfold fsum in *. cbn [fold_right].
      rewrite Hs. split.
      * unfold entry. cbn [nth]. unfold lift_v.
        change (@zero float64 _) with (Fin 0). rewrite (map_nth Fin x 0 d).
        cbn [fadd]. f_equal. unfold zero, R_zero. ring.
      * rewrite S_INR, Hn. ring.
    + split; [rewrite Hs; f_equal; ring|rewrite Hn; ring].
Qed.

Lemma cluster_size_length (X : list (list R)) (ls : list nat) (i : nat) :
  length ls = length X -> cluster_size ls i = sigma (length X) (member ls i).
Proof. intros H. unfold cluster_size. rewrite H. reflexivity. Qed.

Lemma cluster_size_zero (ls : list nat) (i : nat) :
  cluster_size ls i = 0 <-> ~ In i ls.
Proof.
  unfold cluster_size. split.
  - intros Hz Hin. destruct (In_nth ls i O Hin) as [n [Hn En]].
    pose proof (sigma_term_le (length ls) (member ls i) n
                  (fun k _ => proj1 (member_range ls i k)) Hn) as H.
    unfold member at 1 in H. rewrite En, Nat.eqb_refl in H. lra.
  - intros Hnot. rewrite (sigma_ext _ _ (fun _ => 0)); [apply sigma_zero|].
    intros n Hn. unfold member. destruct (Nat.eqb_spec (nth n ls O) i) as [E|E]; [|reflexivity].
    exfalso. apply Hnot. rewrite <- E. apply nth_In. exact Hn.
Qed.

Lemma cluster_size_nonneg (ls : list nat) (i : nat) : 0 <= cluster_size ls i.
Proof. apply sigma_nonneg. intros n _. apply member_range. Qed.

Lemma tab_const {A : Type} (n : nat) (c : A) : tab n (fun _ => c) = repeat c n.
Proof. induction n as [|n IH]; [reflexivity|]. rewrite tab_S, IH. reflexivity. Qed.

(** One row of [update_centroids]. *)
Lemma centroid_row (X : list (list R)) (ls : list nat) (D i : nat) :
  length ls = length X ->
  KMeans.select_rows (lift_m X) (map (fun l => (l =? i)%nat) ls)
  = Ok (map fst (filter snd (combine (lift_m X) (map (fun l => (l =? i)%nat) ls))))
  /\ KMeans.mean_axis0 D
       (map fst (filter snd (combine (lift_m X) (map (fun l => (l =? i)%nat) ls))))
     = if Req_dec_T (cluster_size ls i) 0 then repeat NaN D
       else lift_v (tab D (cluster_mean X ls i)).
Proof.
  intros Hlen. split.
  - unfold KMeans.select_rows. rewrite length_map, lift_m_length, Hlen, Nat.eqb_refl.
    reflexivity.
  - unfold KMeans.mean_axis0.
    change (map ?f (seq 0 D)) with (tab D f).
    rewrite (cluster_size_length X ls i Hlen).
    destruct (Req_dec_T (sigma (length X) (member ls i)) 0) as [Ez|Nz].
    + rewrite (tab_ext D _ (fun _ => NaN)).
      * apply tab_const.
      * intros d _. destruct (select_sums X ls i d Hlen) as [Hs Hn]. cbn zeta in Hs, Hn.
        rewrite Hs, Hn, Ez.
        assert (sigma (length X) (fun n => member ls i n * entry X n d) = 0) as ->.
        { rewrite (sigma_ext _ _ (fun _ => 0)); [apply sigma_zero|]. intros n Hn'.
          assert (member ls i n = 0) as ->; [|ring].
          pose proof (sigma_term_le (length X) (member ls i) n
                        (fun k _ => proj1 (member_range ls i k)) Hn').
          pose proof (member_range ls i n). lra. }
        simpl. destruct (Req_dec_T 0 0); [reflexivity|contradiction].
    + unfold lift_v. rewrite tab_map. apply tab_ext. intros d _.
      destruct (select_sums X ls i d Hlen) as [Hs Hn]. cbn zeta in Hs, Hn.
      rewrite Hs, Hn, fdiv_fin by exact Nz. unfold cluster_mean.
      rewrite (cluster_size_length X ls i Hlen). reflexivity.
Qed.

Lemma shape1_lift (X : list (list R)) (D : nat) :
  rows_of D X -> (0 < length X)%nat -> shape1 (lift_m X) = D.
Proof.
  intros HX HN. destruct X as [|x X]; [simpl in HN; lia|].
  inversion HX; subst. cbn. unfold lift_v. apply length_map.
Qed.

Lemma update_centroids_tab (self : KMeans.state) (X : list (list R)) (ls : list nat)
  (D : nat) :
  rows_of D X -> (0 < length X)%nat -> length ls = length X ->
  KMeans.update_centroids self (lift_m X) ls
  = Ok (tab (Z.to_nat (KMeans.k self))
            (fun i => if Req_dec_T (cluster_size ls i) 0 then repeat NaN D
                      else lift_v (tab D (cluster_mean X ls i)))).
Proof.
  intros HX HN Hlen. unfold KMeans.update_centroids.
  rewrite (shape1_lift X D HX HN).
  apply mapM_seq. intros i _.
  destruct (centroid_row X ls D i Hlen) as [Hsel Hmean].
  rewrite Hsel. cbn [bind]. rewrite Hmean. reflexivity.
Qed.

(** X13.  On finite points, [update_centroids] returns [k] rows: the
    mean of the points of a cluster that has points, and a row of nan
    for a cluster that has none.  No exception is raised for an empty
    cluster. *)
Theorem update_centroids_rows (self : KMeans.state) (X : list (list R)) (ls : list nat)
  (D : nat) :
  rows_of D X -> (0 < length X)%nat -> length ls = length X ->
  exists cs : mat,
    KMeans.update_centroids self (lift_m X) ls = Ok cs
    /\ length cs = Z.to_nat (KMeans.k self)
    /\ forall i, (i < Z.to_nat (KMeans.k self))%nat ->
         (In i ls -> nth i cs [] = lift_v (tab D (cluster_mean X ls i)))
         /\ (~ In i ls -> nth i cs [] = repeat NaN D).
Proof.
  intros HX HN Hlen. eexists. split; [apply (update_centroids_tab self X ls D); assumption|].
  split; [apply tab_length|]. intros i Hi.
  rewrite !(tab_nth (Z.to_nat (KMeans.k self)) i) by exact Hi.
  destruct (Req_dec_T (cluster_size ls i) 0) as [Ez|Nz]; split; intros H.
  - apply cluster_size_zero in Ez. contradiction.
  - reflexivity.
  - reflexivity.
  - apply cluster_size_zero in H. contradiction.
Qed.

Lemma update_centroids_rows_witness :
  exists cs : mat,
    KMeans.update_centroids (KMeans.init 2 100) (lift_m triangle) [0; 0; 0]%nat = Ok cs
    /\ length cs = Z.to_nat (KMeans.k (KMeans.init 2 100))
    /\ forall i, (i < Z.to_nat (KMeans.k (KMeans.init 2 100)))%nat ->
         (In i [0; 0; 0]%nat
          -> nth i cs [] = lift_v (tab 2 (cluster_mean triangle [0; 0; 0]%nat i)))
         /\ (~ In i [0; 0; 0]%nat -> nth i cs [] = repeat NaN 2).
Proof.
  apply (update_centroids_rows (KMeans.init 2 100) triangle [0; 0; 0]%nat 2).
  - repeat constructor.
  - simpl. lia.
  - reflexivity.
Defined.

(** ** The mean of a cluster is its best centroid *)

Lemma qf_identity (d : nat) (v : nat -> R) :
  qf d (fun i j => if (i =? j)%nat then 1 else 0) v = sigma d (fun i => v i * v i).
Proof.
  unfold qf. apply sigma_ext. intros i Hi.
  rewrite (sigma_ext d _ (fun j => v i * ((if (i =? j)%nat then 1 else 0) * v j)))
    by (intros; ring).
  rewrite sigma_scal, sigma_delta by exact Hi. reflexivity.
Qed.

Lemma mean_least_squares (N D : nat) (r : nat -> R) (x : nat -> nat -> R) (m : nat -> R) :
  0 < sigma N r ->
  sigma N (fun n => r n * sigma D (fun d =>
             (x n d - sigma N (fun n' => r n' * x n' d) / sigma N r)
             * (x n d - sigma N (fun n' => r n' * x n' d) / sigma N r)))
  <= sigma N (fun n => r n * sigma D (fun d => (x n d - m d) * (x n d - m d))).
Proof.
  intros Hpos.
  set (I := fun i j : nat => if (i =? j)%nat then 1 else 0).
  set (m' := fun i => sigma N (fun n => r n * x n i) / sigma N r).
  pose proof (mean_shift N D r x I m (sigma N r) eq_refl ltac:(lra)) as H.
  cbv zeta in H. fold m' in H.
  rewrite (sigma_ext N _ (fun n => r n * qf D I (fun i => x n i - m' i)))
    by (intros; unfold I; rewrite qf_identity; reflexivity).
  rewrite (sigma_ext N (fun n => r n * sigma D (fun d => (x n d - m d) * (x n d - m d)))
             (fun n => r n * qf D I (fun i => x n i - m i)))
    by (intros; unfold I; rewrite qf_identity; reflexivity).
  rewrite H.
  assert (0 <= sigma N r * qf D I (fun i => m' i - m i)).
  { apply Rmult_le_pos; [lra|]. unfold I. rewrite qf_identity.
    apply sigma_nonneg. intros; apply Rle_0_sqr. }
  lra.
Qed.

(** A sum over the points, cluster by cluster. *)
Lemma sigma_by_cluster (N K : nat) (ls : list nat) (f : nat -> nat -> R) :
  (forall n, (n < N)%nat -> (nth n ls O < K)%nat) ->
  sigma N (fun n => f n (nth n ls O))
  = sigma K (fun i => sigma N (fun n => member ls i n * f n i)).
Proof.
  intros Hls. rewrite sigma_swap. apply sigma_ext. intros n Hn.
  rewrite (sigma_ext K _ (fun i => (if (nth n ls O =? i)%nat then 1 else 0) * f n i)).
  - rewrite (sigma_delta K (nth n ls O) (f n)) by (apply Hls; exact Hn). reflexivity.
  - intros i _. unfold member. reflexivity.
Qed.

(** Moving every centroid to the mean of its cluster does not raise the
    cost of an assignment. *)
Lemma means_lower_cost (X Cs Cs' : list (list R)) (ls : list nat) (D K : nat) :
  rows_of D X -> length ls = length X ->
  (forall n, (n < length X)%nat -> (nth n ls O < K)%nat) ->
  (forall i, (i < K)%nat -> In i ls -> nth i Cs' [] = tab D (cluster_mean X ls i)) ->
  assigned_cost X Cs' ls <= assigned_cost X Cs ls.
Proof.
  intros HX Hlen Hls Hmeans. unfold assigned_cost.
  rewrite (sigma_by_cluster (length X) K ls (fun n i => sqdist (nth n X []) (nth i Cs' [])))
    by exact Hls.
  rewrite (sigma_by_cluster (length X) K ls (fun n i => sqdist (nth n X []) (nth i Cs [])))
    by exact Hls.
  apply sigma_le. intros i Hi.
  destruct (Req_dec (cluster_size ls i) 0) as [Ez|Nz].
  - (* no point in the cluster *)
    assert (forall n, (n < length X)%nat -> member ls i n = 0) as Hz.
    { intros n Hn. apply cluster_size_zero in Ez. unfold member.
      destruct (Nat.eqb_spec (nth n ls O) i) as [E|E]; [|reflexivity].
      exfalso. apply Ez. rewrite <- E. apply nth_In. lia. }
    right. apply sigma_ext. intros n Hn. rewrite (Hz n Hn). ring.
  - assert (Hin : In i ls).
    { destruct (in_dec Nat.eq_dec i ls) as [H|H]; [exact H|].
      apply cluster_size_zero in H. contradiction. }
    assert (Hpos : 0 < sigma (length X) (member ls i)).
    { rewrite <- (cluster_size_length X ls i Hlen).
      pose proof (cluster_size_nonneg ls i). lra. }
    pose proof (mean_least_squares (length X) D (member ls i) (entry X)
                  (fun d => nth d (nth i Cs []) 0) Hpos) as H.
    eapply Rle_trans; [|eapply Rle_trans; [exact H|]].
    + right. apply sigma_ext. intros n Hn. f_equal. unfold sqdist.
      rewrite (rows_of_nth D X n HX Hn). apply sigma_ext. intros d Hd.
      rewrite (Hmeans i Hi Hin), (tab_nth D d (cluster_mean X ls i) 0 Hd).
      unfold cluster_mean. rewrite (cluster_size_length X ls i Hlen).
      unfold entry, zero, R_zero. reflexivity.
    + right. apply sigma_ext. intros n Hn. f_equal. unfold sqdist.
      rewrite (rows_of_nth D X n HX Hn). apply sigma_ext. intros d Hd.
      unfold entry, zero, R_zero. reflexivity.
Qed.

(** ** A centroid without points *)

Lemma fminimum_nan_l (b : float64) : fminimum NaN b = NaN.
Proof. unfold fminimum. destruct b; reflexivity. Qed.

Lemma fold_fminimum_nan (l : vec) : fold_left fminimum l NaN = NaN.
Proof. induction l as [|b l IH]; [reflexivity|]. simpl. rewrite fminimum_nan_l. exact IH. Qed.

Lemma fold_fminimum_In_nan (l : vec) (v : float64) :
  In NaN l -> fold_left fminimum l v = NaN.
Proof.
  revert v. induction l as [|b l IH]; intros v Hin; [contradiction|].
  simpl. destruct Hin as [->|Hin]; [|apply IH; exact Hin].
  assert (fminimum v NaN = NaN) as ->; [|apply fold_fminimum_nan].
  unfold fminimum. destruct v; reflexivity.
Qed.

Lemma np_min_nan (l : vec) : In NaN l -> np_min l = Ok NaN.
Proof.
  destruct l as [|v l]; [contradiction|]. intros Hin. cbn [np_min]. f_equal.
  destruct Hin as [Hv|Hin].
  - rewrite Hv. apply fold_fminimum_nan.
  - apply fold_fminimum_In_nan. exact Hin.
Qed.

Lemma fsum_nan (l : vec) : In NaN l -> fsum l = NaN.
Proof.
  induction l as [|v l IH]; [contradiction|]. intros Hin. unfold fsum in *. cbn [fold_right].
  destruct Hin as [Hv|Hin].
  - rewrite Hv. reflexivity.
  - rewrite IH by exact Hin. destruct v; reflexivity.
Qed.

Lemma euclidean_nan (x : list R) (D : nat) :
  length x = D -> (0 < D)%nat -> euclidean (lift_v x) (repeat NaN D) = NaN.
Proof.
  intros Hx HD. unfold euclidean. rewrite fsum_nan; [reflexivity|].
  destruct x as [|a x]; [simpl in Hx; lia|]. destruct D as [|D]; [lia|].
  left. reflexivity.
Qed.

Lemma centroid_rows_cases (D : nat) (cs : mat) :
  centroid_rows D cs ->
  (exists Cs : list (list R), cs = lift_m Cs /\ rows_of D Cs) \/ In (repeat NaN D) cs.
Proof.
  induction 1 as [|row cs Hrow Hcs IH].
  - left. exists []. split; [reflexivity|constructor].
  - destruct Hrow as [[r [Hr Er]]|Er]; [|right; left; exact Er].
    destruct IH as [[Cs [ECs HCs]]|Hin]; [|right; right; exact Hin].
    left. exists (r :: Cs). split; [rewrite Er, ECs; reflexivity|constructor; assumption].
Qed.

Lemma centroid_rows_width (D : nat) (cs : mat) :
  centroid_rows D cs -> rows_of D cs.
Proof.
  unfold centroid_rows, rows_of. intros H. eapply Forall_impl; [|exact H].
  intros row [[r [Hr Er]]|Er]; rewrite Er;
    [unfold lift_v; rewrite length_map; exact Hr|apply repeat_length].
Qed.

Lemma mapM_length {A B : Type} (f : A -> result B) (l : list A) (l' : list B) :
  mapM f l = Ok l' -> length l' = length l.
Proof.
  revert l'. induction l as [|a l IH]; intros l' E; simpl in E.
  - injection E as <-. reflexivity.
  - destruct (f a); [|discriminate E]. cbn [bind] in E.
    destruct (mapM f l) as [t|]; [|discriminate E]. cbn [bind] in E.
    injection E as <-. simpl. f_equal. apply IH. reflexivity.
Qed.

Lemma mapM_Forall {A B : Type} (f : A -> result B) (P : B -> Prop) (l : list A)
  (l' : list B) :
  (forall a b, In a l -> f a = Ok b -> P b) -> mapM f l = Ok l' -> Forall P l'.
Proof.
  revert l'. induction l as [|a l IH]; intros l' HP E; simpl in E.
  - injection E as <-. constructor.
  - destruct (f a) as [b|] eqn:Ea; [|discriminate E]. cbn [bind] in E.
    destruct (mapM f l) as [t|]; [|discriminate E]. cbn [bind] in E.
    injection E as <-. constructor.
    + apply (HP a b); [left; reflexivity|exact Ea].
    + apply IH; [|reflexivity]. intros a' b' Ha' E'. apply (HP a' b'); [right; exact Ha'|exact E'].
Qed.

(** With a row of nan among the centroids, the objective is not a
    finite number. *)
Lemma objective_nan (self : KMeans.state) (X : list (list R)) (cs : mat) (D : nat) (v : R) :
  KMeans.centroids self = Some cs -> rows_of D X -> (0 < length X)%nat -> (0 < D)%nat ->
  In (repeat NaN D) cs -> KMeans.objective self (lift_m X) <> Ok (Fin v).
Proof.
  intros Hself HX HN HD Hin. unfold KMeans.objective. rewrite Hself. cbn [bind].
  unfold cdist. destruct (_ || _ || _)%bool; [|discriminate]. cbn [bind].
  unfold min_axis1. destruct (length cs =? 0)%nat; [discriminate|].
  rewrite (mapM_nth np_min _ [] (fun _ => NaN)).
  - cbn [bind]. rewrite length_map, lift_m_length.
    destruct (length X) as [|n]; [lia|]. rewrite tab_S. cbn. discriminate.
  - intros n Hn. rewrite length_map, lift_m_length in Hn.
    rewrite (nth_indep _ [] (map (euclidean (lift_v [])) cs))
      by (rewrite length_map, lift_m_length; exact Hn).
    rewrite (map_nth (fun u => map (euclidean u) cs) (lift_m X) (lift_v [])).
    apply np_min_nan. apply in_map_iff. exists (repeat NaN D). split; [|exact Hin].
    rewrite (nth_indep _ (lift_v []) []) by (rewrite lift_m_length; exact Hn).
    rewrite lift_m_nth. apply euclidean_nan; [|exact HD].
    apply rows_of_nth; assumption.
Qed.

(** ** The loop of [fit] *)

Lemma objective_reads_centroids (self self' : KMeans.state) (data : mat) :
  KMeans.centroids self = KMeans.centroids self' ->
  KMeans.objective self data = KMeans.objective self' data.
Proof. intros E. unfold KMeans.objective. rewrite E. reflexivity. Qed.

Lemma cluster_assignment_returns (data cs : mat) (ls : list nat) :
  KMeans.cluster_assignment data cs = Ok ls -> length ls = length data /\ cs <> [].
Proof.
  unfold KMeans.cluster_assignment, cdist, argmin_axis1. intros E.
  destruct (_ || _ || _)%bool; [|discriminate E]. cbn [bind] in E.
  destruct cs as [|c cs]; [discriminate E|]. cbn [length Nat.eqb] in E.
  split; [|discriminate]. rewrite (mapM_length _ _ _ E). apply length_map.
Qed.

Lemma update_centroids_shape (self : KMeans.state) (X : list (list R)) (ls : list nat)
  (D : nat) (cs : mat) :
  rows_of D X -> (0 < length X)%nat -> length ls = length X ->
  KMeans.update_centroids self (lift_m X) ls = Ok cs ->
  centroid_rows D cs /\ length cs = Z.to_nat (KMeans.k self).
Proof.
  intros HX HN Hlen E. rewrite (update_centroids_tab self X ls D HX HN Hlen) in E.
  injection E as <-. split; [|apply tab_length].
  apply Forall_forall. intros row Hrow. unfold tab in Hrow. apply in_map_iff in Hrow.
  destruct Hrow as [i [<- _]].
  destruct (Req_dec_T (cluster_size ls i) 0); [right; reflexivity|].
  left. eexists. split; [|reflexivity]. apply tab_length.
Qed.

Lemma initialize_centroids_shape (G : generator) (self : KMeans.state) (X : list (list R))
  (D : nat) (s s' : random_state G) (c : mat) :
  rows_of D X ->
  KMeans.initialize_centroids G self (lift_m X) s = (Ok c, s') ->
  centroid_rows D c /\ (length c <= Z.to_nat (KMeans.k self))%nat.
Proof.
  intros HX E. unfold KMeans.initialize_centroids, random_choice in E.
  destruct (_ && _)%bool; [discriminate E|].
  destruct (_ <? _)%Z; [discriminate E|].
  destruct (_ <? _)%Z; [discriminate E|].
  destruct (permutation G (length (lift_m X)) s) as [p s1].
  cbn [bind] in E. injection E as E _. split.
  - assert (Hrows : Forall (fun row => In row (lift_m X)) c).
    { eapply (mapM_Forall (index (lift_m X)) (fun row => In row (lift_m X))); [|exact E].
      intros i b _ Hb. unfold index in Hb.
      destruct (nth_error (lift_m X) i) as [b'|] eqn:En; [|discriminate Hb].
      injection Hb as <-. apply (nth_error_In _ _ En). }
    eapply Forall_impl; [|exact Hrows]. intros row Hrow. left.
    unfold lift_m in Hrow. apply in_map_iff in Hrow. destruct Hrow as [r [<- Hr]].
    exists r. split; [|reflexivity]. unfold rows_of in HX. rewrite Forall_forall in HX.
    apply HX. exact Hr.
  - rewrite (mapM_length _ _ _ E), length_firstn. lia.
Qed.

Lemma descends_cons (u v : float64) (l : vec) :
  (forall a b, u = Fin a -> v = Fin b -> b <= a) -> descends (v :: l) -> descends (u :: v :: l).
Proof.
  intros Huv Hl i a b Ha Hb. destruct i as [|i].
  - simpl in Ha, Hb. injection Ha as ->. injection Hb as ->. apply Huv; reflexivity.
  - apply (Hl i a b); assumption.
Qed.

Lemma descends_one (u : float64) : descends [u].
Proof. intros i a b Ha Hb. destruct i as [|[|i]]; discriminate Hb. Qed.

Lemma descends_tail (u : float64) (l : vec) : descends (u :: l) -> descends l.
Proof. intros H i a b Ha Hb. apply (H (S i) a b); assumption. Qed.

Section Descent.

Variables (X : list (list R)) (D : nat).
Hypothesis points : rows_of D X.
Hypothesis some_point : (0 < length X)%nat.
Hypothesis some_coordinate : (0 < D)%nat.

(** A finite objective comes from finite centroids and is the cost of
    their assignment. *)
Lemma objective_returns (self : KMeans.state) (data cs : mat) (v : float64) :
  KMeans.centroids self = Some cs -> KMeans.objective self data = Ok v -> cs <> [].
Proof.
  intros Hself E Hnil. unfold KMeans.objective in E. rewrite Hself, Hnil in E.
  cbn [bind] in E. unfold cdist, min_axis1 in E.
  destruct (_ || _ || _)%bool; discriminate E.
Qed.

Lemma objective_finite (self : KMeans.state) (cs : mat) (v : R) :
  KMeans.centroids self = Some cs -> centroid_rows D cs ->
  KMeans.objective self (lift_m X) = Ok (Fin v) ->
  exists (Cs : list (list R)) (ls : list nat),
    cs = lift_m Cs /\ rows_of D Cs
    /\ KMeans.cluster_assignment (lift_m X) cs = Ok ls
    /\ v = assigned_cost X Cs ls
    /\ (forall n, (n < length X)%nat -> (nth n ls O < length Cs)%nat)
    /\ forall ls', (forall n, (n < length X)%nat -> (nth n ls' O < length Cs)%nat) ->
                   assigned_cost X Cs ls <= assigned_cost X Cs ls'.
Proof.
  intros Hself Hshape Hobj.
  pose proof (objective_returns self _ cs _ Hself Hobj) as Hne.
  destruct (centroid_rows_cases D cs Hshape) as [[Cs [ECs HCs]]|Hnan].
  - subst cs.
    assert (HneC : Cs <> []) by (intros E; apply Hne; rewrite E; reflexivity).
    destruct (finite_assignment self X Cs D Hself points HCs HneC)
      as [ls [Els [Eobj [_ Hnear]]]].
    rewrite Hobj in Eobj. injection Eobj as ->.
    exists Cs, ls. split; [reflexivity|]. split; [exact HCs|]. split; [exact Els|].
    split; [reflexivity|]. split.
    + intros n Hn. apply (Hnear n Hn).
    + intros ls' Hls'. apply assigned_cost_least; [|exact Hls'].
      intros n Hn j Hj. apply (Hnear n Hn). exact Hj.
  - exfalso. apply (objective_nan self X cs D v Hself points some_point some_coordinate Hnan).
    exact Hobj.
Qed.

(** One turn: a finite objective after a finite objective is not larger. *)
Lemma turn_descends (self : KMeans.state) (cs cs' : mat) (ls : list nat) (u v : R) :
  centroid_rows D cs -> (length cs <= Z.to_nat (KMeans.k self))%nat ->
  KMeans.cluster_assignment (lift_m X) cs = Ok ls ->
  KMeans.update_centroids self (lift_m X) ls = Ok cs' ->
  KMeans.objective (KMeans.set_centroids self cs) (lift_m X) = Ok (Fin u) ->
  KMeans.objective (KMeans.set_centroids self cs') (lift_m X) = Ok (Fin v) ->
  v <= u.
Proof.
  intros Hshape Hk Hls Hcs' Hu Hv.
  destruct (cluster_assignment_returns _ _ _ Hls) as [Hlen _].
  rewrite lift_m_length in Hlen.
  destruct (update_centroids_shape self X ls D cs' points some_point Hlen Hcs')
    as [Hshape' Hk'].
  destruct (objective_finite (KMeans.set_centroids self cs) cs u eq_refl Hshape Hu)
    as [Cs [ls0 [ECs [HCs [Els0 [Eu [Hrange _]]]]]]].
  rewrite Hls in Els0. injection Els0 as <-.
  destruct (objective_finite (KMeans.set_centroids self cs') cs' v eq_refl Hshape' Hv)
    as [Cs' [ls' [ECs' [HCs' [_ [Ev [_ Hleast]]]]]]].
  subst cs cs' u v. rewrite !lift_m_length in *.
  apply Rle_trans with (assigned_cost X Cs' ls).
  - apply Hleast. intros n Hn. specialize (Hrange n Hn). lia.
  - apply (means_lower_cost X Cs Cs' ls D (length Cs')); try assumption.
    + intros n Hn. specialize (Hrange n Hn). lia.
    + intros i Hi Hin.
      rewrite (update_centroids_tab self X ls D points some_point Hlen) in Hcs'.
      injection Hcs' as Hcs'.
      apply (f_equal (fun m => nth i m [])) in Hcs'.
      rewrite (tab_nth _ i _ []) in Hcs' by lia. rewrite lift_m_nth in Hcs'.
      destruct (Req_dec_T (cluster_size ls i) 0) as [Ez|_].
      * apply cluster_size_zero in Ez. contradiction.
      * apply lift_v_injective. symmetry. exact Hcs'.
Qed.

(** The values the loop appends. *)
Lemma fit_loop_descends (turns : nat) :
  forall (self self' : KMeans.state) (cs : mat) (ub : float64),
  KMeans.centroids self = Some cs -> centroid_rows D cs ->
  (length cs <= Z.to_nat (KMeans.k self))%nat ->
  (forall a b, ub = Fin a -> KMeans.objective self (lift_m X) = Ok (Fin b) -> b <= a) ->
  KMeans.fit_loop (lift_m X) turns self = Ok self' ->
  exists new : vec,
    KMeans.objective_values self' = KMeans.objective_values self ++ new
    /\ (length new <= turns)%nat
    /\ descends (ub :: new).
Proof.
  induction turns as [|turns IH]; intros self self' cs ub Hself Hshape Hk Hub Hfit.
  - simpl in Hfit. injection Hfit as <-. exists []. rewrite app_nil_r.
    split; [reflexivity|]. split; [simpl; lia|apply descends_one].
  - cbn [KMeans.fit_loop] in Hfit. rewrite Hself in Hfit. cbn [bind] in Hfit.
    destruct (KMeans.cluster_assignment (lift_m X) cs) as [ls|] eqn:Hls; [|discriminate Hfit].
    cbn [bind] in Hfit.
    destruct (KMeans.update_centroids (KMeans.set_labels self ls) (lift_m X) ls)
      as [cs'|] eqn:Hcs'; [|discriminate Hfit].
    cbn [bind] in Hfit.
    destruct (KMeans.objective (KMeans.set_labels self ls) (lift_m X))
      as [ov|] eqn:Hov; [|discriminate Hfit].
    cbn [bind] in Hfit.
    destruct (np_allclose cs cs') as [close|]; [|discriminate Hfit].
    cbn [bind] in Hfit.
    assert (Hpair : forall a b, ub = Fin a -> ov = Fin b -> b <= a).
    { intros a b Ea Eb. apply (Hub a b Ea). rewrite <- Eb, <- Hov.
      apply objective_reads_centroids. reflexivity. }
    destruct close.
    + injection Hfit as <-. exists [ov]. split; [reflexivity|]. split; [simpl; lia|].
      apply descends_cons; [exact Hpair|apply descends_one].
    + destruct (cluster_assignment_returns _ _ _ Hls) as [Hlen _].
      rewrite lift_m_length in Hlen.
      destruct (update_centroids_shape _ X ls D cs' points some_point Hlen Hcs')
        as [Hshape' Hk'].
      set (next := KMeans.set_centroids
                     (KMeans.append_objective (KMeans.set_labels self ls) ov) cs') in *.
      assert (Hk'' : (length cs' <= Z.to_nat (KMeans.k next))%nat)
        by (cbn; cbn in Hk'; lia).
      assert (Hbound : forall a b, ov = Fin a ->
                KMeans.objective next (lift_m X) = Ok (Fin b) -> b <= a).
      { intros a b Ea Eb. subst ov.
        apply (turn_descends (KMeans.set_labels self ls) cs cs' ls a b Hshape Hk Hls Hcs').
        - rewrite <- Hov. apply objective_reads_centroids. cbn. symmetry. exact Hself.
        - rewrite <- Eb. apply objective_reads_centroids. reflexivity. }
      destruct (IH next self' cs' ov eq_refl Hshape' Hk'' Hbound Hfit)
        as [new [Enew [Hlen' Hdesc]]].
      exists (ov :: new). cbn in Enew.
      rewrite Enew, <- app_assoc. split; [reflexivity|]. split; [simpl; lia|].
      apply descends_cons; assumption.
Qed.

End Descent.

(** X14.  On finite points of at least one coordinate, the objective
    values that a call of [fit] appends never go up from one finite
    value to the next: a turn of assignment and update does not raise
    the objective.  (A value is not finite once a cluster has lost all
    its points.) *)
Theorem fit_objective_descends (G : generator) (self self' : KMeans.state)
  (X : list (list R)) (D : nat) (s s' : random_state G) :
  rows_of D X -> (0 < length X)%nat -> (0 < D)%nat ->
  KMeans.fit G self (lift_m X) s = (Ok self', s') ->
  exists new : vec,
    KMeans.objective_values self' = KMeans.objective_values self ++ new
    /\ (length new <= Z.to_nat (KMeans.max_iters self))%nat
    /\ descends new.
Proof.
  intros points some_point some_coordinate Hfit. unfold KMeans.fit in Hfit.
  destruct (KMeans.initialize_centroids G self (lift_m X) s) as [[c|e] s1] eqn:Hinit;
    [|discriminate Hfit].
  cbn [bind] in Hfit. injection Hfit as Hfit _.
  destruct (initialize_centroids_shape G self X D s s1 c points Hinit) as [Hshape Hk].
  destruct (fit_loop_descends X D points some_point some_coordinate _
              (KMeans.set_centroids self c) self' c NaN eq_refl Hshape Hk
              ltac:(discriminate) Hfit) as [new [Enew [Hlen Hdesc]]].
  exists new. split; [exact Enew|]. split; [exact Hlen|].
  apply (descends_tail NaN). exact Hdesc.
Qed.


(** ** What [fit] leaves in the instance *)

Lemma update_centroids_reads_k (self self' : KMeans.state) (data : mat) (ls : list nat) :
  KMeans.k self = KMeans.k self' ->
  KMeans.update_centroids self data ls = KMeans.update_centroids self' data ls.
Proof. intros E. unfold KMeans.update_centroids. rewrite E. reflexivity. Qed.

Lemma fit_loop_keeps (data : mat) (turns : nat) :
  forall self self' : KMeans.state,
  KMeans.fit_loop data turns self = Ok self' ->
  KMeans.k self' = KMeans.k self /\ KMeans.max_iters self' = KMeans.max_iters self.
Proof.
  induction turns as [|turns IH]; intros self self' Hfit.
  - simpl in Hfit. injection Hfit as <-. split; reflexivity.
  - cbn [KMeans.fit_loop] in Hfit.
    destruct (KMeans.centroids self) as [cs|]; [|discriminate Hfit]. cbn [bind] in Hfit.
    destruct (KMeans.cluster_assignment data cs) as [ls|]; [|discriminate Hfit].
    cbn [bind] in Hfit.
    destruct (KMeans.update_centroids _ data ls) as [cs'|]; [|discriminate Hfit].
    cbn [bind] in Hfit.
    destruct (KMeans.objective _ data) as [ov|]; [|discriminate Hfit]. cbn [bind] in Hfit.
    destruct (np_allclose cs cs') as [[|]|]; [| |discriminate Hfit]; cbn [bind] in Hfit.
    + injection Hfit as <-. split; reflexivity.
    + destruct (IH _ _ Hfit) as [Hk Hm]. split; [exact Hk|exact Hm].
Qed.

(** One turn of the loop that did not raise. *)
Lemma fit_loop_step (data : mat) (turns : nat) (self self' : KMeans.state) :
  KMeans.fit_loop data (S turns) self = Ok self' ->
  exists (cs : mat) (ls : list nat) (cs' : mat) (ov : float64) (close : bool),
    KMeans.centroids self = Some cs
    /\ KMeans.cluster_assignment data cs = Ok ls
    /\ KMeans.update_centroids (KMeans.set_labels self ls) data ls = Ok cs'
    /\ KMeans.objective (KMeans.set_labels self ls) data = Ok ov
    /\ np_allclose cs cs' = Ok close
    /\ (if close
        then self' = KMeans.append_objective (KMeans.set_labels self ls) ov
        else KMeans.fit_loop data turns
               (KMeans.set_centroids
                  (KMeans.append_objective (KMeans.set_labels self ls) ov) cs')
             = Ok self').
Proof.
  intros Hfit. cbn [KMeans.fit_loop] in Hfit.
  destruct (KMeans.centroids self) as [cs|] eqn:E1; [|discriminate Hfit].
  cbn [bind] in Hfit.
  destruct (KMeans.cluster_assignment data cs) as [ls|] eqn:E2; [|discriminate Hfit].
  cbn [bind] in Hfit.
  destruct (KMeans.update_centroids _ data ls) as [cs'|] eqn:E3; [|discriminate Hfit].
  cbn [bind] in Hfit.
  destruct (KMeans.objective _ data) as [ov|] eqn:E4; [|discriminate Hfit].
  cbn [bind] in Hfit.
  destruct (np_allclose cs cs') as [close|] eqn:E5; [|discriminate Hfit].
  cbn [bind] in Hfit.
  exists cs, ls, cs', ov, close.
  repeat (split; [first [reflexivity|assumption]|]).
  destruct close; [injection Hfit as <-; reflexivity|exact Hfit].
Qed.

Lemma fit_loop_agrees (data : mat) (turns : nat) :
  forall self self' : KMeans.state,
  KMeans.fit_loop data (S turns) self = Ok self' ->
  exists (cs : mat) (ls : list nat),
    KMeans.centroids self' = Some cs /\ KMeans.labels self' = Some ls
    /\ (KMeans.cluster_assignment data cs = Ok ls
        \/ KMeans.update_centroids self' data ls = Ok cs).
Proof.
  induction turns as [|turns IH]; intros self self' Hfit;
    destruct (fit_loop_step data _ self self' Hfit)
      as [cs [ls [cs' [ov [close [Hcs [Hls [Hcs' [_ [_ Hnext]]]]]]]]]];
    destruct close.
  - subst self'. exists cs, ls. cbn. split; [exact Hcs|]. split; [reflexivity|].
    left. exact Hls.
  - simpl in Hnext. injection Hnext as <-. exists cs', ls. cbn.
    split; [reflexivity|]. split; [reflexivity|]. right.
    rewrite <- Hcs'. apply update_centroids_reads_k. reflexivity.
  - subst self'. exists cs, ls. cbn. split; [exact Hcs|]. split; [reflexivity|].
    left. exact Hls.
  - apply (IH _ _ Hnext).
Qed.

(** X15.  After a call of [fit] that ran at least one turn, the labels
    and the centroids of the instance agree in one of two ways: the
    labels are the assignment to the centroids (the loop stopped on
    [np.allclose]), or the centroids are the update for the labels (the
    turns ran out, and the labels are one assignment behind). *)
Theorem fit_labels_and_centroids (G : generator) (self self' : KMeans.state) (data : mat)
  (s s' : random_state G) :
  (0 < KMeans.max_iters self)%Z ->
  KMeans.fit G self data s = (Ok self', s') ->
  exists (cs : mat) (ls : list nat),
    KMeans.centroids self' = Some cs /\ KMeans.labels self' = Some ls
    /\ (KMeans.cluster_assignment data cs = Ok ls
        \/ KMeans.update_centroids self' data ls = Ok cs).
Proof.
  intros Hturns Hfit. unfold KMeans.fit in Hfit.
  destruct (KMeans.initialize_centroids G self data s) as [[c|e] s1]; [|discriminate Hfit].
  cbn [bind] in Hfit. injection Hfit as Hfit _.
  destruct (Z.to_nat (KMeans.max_iters self)) as [|turns] eqn:Et; [lia|].
  apply (fit_loop_agrees data turns _ _ Hfit).
Qed.

(** ** A call of [fit] on finite points *)

Lemma mapM_returns {A B : Type} (f : A -> result B) (l : list A) :
  (forall a, In a l -> exists b, f a = Ok b) -> exists l', mapM f l = Ok l'.
Proof.
  induction l as [|a l IH]; intros H; [exists []; reflexivity|].
  destruct (H a (or_introl eq_refl)) as [b Eb].
  destruct IH as [l' El']; [intros a' Ha'; apply H; right; exact Ha'|].
  exists (b :: l'). simpl. rewrite Eb. cbn [bind]. rewrite El'. reflexivity.
Qed.

Lemma cdist_shaped (X : list (list R)) (cs : mat) (D : nat) :
  rows_of D X -> centroid_rows D cs ->
  cdist (lift_m X) cs = Ok (map (fun u => map (euclidean u) cs) (lift_m X)).
Proof.
  intros HX Hcs. unfold cdist.
  assert ((is_nil (lift_m X) || is_nil cs || (shape1 (lift_m X) =? shape1 cs)%nat)%bool
          = true) as ->; [|reflexivity].
  destruct X as [|x X]; [reflexivity|]. destruct cs as [|c cs]; [reflexivity|].
  pose proof (centroid_rows_width D _ Hcs) as Hw.
  inversion HX; inversion Hw; subst. cbn. unfold lift_v. rewrite length_map.
  replace (length c) with (length x) by congruence. apply Nat.eqb_refl.
Qed.

Lemma cluster_assignment_shaped (X : list (list R)) (cs : mat) (D : nat) :
  rows_of D X -> centroid_rows D cs -> cs <> [] ->
  exists ls, KMeans.cluster_assignment (lift_m X) cs = Ok ls.
Proof.
  intros HX Hcs Hne. unfold KMeans.cluster_assignment.
  rewrite (cdist_shaped X cs D HX Hcs). cbn [bind]. unfold argmin_axis1.
  rewrite (not_nil_length cs Hne). apply mapM_returns.
  intros row Hrow. apply in_map_iff in Hrow. destruct Hrow as [u [<- _]].
  destruct cs as [|c cs]; [congruence|]. cbn [map argmin]. eexists. reflexivity.
Qed.

Lemma objective_shaped (self : KMeans.state) (X : list (list R)) (cs : mat) (D : nat) :
  KMeans.centroids self = Some cs ->
  rows_of D X -> centroid_rows D cs -> cs <> [] ->
  exists ov, KMeans.objective self (lift_m X) = Ok ov.
Proof.
  intros Hself HX Hcs Hne. unfold KMeans.objective. rewrite Hself. cbn [bind].
  rewrite (cdist_shaped X cs D HX Hcs). cbn [bind]. unfold min_axis1.
  rewrite (not_nil_length cs Hne).
  destruct (mapM_returns np_min (map (fun u => map (euclidean u) cs) (lift_m X)))
    as [mins E].
  - intros row Hrow. apply in_map_iff in Hrow. destruct Hrow as [u [<- _]].
    destruct cs as [|c cs]; [congruence|]. cbn [map np_min]. eexists. reflexivity.
  - rewrite E. cbn [bind]. eexists. reflexivity.
Qed.

Lemma broadcast_same_length {A B C : Type} (f : A -> B -> result C) (u : list A)
  (v : list B) :
  length u = length v ->
  (forall a b, In a u -> In b v -> exists c, f a b = Ok c) ->
  exists w, broadcast f u v = Ok w.
Proof.
  intros Hlen Hf. unfold broadcast. rewrite Hlen, Nat.eqb_refl.
  apply mapM_returns. intros [a b] Hab. cbn [fst snd].
  apply Hf; [apply (in_combine_l _ _ _ _ Hab)|apply (in_combine_r _ _ _ _ Hab)].
Qed.

Lemma np_allclose_shaped (cs cs' : mat) (D : nat) :
  rows_of D cs -> rows_of D cs' -> length cs = length cs' ->
  exists close, np_allclose cs cs' = Ok close.
Proof.
  intros Hcs Hcs' Hlen. unfold np_allclose.
  destruct (broadcast_same_length (broadcast (fun x y => Ok (isclose x y))) cs cs' Hlen)
    as [w Ew].
  - intros a b Ha Hb. apply broadcast_same_length.
    + unfold rows_of in *. rewrite Forall_forall in *. rewrite (Hcs a Ha), (Hcs' b Hb).
      reflexivity.
    + intros x y _ _. eexists. reflexivity.
  - rewrite Ew. cbn [bind]. eexists. reflexivity.
Qed.

Section Returns.

Variables (X : list (list R)) (D : nat).
Hypothesis points : rows_of D X.
Hypothesis some_point : (0 < length X)%nat.

(** The loop does not raise, whatever clusters run empty. *)
Lemma fit_loop_returns (turns : nat) :
  forall (self : KMeans.state) (cs : mat),
  KMeans.centroids self = Some cs -> centroid_rows D cs -> cs <> [] ->
  length cs = Z.to_nat (KMeans.k self) ->
  exists (self' : KMeans.state) (cs' : mat),
    KMeans.fit_loop (lift_m X) turns self = Ok self'
    /\ KMeans.centroids self' = Some cs'
    /\ centroid_rows D cs' /\ length cs' = Z.to_nat (KMeans.k self).
Proof.
  induction turns as [|turns IH]; intros self cs Hself Hshape Hne Hk.
  - exists self, cs. repeat split; assumption.
  - cbn [KMeans.fit_loop]. rewrite Hself. cbn [bind].
    destruct (cluster_assignment_shaped X cs D points Hshape Hne) as [ls Hls].
    rewrite Hls. cbn [bind].
    destruct (cluster_assignment_returns _ _ _ Hls) as [Hlen _].
    rewrite lift_m_length in Hlen.
    rewrite (update_centroids_tab (KMeans.set_labels self ls) X ls D points some_point Hlen).
    cbn [bind].
    set (cs' := tab (Z.to_nat (KMeans.k (KMeans.set_labels self ls))) _).
    assert (Hupd : KMeans.update_centroids (KMeans.set_labels self ls) (lift_m X) ls = Ok cs')
      by (apply (update_centroids_tab _ X ls D points some_point Hlen)).
    destruct (update_centroids_shape _ X ls D cs' points some_point Hlen Hupd)
      as [Hshape' Hk'].
    cbn [KMeans.k KMeans.set_labels] in Hk'.
    destruct (objective_shaped (KMeans.set_labels self ls) X cs D Hself points Hshape Hne)
      as [ov Hov].
    rewrite Hov. cbn [bind].
    destruct (np_allclose_shaped cs cs' D (centroid_rows_width D cs Hshape)
                (centroid_rows_width D cs' Hshape') ltac:(lia)) as [close Hclose].
    rewrite Hclose. cbn [bind]. destruct close.
    + eexists _, cs. split; [reflexivity|]. cbn. repeat split; assumption.
    + assert (Hne' : cs' <> []).
      { intros E. rewrite E in Hk'. simpl in Hk'. destruct cs; [congruence|].
        simpl in Hk. lia. }
      destruct (IH (KMeans.set_centroids
                      (KMeans.append_objective (KMeans.set_labels self ls) ov) cs')
                   cs' eq_refl Hshape' Hne' Hk') as [self' [cs'' [Hfit [H1 [H2 H3]]]]].
      exists self', cs''. split; [exact Hfit|]. split; [exact H1|]. split; [exact H2|exact H3].
Qed.

Lemma initialize_centroids_returns (G : generator) (self : KMeans.state) (K : nat)
  (s : random_state G) :
  shuffles G -> KMeans.k self = Z.of_nat K -> (0 < K <= length X)%nat ->
  exists c : mat,
    KMeans.initialize_centroids G self (lift_m X) s
    = (Ok c, snd (permutation G (length X) s))
    /\ centroid_rows D c /\ length c = K.
Proof.
  intros HG Hk [HK HN]. unfold KMeans.initialize_centroids. rewrite Hk, lift_m_length.
  rewrite random_choice_accepts by exact HN.
  destruct (firstn_shuffle (fst (permutation G (length X) s)) (length X) K (HG _ _) HN)
    as [Hlen [_ Hlt]].
  cbn [bind]. rewrite (mapM_index (lift_m X) [] _)
    by (rewrite lift_m_length; exact Hlt).
  eexists. split; [reflexivity|]. split; [|rewrite length_map; exact Hlen].
  apply Forall_forall. intros row Hrow. apply in_map_iff in Hrow.
  destruct Hrow as [i [<- Hi]]. left. rewrite lift_m_nth. eexists. split; [|reflexivity].
  apply rows_of_nth; [exact points|]. rewrite Forall_forall in Hlt. apply Hlt. exact Hi.
Qed.

End Returns.

(** A call on finite points with [1 <= k <= N]. *)
Lemma fit_runs (G : generator) (self : KMeans.state) (X : list (list R)) (D K : nat)
  (s : random_state G) :
  shuffles G -> rows_of D X -> KMeans.k self = Z.of_nat K -> (0 < K <= length X)%nat ->
  exists (self' : KMeans.state) (cs : mat),
    KMeans.fit G self (lift_m X) s = (Ok self', snd (permutation G (length X) s))
    /\ KMeans.centroids self' = Some cs /\ length cs = K /\ centroid_rows D cs
    /\ KMeans.k self' = KMeans.k self /\ KMeans.max_iters self' = KMeans.max_iters self.
Proof.
  intros HG HX Hk HK.
  assert (HN : (0 < length X)%nat) by lia.
  destruct (initialize_centroids_returns X D HX G self K s HG Hk HK) as [c [Hinit [Hshape Hlen]]].
  assert (Hne : c <> []) by (intros E; rewrite E in Hlen; simpl in Hlen; lia).
  destruct (fit_loop_returns X D HX HN (Z.to_nat (KMeans.max_iters self))
              (KMeans.set_centroids self c) c eq_refl Hshape Hne
              ltac:(cbn; rewrite Hk, Nat2Z.id; exact Hlen))
    as [self' [cs [Hfit [Hcs [Hshape' Hlen']]]]].
  exists self', cs. unfold KMeans.fit. rewrite Hinit. cbn [bind]. rewrite Hfit.
  split; [reflexivity|]. split; [exact Hcs|].
  cbn [KMeans.k KMeans.set_centroids] in Hlen'. rewrite Hk, Nat2Z.id in Hlen'.
  split; [exact Hlen'|]. split; [exact Hshape'|].
  apply (fit_loop_keeps _ _ _ _ Hfit).
Qed.

(** X16.  On finite points, with a generator that shuffles and
    [1 <= k <= N], [fit] raises nothing, whatever clusters run empty on
    the way: it leaves [k] centroids, each a finite point or a row of
    nan, keeps [k] and [max_iters], and leaves the generator as
    [np.random.choice] left it. *)
Theorem fit_returns (G : generator) (self : KMeans.state) (X : list (list R)) (D K : nat)
  (s : random_state G) :
  shuffles G -> rows_of D X -> KMeans.k self = Z.of_nat K -> (0 < K <= length X)%nat ->
  exists (self' : KMeans.state) (cs : mat),
    KMeans.fit G self (lift_m X) s = (Ok self', snd (permutation G (length X) s))
    /\ KMeans.centroids self' = Some cs /\ length cs = K /\ centroid_rows D cs
    /\ KMeans.k self' = KMeans.k self /\ KMeans.max_iters self' = KMeans.max_iters self.
Proof. intros HG HX Hk HK. apply fit_runs; assumption. Qed.

Lemma fit_returns_witness :
  exists (self' : KMeans.state) (cs : mat),
    KMeans.fit rotating (KMeans.init 2 100) (lift_m triangle) 0%Z
    = (Ok self', snd (permutation rotating (length triangle) 0%Z))
    /\ KMeans.centroids self' = Some cs /\ length cs = 2%nat /\ centroid_rows 2 cs
    /\ KMeans.k self' = KMeans.k (KMeans.init 2 100)
    /\ KMeans.max_iters self' = KMeans.max_iters (KMeans.init 2 100).
Proof.
  apply (fit_returns rotating (KMeans.init 2 100) triangle 2 2 0%Z).
  - exact rotating_shuffles.
  - repeat constructor.
  - reflexivity.
  - simpl. lia.
Defined.

Lemma fit_objective_descends_witness :
  exists (self' : KMeans.state) (new : vec),
    fst (KMeans.fit rotating (KMeans.init 2 100) (lift_m triangle) 0%Z) = Ok self'
    /\ KMeans.objective_values self' = KMeans.objective_values (KMeans.init 2 100) ++ new
    /\ (length new <= Z.to_nat (KMeans.max_iters (KMeans.init 2 100)))%nat
    /\ descends new.
Proof.
  destruct (fit_runs rotating (KMeans.init 2 100) triangle 2 2 0%Z rotating_shuffles
              ltac:(repeat constructor) eq_refl ltac:(simpl; lia))
    as [self' [cs [Hfit _]]].
  destruct (fit_objective_descends rotating (KMeans.init 2 100) self' triangle 2 0%Z _
              ltac:(repeat constructor) ltac:(simpl; lia) ltac:(lia) Hfit)
    as [new Hnew].
  exists self', new. rewrite Hfit. split; [reflexivity|exact Hnew].
Defined.

Lemma fit_labels_and_centroids_witness :
  exists (self' : KMeans.state) (cs : mat) (ls : list nat),
    fst (KMeans.fit rotating (KMeans.init 2 100) (lift_m triangle) 0%Z) = Ok self'
    /\ KMeans.centroids self' = Some cs /\ KMeans.labels self' = Some ls
    /\ (KMeans.cluster_assignment (lift_m triangle) cs = Ok ls
        \/ KMeans.update_centroids self' (lift_m triangle) ls = Ok cs).
Proof.
  destruct (fit_runs rotating (KMeans.init 2 100) triangle 2 2 0%Z rotating_shuffles
              ltac:(repeat constructor) eq_refl ltac:(simpl; lia))
    as [self' [cs0 [Hfit _]]].
  destruct (fit_labels_and_centroids rotating (KMeans.init 2 100) self' (lift_m triangle)
              0%Z _ ltac:(simpl; lia) Hfit) as [cs [ls H]].
  exists self', cs, ls. rewrite Hfit. split; [reflexivity|exact H].
Defined.

(** ** Calls that [fit] refuses *)

(** X17.  [fit] raises [ValueError] when [k] is negative or larger than
    the number of points (from [np.random.choice]), and when [k] is 0
    and a turn is to be run (from [np.argmin] over no centroid). *)
Theorem fit_rejects (G : generator) (self : KMeans.state) (data : mat) (s : random_state G) :
  (KMeans.k self < 0)%Z \/ (Z.of_nat (length data) < KMeans.k self)%Z
  \/ (KMeans.k self = 0%Z /\ (0 < KMeans.max_iters self)%Z) ->
  fst (KMeans.fit G self data s) = Raise ValueError.
Proof.
  intros H. unfold KMeans.fit, KMeans.initialize_centroids.
  destruct H as [H|[H|[Hk Hturns]]].
  - rewrite random_choice_rejects by (left; exact H). reflexivity.
  - rewrite random_choice_rejects by (right; exact H). reflexivity.
  - rewrite Hk. unfold random_choice.
    rewrite andb_false_r. cbn [negb Z.eqb].
    destruct (Z.ltb_spec (Z.of_nat (length data)) 0); [lia|]. cbn [Z.ltb Z.compare].
    destruct (permutation G (length data) s) as [p s1]. cbn [bind fst Z.to_nat firstn mapM].
    destruct (Z.to_nat (KMeans.max_iters self)) as [|turns] eqn:Et; [lia|].
    cbn [KMeans.fit_loop KMeans.centroids KMeans.set_centroids bind].
    unfold KMeans.cluster_assignment, cdist.
    rewrite orb_true_r. cbn [orb bind]. reflexivity.
Qed.

Lemma fit_rejects_witness :
  fst (KMeans.fit rotating (KMeans.init 10 100) (lift_m triangle) 0%Z) = Raise ValueError.
Proof.
  apply fit_rejects. right. left. simpl. lia.
Defined.

(** ** The first centroids *)

(** X18.  For [0 <= k <= N], with a generator that shuffles,
    [initialize_centroids] returns the points at [k] distinct positions
    of the data: the first [k] of a permutation of [range(N)], drawn
    from the state the caller left the generator in (no seed is set
    here). *)
Theorem initialize_centroids_selection (G : generator) (self : KMeans.state) (data : mat)
  (K : nat) (s : random_state G) :
  shuffles G -> KMeans.k self = Z.of_nat K -> (K <= length data)%nat ->
  let drawn := permutation G (length data) s in
  let indices := firstn K (fst drawn) in
  KMeans.initialize_centroids G self data s
  = (Ok (map (fun i => nth i data []) indices), snd drawn)
  /\ length indices = K /\ NoDup indices
  /\ Forall (fun i => (i < length data)%nat) indices.
Proof.
  intros HG Hk HN drawn indices.
  destruct (firstn_shuffle (fst drawn) (length data) K (HG _ _) HN) as [Hlen [Hnd Hlt]].
  split; [|split; [|split]]; try assumption.
  unfold KMeans.initialize_centroids. rewrite Hk.
  rewrite random_choice_accepts by exact HN. fold drawn. fold indices.
  cbn [bind]. rewrite (mapM_index data [] indices Hlt). reflexivity.
Qed.

Lemma initialize_centroids_selection_witness :
  let drawn := permutation rotating (length (lift_m triangle)) 7%Z in
  let indices := firstn 2 (fst drawn) in
  KMeans.initialize_centroids rotating (KMeans.init 2 100) (lift_m triangle) 7%Z
  = (Ok (map (fun i => nth i (lift_m triangle) []) indices), snd drawn)
  /\ length indices = 2%nat /\ NoDup indices
  /\ Forall (fun i => (i < length (lift_m triangle))%nat) indices.
Proof.
  apply (initialize_centroids_selection rotating (KMeans.init 2 100) (lift_m triangle) 2
           7%Z).
  - exact rotating_shuffles.
  - reflexivity.
  - simpl. lia.
Defined.

(** * Coin flips *)

(** ** One turn of expectation-maximisation on any mixture *)

Section Mixture.

Variables N K : nat.
Variable w : nat -> R.
Variables dens dens' : nat -> nat -> R.

Let e (n : nat) : R := sigma K (fun k => w k * dens n k).
Let r (n k : nat) : R := w k * dens n k / e n.
Let nk (k : nat) : R := sigma N (fun n => r n k).
Let w' (k : nat) : R := nk k / INR N.

Hypothesis some_sample : (0 < N)%nat.
Hypothesis some_component : (0 < K)%nat.
Hypothesis weights_pos : forall k, (k < K)%nat -> 0 < w k.
Hypothesis weights_sum : sigma K w <= 1.
Hypothesis dens_pos : forall n k, (n < N)%nat -> (k < K)%nat -> 0 < dens n k.
Hypothesis dens'_pos : forall n k, (n < N)%nat -> (k < K)%nat -> 0 < dens' n k.
Hypothesis components_gain : forall k, (k < K)%nat ->
  0 <= sigma N (fun n => r n k * (ln (dens' n k) - ln (dens n k))).

Lemma mix_e_pos (n : nat) : (n < N)%nat -> 0 < e n.
Proof.
  intros Hn. apply sigma_pos; [exact some_component|].
  intros k Hk. apply Rmult_lt_0_compat; [apply weights_pos|apply dens_pos]; assumption.
Qed.

Lemma mix_r_pos (n k : nat) : (n < N)%nat -> (k < K)%nat -> 0 < r n k.
Proof.
  intros Hn Hk. unfold r, Rdiv. apply Rmult_lt_0_compat.
  - apply Rmult_lt_0_compat; [apply weights_pos|apply dens_pos]; assumption.
  - apply Rinv_0_lt_compat. apply mix_e_pos. exact Hn.
Qed.

Lemma mix_r_sum (n : nat) : (n < N)%nat -> sigma K (r n) = 1.
Proof.
  intros Hn. unfold r. rewrite (sigma_div K (e n) (fun k => w k * dens n k)).
  fold (e n). pose proof (mix_e_pos n Hn). field. lra.
Qed.

Lemma mix_nk_pos (k : nat) : (k < K)%nat -> 0 < nk k.
Proof.
  intros Hk. apply sigma_pos; [exact some_sample|]. intros n Hn. apply mix_r_pos; assumption.
Qed.

Lemma mix_nk_sum : sigma K nk = INR N.
Proof.
  unfold nk. rewrite sigma_swap.
  rewrite (sigma_ext N _ (fun _ => 1)) by (intros n Hn; apply mix_r_sum; exact Hn).
  rewrite sigma_const. ring.
Qed.

Lemma mix_w'_pos (k : nat) : (k < K)%nat -> 0 < w' k.
Proof.
  intros Hk. unfold w', Rdiv. apply Rmult_lt_0_compat; [apply mix_nk_pos; exact Hk|].
  apply Rinv_0_lt_compat. apply lt_0_INR. exact some_sample.
Qed.

(** The weights: Gibbs' inequality, for old weights of sum at most 1. *)
Lemma mix_weights : 0 <= sigma K (fun k => nk k * (ln (w' k) - ln (w k))).
Proof.
  assert (HN : 0 < INR N) by (apply lt_0_INR; exact some_sample).
  assert (H : sigma K (fun k => nk k * (ln (w k) - ln (w' k)))
              <= sigma K (fun k => INR N * w k - nk k)).
  { apply sigma_le. intros k Hk.
    pose proof (mix_nk_pos k Hk) as Hnk. pose proof (mix_w'_pos k Hk) as Hw'.
    pose proof (weights_pos k Hk) as Hw.
    pose proof (ln_bound (w k * / w' k)) as Hb.
    rewrite ln_mult, ln_Rinv in Hb; try lra; [|apply Rinv_0_lt_compat; exact Hw'].
    assert (0 < w k * / w' k) as Hp
      by (apply Rmult_lt_0_compat; [exact Hw|apply Rinv_0_lt_compat; exact Hw']).
    specialize (Hb Hp).
    assert (nk k * (ln (w k) - ln (w' k)) <= nk k * (w k * / w' k - 1))
      by (apply Rmult_le_compat_l; lra).
    assert (nk k * (w k * / w' k - 1) = INR N * w k - nk k) as E
      by (unfold w'; field; lra).
    lra. }
  rewrite sigma_minus, sigma_scal, mix_nk_sum in H.
  rewrite (sigma_ext K (fun k => nk k * (ln (w' k) - ln (w k)))
             (fun k => - (nk k * (ln (w k) - ln (w' k))))) by (intros; ring).
  rewrite sigma_opp.
  assert (INR N * sigma K w <= INR N * 1) by (apply Rmult_le_compat_l; lra).
  lra.
Qed.

(** One turn does not lower the log-likelihood. *)
Lemma mix_turn :
  sigma N (fun n => ln (e n))
  <= sigma N (fun n => ln (sigma K (fun k => w' k * dens' n k))).
Proof.
  assert (Hn : forall n, (n < N)%nat ->
            sigma K (fun k => r n k * (ln (w' k) - ln (w k) + (ln (dens' n k) - ln (dens n k))))
            <= ln (sigma K (fun k => w' k * dens' n k)) - ln (e n)).
  { intros n Hn. pose proof (mix_e_pos n Hn) as He.
    pose (a := fun k => w' k * dens' n k / (w k * dens n k)).
    assert (Ha : forall k, (k < K)%nat -> 0 < a k).
    { intros k Hk. unfold a, Rdiv. apply Rmult_lt_0_compat.
      - apply Rmult_lt_0_compat; [apply mix_w'_pos|apply dens'_pos]; assumption.
      - apply Rinv_0_lt_compat.
        apply Rmult_lt_0_compat; [apply weights_pos|apply dens_pos]; assumption. }
    assert (He' : 0 < sigma K (fun k => w' k * dens' n k)).
    { apply sigma_pos; [exact some_component|]. intros k Hk.
      apply Rmult_lt_0_compat; [apply mix_w'_pos|apply dens'_pos]; assumption. }
    assert (HA : sigma K (fun k => r n k * a k)
                 = sigma K (fun k => w' k * dens' n k) / e n).
    { rewrite <- sigma_div. apply sigma_ext. intros k Hk. unfold r, a.
      pose proof (weights_pos k Hk). pose proof (dens_pos n k Hn Hk). field. lra. }
    pose proof (jensen_ln K (r n) a
                  (fun k Hk => Rlt_le _ _ (mix_r_pos n k Hn Hk)) (mix_r_sum n Hn) Ha) as J.
    rewrite HA in J.
    assert (0 < sigma K (fun k => w' k * dens' n k) / e n) as Hq
      by (unfold Rdiv; apply Rmult_lt_0_compat; [exact He'|apply Rinv_0_lt_compat; exact He]).
    specialize (J Hq).
    assert (Hdiv : ln (sigma K (fun k => w' k * dens' n k) / e n)
                   = ln (sigma K (fun k => w' k * dens' n k)) - ln (e n)).
    { unfold Rdiv. rewrite ln_mult, ln_Rinv; try lra. apply Rinv_0_lt_compat; exact He. }
    rewrite Hdiv in J.
    apply Rle_trans with (sigma K (fun k => r n k * ln (a k))); [|lra].
    right. apply sigma_ext. intros k Hk. f_equal. unfold a, Rdiv.
    pose proof (mix_w'_pos k Hk). pose proof (dens'_pos n k Hn Hk).
    pose proof (weights_pos k Hk). pose proof (dens_pos n k Hn Hk).
    rewrite ln_mult, ln_Rinv, !ln_mult; try lra.
    - apply Rmult_lt_0_compat; lra.
    - apply Rmult_lt_0_compat; lra.
    - apply Rinv_0_lt_compat. apply Rmult_lt_0_compat; lra. }
  assert (Hall : sigma N (fun n => sigma K (fun k =>
                    r n k * (ln (w' k) - ln (w k) + (ln (dens' n k) - ln (dens n k)))))
                 <= sigma N (fun n => ln (sigma K (fun k => w' k * dens' n k)) - ln (e n)))
    by (apply sigma_le; exact Hn).
  rewrite sigma_minus in Hall.
  rewrite sigma_swap in Hall.
  rewrite (sigma_ext K _
     (fun k => nk k * (ln (w' k) - ln (w k))
               + sigma N (fun n => r n k * (ln (dens' n k) - ln (dens n k))))) in Hall.
  2:{ intros k _. unfold nk. rewrite <- sigma_scal_r, <- sigma_plus.
      apply sigma_ext. intros; ring. }
  rewrite sigma_plus in Hall.
  pose proof mix_weights as HW.
  assert (0 <= sigma K (fun k => sigma N (fun n => r n k * (ln (dens' n k) - ln (dens n k)))))
    as HG by (apply sigma_nonneg; intros k Hk; apply components_gain; exact Hk).
  lra.
Qed.

End Mixture.

(** ** The binomial probabilities *)

Lemma C_pos (d h : nat) : (h <= d)%nat -> 0 < C d h.
Proof.
  intros _. unfold C, Rdiv. apply Rmult_lt_0_compat; [apply INR_fact_lt_0|].
  apply Rinv_0_lt_compat. apply Rmult_lt_0_compat; apply INR_fact_lt_0.
Qed.

Lemma heads_probability_pos (d h : nat) (p : R) :
  (h <= d)%nat -> 0 < p < 1 -> 0 < heads_probability d h p.
Proof.
  intros Hh [Hp0 Hp1]. unfold heads_probability.
  apply Rmult_lt_0_compat; [apply Rmult_lt_0_compat|].
  - apply C_pos. exact Hh.
  - apply pow_lt. exact Hp0.
  - apply pow_lt. lra.
Qed.

Lemma ln_heads_probability (d h : nat) (p : R) :
  (h <= d)%nat -> 0 < p < 1 ->
  ln (heads_probability d h p) = ln (C d h) + INR h * ln p + INR (d - h) * ln (1 - p).
Proof.
  intros Hh [Hp0 Hp1]. unfold heads_probability.
  pose proof (C_pos d h Hh). pose proof (pow_lt p h Hp0).
  assert (0 < (1 - p) ^ (d - h)) by (apply pow_lt; lra).
  rewrite !ln_mult; try lra; [|apply Rmult_lt_0_compat; lra].
  rewrite !ln_pow by lra. reflexivity.
Qed.

(** The gain of one coin: Gibbs' inequality for two outcomes. *)
Lemma coin_gain (N d : nat) (r : nat -> R) (h : nat -> nat) (p : R) :
  (0 < d)%nat -> (forall n, (n < N)%nat -> 0 < r n) ->
  (forall n, (n < N)%nat -> (h n <= d)%nat) ->
  (exists n, (n < N)%nat /\ (0 < h n)%nat) ->
  (exists n, (n < N)%nat /\ (h n < d)%nat) ->
  0 < p < 1 ->
  let p' := sigma N (fun n => r n * INR (h n)) / (INR d * sigma N r) in
  0 < p' < 1
  /\ 0 <= sigma N (fun n => r n * (ln (heads_probability d (h n) p')
                                   - ln (heads_probability d (h n) p))).
Proof.
  intros Hd Hr Hh [n0 [Hn0 Hh0]] [n1 [Hn1 Hh1]] Hp p'.
  assert (HN : (0 < N)%nat) by lia.
  assert (Htotal : 0 < sigma N r) by (apply sigma_pos; assumption).
  assert (HdR : 0 < INR d) by (apply lt_0_INR; exact Hd).
  set (A := sigma N (fun n => r n * INR (h n))) in *.
  set (B := sigma N (fun n => r n * INR (d - h n))).
  assert (HAB : A + B = INR d * sigma N r).
  { unfold A, B. rewrite <- sigma_plus, <- sigma_scal. apply sigma_ext. intros n Hn.
    rewrite minus_INR by (apply Hh; exact Hn). ring. }
  assert (HA : 0 < A).
  { pose proof (sigma_term_le N (fun n => r n * INR (h n)) n0) as H. cbv beta in H.
    assert (0 < r n0 * INR (h n0))
      by (apply Rmult_lt_0_compat; [apply Hr; exact Hn0|apply lt_0_INR; exact Hh0]).
    specialize (H (fun n Hn => Rmult_le_pos _ _ (Rlt_le _ _ (Hr n Hn)) (pos_INR _)) Hn0).
    fold A in H. lra. }
  assert (HB : 0 < B).
  { pose proof (sigma_term_le N (fun n => r n * INR (d - h n)) n1) as H. cbv beta in H.
    assert (0 < r n1 * INR (d - h n1))
      by (apply Rmult_lt_0_compat; [apply Hr; exact Hn1|apply lt_0_INR; lia]).
    specialize (H (fun n Hn => Rmult_le_pos _ _ (Rlt_le _ _ (Hr n Hn)) (pos_INR _)) Hn1).
    fold B in H. lra. }
  assert (Hdt : 0 < INR d * sigma N r) by (apply Rmult_lt_0_compat; assumption).
  assert (Hp' : 0 < p' < 1).
  { unfold p'. split.
    - unfold Rdiv. apply Rmult_lt_0_compat; [exact HA|apply Rinv_0_lt_compat; exact Hdt].
    - apply (Rmult_lt_reg_r (INR d * sigma N r)); [exact Hdt|].
      unfold Rdiv. rewrite Rmult_assoc, Rinv_l by lra. lra. }
  split; [exact Hp'|].
  rewrite (sigma_ext N _
             (fun n => (ln p' - ln p) * (r n * INR (h n))
                       + (ln (1 - p') - ln (1 - p)) * (r n * INR (d - h n)))).
  2:{ intros n Hn. rewrite !ln_heads_probability by (try apply Hh; assumption). ring. }
  rewrite sigma_plus, !sigma_scal. fold A B.
  assert (EA : A = INR d * sigma N r * p') by (unfold p'; field; lra).
  assert (EB : B = INR d * sigma N r * (1 - p')) by lra.
  rewrite EA, EB.
  destruct Hp as [Hp0 Hp1]. destruct Hp' as [Hp'0 Hp'1].
  pose proof (ln_bound (p * / p')) as G1.
  rewrite ln_mult, ln_Rinv in G1; try lra; [|apply Rinv_0_lt_compat; lra].
  specialize (G1 ltac:(apply Rmult_lt_0_compat; [lra|apply Rinv_0_lt_compat; lra])).
  pose proof (ln_bound ((1 - p) * / (1 - p'))) as G2.
  rewrite ln_mult, ln_Rinv in G2; try lra; [|apply Rinv_0_lt_compat; lra].
  specialize (G2 ltac:(apply Rmult_lt_0_compat; [lra|apply Rinv_0_lt_compat; lra])).
  assert (H1 : p' * (ln p - ln p') <= p - p').
  { apply Rle_trans with (p' * (p * / p' - 1)); [apply Rmult_le_compat_l; lra|].
    right. field. lra. }
  assert (H2 : (1 - p') * (ln (1 - p) - ln (1 - p')) <= (1 - p) - (1 - p')).
  { apply Rle_trans with ((1 - p') * ((1 - p) * / (1 - p') - 1));
      [apply Rmult_le_compat_l; lra|].
    right. field. lra. }
  assert (0 <= p' * (ln p' - ln p) + (1 - p') * (ln (1 - p') - ln (1 - p))) by lra.
  replace ((ln p' - ln p) * (INR d * sigma N r * p')
           + (ln (1 - p') - ln (1 - p)) * (INR d * sigma N r * (1 - p')))
    with (INR d * sigma N r * (p' * (ln p' - ln p) + (1 - p') * (ln (1 - p') - ln (1 - p))))
    by ring.
  apply Rmult_le_pos; lra.
Qed.

(** ** The functions on finite biases and priors *)

Lemma binom_pmf_support (d : nat) (hz : Z) (p : R) :
  (0 <= hz <= Z.of_nat d)%Z -> 0 <= p <= 1 ->
  Coin.binom_pmf hz (Z.of_nat d) (Fin p) = Fin (heads_probability d (Z.to_nat hz) p).
Proof.
  intros [Hh0 Hh1] [Hp0 Hp1]. unfold Coin.binom_pmf.
  destruct (Z.ltb_spec (Z.of_nat d) 0); [lia|].
  destruct (Rlt_dec p 0); [lra|]. destruct (Rlt_dec 1 p); [lra|].
  destruct (Z.ltb_spec hz 0); [lia|]. destruct (Z.ltb_spec (Z.of_nat d) hz); [lia|].
  cbn [orb]. unfold heads_probability. rewrite Nat2Z.id.
  replace (Z.to_nat (Z.of_nat d - hz)) with (d - Z.to_nat hz)%nat by lia. reflexivity.
Qed.

Section CoinCode.

Variables (data : list (list Z)) (d K : nat) (P W : list R).

Hypothesis heads_in_range : Forall (fun row => (0 <= zsum row <= Z.of_nat d)%Z) data.
Hypothesis biases_length : length P = K.
Hypothesis priors_length : length W = K.
Hypothesis biases_in_range : Forall (fun p => 0 <= p <= 1) P.

Let heads (n : nat) : nat := Z.to_nat (zsum (nth n data [])).
Let joint (n k : nat) : R := heads_probability d (heads n) (nth k P 0) * nth k W 0.

Lemma heads_range (n : nat) :
  (n < length data)%nat -> (0 <= zsum (nth n data []) <= Z.of_nat d)%Z.
Proof.
  intros Hn. rewrite Forall_forall in heads_in_range. apply heads_in_range.
  apply nth_In. exact Hn.
Qed.

Lemma heads_le (n : nat) : (n < length data)%nat -> (heads n <= d)%nat.
Proof. intros Hn. unfold heads. pose proof (heads_range n Hn). lia. Qed.

Lemma bias_range (k : nat) : (k < K)%nat -> 0 <= nth k P 0 <= 1.
Proof.
  intros Hk. rewrite Forall_forall in biases_in_range. apply biases_in_range.
  apply nth_In. lia.
Qed.

Lemma weighted_likelihoods_tab :
  Coin.weighted_likelihoods data (Z.of_nat d) (lift_v P) (lift_v W)
  = Ok (tab (length data) (fun n => tab K (fun k => Fin (joint n k)))).
Proof.
  unfold Coin.weighted_likelihoods, Coin.compatible.
  unfold lift_v at 1 2. rewrite !length_map, biases_length, priors_length, Nat.eqb_refl.
  cbn [orb]. f_equal. rewrite !map_map.
  rewrite (map_tab _ data []). apply tab_ext. intros n Hn.
  unfold Coin.times. rewrite length_map. unfold lift_v at 1 2.
  rewrite !length_map, biases_length, priors_length, Nat.eqb_refl.
  rewrite (lift_v_tab P), (lift_v_tab W), biases_length, priors_length.
  rewrite tab_map, zip_with_tab. apply tab_ext. intros k Hk.
  rewrite binom_pmf_support by (try apply heads_range; try apply bias_range; assumption).
  reflexivity.
Qed.

Lemma compute_responsibilities_tab :
  (forall n, (n < length data)%nat -> sigma K (joint n) <> 0) ->
  Coin.compute_responsibilities data (Z.of_nat d) (lift_v P) (lift_v W)
  = Ok (tab (length data) (fun n => tab K (fun k => Fin (joint n k / sigma K (joint n))))).
Proof.
  intros He. unfold Coin.compute_responsibilities. rewrite weighted_likelihoods_tab.
  cbn [bind]. rewrite normalize_rows_tab by exact He. reflexivity.
Qed.

Lemma log_likelihood_tab :
  (forall n, (n < length data)%nat -> 0 < sigma K (joint n)) ->
  Coin.log_likelihood data (Z.of_nat d) (lift_v P) (lift_v W)
  = Ok (Fin (sigma (length data) (fun n => ln (sigma K (joint n))))).
Proof.
  intros He. unfold Coin.log_likelihood. rewrite weighted_likelihoods_tab. cbn [bind].
  unfold sum_axis1. rewrite !tab_map.
  rewrite (tab_ext (length data) _ (fun n => Fin (ln (sigma K (joint n))))).
  - rewrite fsum_tab. reflexivity.
  - intros n Hn. rewrite (fsum_tab K (joint n)). specialize (He n Hn).
    simpl. destruct (Rlt_dec 0 (sigma K (joint n))); [reflexivity|contradiction].
Qed.

End CoinCode.

Lemma update_parameters_tab (data : list (list Z)) (d K : nat) (r : nat -> nat -> R) :
  (0 < length data)%nat -> (0 < d)%nat ->
  (forall k, (k < K)%nat -> sigma (length data) (fun n => r n k) <> 0) ->
  Coin.update_parameters data (Z.of_nat d)
    (tab (length data) (fun n => tab K (fun k => Fin (r n k))))
  = Ok (tab K (fun k => Fin (sigma (length data)
                               (fun n => r n k * IZR (zsum (nth n data [])))
                             / (INR d * sigma (length data) (fun n => r n k)))),
        tab K (fun k => Fin (sigma (length data) (fun n => r n k) / INR (length data)))).
Proof.
  intros HN Hd Ht. unfold Coin.update_parameters.
  rewrite tab_length, length_map, Nat.eqb_refl. cbn [bind].
  assert (HNR : INR (length data) <> 0) by (apply not_0_INR; lia).
  assert (HdR : INR d <> 0) by (apply not_0_INR; lia).
  assert (Htot : sum_axis0 (tab (length data) (fun n => tab K (fun k => Fin (r n k))))
                 = tab K (fun k => Fin (sigma (length data) (fun n => r n k)))).
  { rewrite (sum_axis0_ftab (length data) K (fun n k => Fin (r n k)) HN).
    apply tab_ext. intros k _. apply (fsum_tab (length data) (fun n => r n k)). }
  rewrite Htot. rewrite (transpose_tab2 (length data) K (fun n k => Fin (r n k)) HN).
  rewrite !tab_map, zip_with_tab. f_equal. f_equal.
  - apply tab_ext. intros k Hk.
    rewrite (map_tab (fun row => Fin (IZR (zsum row))) data []), zip_with_tab.
    change (fsum (tab (length data)
                    (fun i => fmul (Fin (r i k)) (Fin (IZR (zsum (nth i data [])))))))
      with (fsum (tab (length data)
                    (fun i => Fin (r i k * IZR (zsum (nth i data [])))))).
    rewrite (fsum_tab (length data) (fun n => r n k * IZR (zsum (nth n data [])))).
    cbn [fmul]. rewrite <- INR_IZR_INZ. apply fdiv_fin.
    apply Rmult_integral_contrapositive_currified; [exact HdR|apply Ht; exact Hk].
  - apply tab_ext. intros k _. apply fdiv_fin. exact HNR.
Qed.

(** ** One turn of [coin_probabilities] *)

Lemma Forall_nth_R (Q : R -> Prop) (l : list R) (k : nat) :
  Forall Q l -> (k < length l)%nat -> Q (nth k l 0).
Proof. intros H Hk. rewrite Forall_forall in H. apply H. apply nth_In. exact Hk. Qed.

Lemma Forall_tab {A : Type} (Q : A -> Prop) (n : nat) (f : nat -> A) :
  (forall i, (i < n)%nat -> Q (f i)) -> Forall Q (tab n f).
Proof.
  intros H. apply Forall_forall. intros a Ha. unfold tab in Ha. apply in_map_iff in Ha.
  destruct Ha as [i [<- Hi]]. apply in_seq in Hi. apply H. lia.
Qed.

(** A turn on finite parameters, by its entries. *)
Lemma coin_turn (data : list (list Z)) (d K : nat) (P W : list R) :
  (0 < d)%nat -> (0 < K)%nat ->
  Forall (fun row => (0 <= zsum row <= Z.of_nat d)%Z) data ->
  (exists row, In row data /\ (0 < zsum row)%Z) ->
  (exists row, In row data /\ (zsum row < Z.of_nat d)%Z) ->
  length P = K -> length W = K ->
  Forall (fun p => 0 < p < 1) P -> Forall (fun w => 0 < w) W ->
  sigma K (fun k => nth k W 0) <= 1 ->
  exists (R' : list (list R)) (P' W' : list R) (ll ll' : R),
    Coin.compute_responsibilities data (Z.of_nat d) (lift_v P) (lift_v W) = Ok (lift_m R')
    /\ Coin.update_parameters data (Z.of_nat d) (lift_m R') = Ok (lift_v P', lift_v W')
    /\ Coin.log_likelihood data (Z.of_nat d) (lift_v P) (lift_v W) = Ok (Fin ll)
    /\ Coin.log_likelihood data (Z.of_nat d) (lift_v P') (lift_v W') = Ok (Fin ll')
    /\ ll <= ll'
    /\ length P' = K /\ length W' = K
    /\ Forall (fun p => 0 < p < 1) P' /\ Forall (fun w => 0 < w) W'
    /\ sigma K (fun k => nth k W' 0) = 1.
Proof.
  intros Hd HK Hheads [row0 [Hrow0 Hsome]] [row1 [Hrow1 Hnot_all]] HP HW HPr HWp HWs.
  set (N := length data).
  assert (HN : (0 < N)%nat) by (unfold N; destruct data; [contradiction|simpl; lia]).
  pose (hz := fun n => zsum (nth n data [])).
  pose (hd := fun n => Z.to_nat (hz n)).
  assert (Hhz : forall n, (n < N)%nat -> (0 <= hz n <= Z.of_nat d)%Z)
    by (intros n Hn; apply (heads_range data d Hheads n Hn)).
  assert (Hhd : forall n, (n < N)%nat -> (hd n <= d)%nat)
    by (intros n Hn; unfold hd; specialize (Hhz n Hn); lia).
  assert (Hp : forall k, (k < K)%nat -> 0 < nth k P 0 < 1)
    by (intros k Hk; apply (Forall_nth_R _ P k HPr); lia).
  assert (Hw : forall k, (k < K)%nat -> 0 < nth k W 0)
    by (intros k Hk; apply (Forall_nth_R _ W k HWp); lia).
  pose (w := fun k => nth k W 0).
  pose (dens := fun n k => heads_probability d (hd n) (nth k P 0)).
  assert (Hdens : forall n k, (n < N)%nat -> (k < K)%nat -> 0 < dens n k)
    by (intros n k Hn Hk; apply heads_probability_pos; [apply Hhd; exact Hn|apply Hp; exact Hk]).
  pose (e := fun n => sigma K (fun k => w k * dens n k)).
  assert (He : forall n, (n < N)%nat -> 0 < e n).
  { intros n Hn. apply sigma_pos; [exact HK|]. intros k Hk.
    apply Rmult_lt_0_compat; [apply Hw; exact Hk|apply Hdens; assumption]. }
  pose (r := fun n k => w k * dens n k / e n).
  assert (Hr : forall n k, (n < N)%nat -> (k < K)%nat -> 0 < r n k).
  { intros n k Hn Hk. unfold r, Rdiv. apply Rmult_lt_0_compat.
    - apply Rmult_lt_0_compat; [apply Hw; exact Hk|apply Hdens; assumption].
    - apply Rinv_0_lt_compat. apply He. exact Hn. }
  pose (nk := fun k => sigma N (fun n => r n k)).
  assert (Hnk : forall k, (k < K)%nat -> 0 < nk k)
    by (intros k Hk; apply sigma_pos; [exact HN|]; intros n Hn; apply Hr; assumption).
  pose (p' := fun k => sigma N (fun n => r n k * INR (hd n)) / (INR d * nk k)).
  pose (w' := fun k => nk k / INR N).
  (* the samples with a head and with a tail *)
  assert (Hhead : exists n, (n < N)%nat /\ (0 < hd n)%nat).
  { destruct (In_nth data row0 [] Hrow0) as [n [Hn En]]. exists n. split; [exact Hn|].
    unfold hd, hz. rewrite En. lia. }
  assert (Htail : exists n, (n < N)%nat /\ (hd n < d)%nat).
  { destruct (In_nth data row1 [] Hrow1) as [n [Hn En]]. exists n. split; [exact Hn|].
    unfold hd, hz. rewrite En. pose proof (Hhz n Hn) as H. unfold hz in H. rewrite En in H.
    lia. }
  assert (Hgain : forall k, (k < K)%nat ->
            0 < p' k < 1
            /\ 0 <= sigma N (fun n => r n k * (ln (heads_probability d (hd n) (p' k))
                                               - ln (dens n k)))).
  { intros k Hk.
    apply (coin_gain N d (fun n => r n k) hd (nth k P 0) Hd
             (fun n Hn => Hr n k Hn Hk) Hhd Hhead Htail (Hp k Hk)). }
  pose (dens' := fun n k => heads_probability d (hd n) (p' k)).
  assert (Hdens' : forall n k, (n < N)%nat -> (k < K)%nat -> 0 < dens' n k).
  { intros n k Hn Hk. apply heads_probability_pos; [apply Hhd; exact Hn|].
    apply (Hgain k Hk). }
  assert (HNR : 0 < INR N) by (apply lt_0_INR; exact HN).
  assert (Hw' : forall k, (k < K)%nat -> 0 < w' k).
  { intros k Hk. unfold w', Rdiv. apply Rmult_lt_0_compat; [apply Hnk; exact Hk|].
    apply Rinv_0_lt_compat. exact HNR. }
  assert (He' : forall n, (n < N)%nat -> 0 < sigma K (fun k => dens' n k * w' k)).
  { intros n Hn. apply sigma_pos; [exact HK|]. intros k Hk.
    apply Rmult_lt_0_compat; [apply Hdens'; assumption|apply Hw'; exact Hk]. }
  (* the code *)
  subst N.
  exists (tab (length data) (fun n => tab K (fun k => r n k))), (tab K p'), (tab K w').
  exists (sigma (length data) (fun n => ln (e n))).
  exists (sigma (length data) (fun n => ln (sigma K (fun k => dens' n k * w' k)))).
  assert (HP01 : Forall (fun p => 0 <= p <= 1) P)
    by (eapply Forall_impl; [|exact HPr]; intros; cbv beta in *; lra).
  assert (Hlift : lift_m (tab (length data) (fun n => tab K (fun k => r n k)))
                  = tab (length data) (fun n => tab K (fun k => Fin (r n k)))).
  { unfold lift_m. rewrite tab_map. apply tab_ext. intros n _. apply tab_map. }
  split; [|split; [|split; [|split; [|split]]]].
  - rewrite (compute_responsibilities_tab data d K P W Hheads HP HW HP01).
    + rewrite Hlift. apply f_equal. apply tab_ext. intros n Hn. apply tab_ext. intros k Hk.
      apply f_equal. unfold r, e, dens, w, hd, hz. f_equal; [ring|].
      apply sigma_ext. intros; ring.
    + intros n Hn. apply Rgt_not_eq.
      rewrite (sigma_ext K _ (fun k => w k * dens n k)) by (intros; unfold w, dens, hd, hz; ring).
      apply (He n Hn).
  - rewrite Hlift.
    rewrite (update_parameters_tab data d K r HN Hd)
      by (intros k Hk; apply Rgt_not_eq; apply (Hnk k Hk)).
    unfold lift_v. rewrite !tab_map. apply f_equal. apply f_equal2; [|reflexivity].
    apply tab_ext. intros k Hk. apply f_equal. unfold p', nk. f_equal.
    apply sigma_ext. intros n Hn. f_equal. unfold hd. fold (hz n).
    rewrite INR_IZR_INZ, Z2Nat.id by (apply (Hhz n Hn)). reflexivity.
  - rewrite (log_likelihood_tab data d K P W Hheads HP HW HP01).
    + do 2 apply f_equal. apply sigma_ext. intros n Hn. f_equal. unfold e.
      apply sigma_ext. intros; unfold w, dens, hd, hz; ring.
    + intros n Hn.
      rewrite (sigma_ext K _ (fun k => w k * dens n k)) by (intros; unfold w, dens, hd, hz; ring).
      apply (He n Hn).
  - rewrite (log_likelihood_tab data d K (tab K p') (tab K w') Hheads
               (tab_length K p') (tab_length K w')).
    + do 2 apply f_equal. apply sigma_ext. intros n Hn. f_equal.
      apply sigma_ext. intros k Hk.
      rewrite (tab_nth K k p' 0 Hk), (tab_nth K k w' 0 Hk). reflexivity.
    + apply Forall_tab. intros k Hk. destruct (Hgain k Hk) as [[H0 H1] _]. lra.
    + intros n Hn.
      rewrite (sigma_ext K _ (fun k => dens' n k * w' k)).
      * apply (He' n Hn).
      * intros k Hk. rewrite (tab_nth K k p' 0 Hk), (tab_nth K k w' 0 Hk). reflexivity.
  - pose proof (mix_turn (length data) K w dens dens' HN HK Hw HWs Hdens Hdens'
                  (fun k Hk => proj2 (Hgain k Hk))) as H.
    eapply Rle_trans; [exact H|]. right. apply sigma_ext. intros n Hn. f_equal.
    apply sigma_ext. intros k Hk. unfold w'. fold (e n). unfold nk, r, e. ring.
  - split; [apply tab_length|]. split; [apply tab_length|].
    split; [apply Forall_tab; intros k Hk; apply (Hgain k Hk)|].
    split; [apply Forall_tab; exact Hw'|].
    rewrite (sigma_ext K _ w') by (intros k Hk; apply (tab_nth K k w' 0 Hk)).
    unfold w'. rewrite (sigma_div K (INR (length data)) nk). unfold nk. rewrite sigma_swap.
    rewrite (sigma_ext (length data) _ (fun _ => 1)).
    + rewrite sigma_const. field. lra.
    + intros n Hn. unfold r. rewrite (sigma_div K (e n) (fun k => w k * dens n k)).
      fold (e n). specialize (He n Hn). field. lra.
Qed.

(** The range of float64. *)
Lemma float_min_small : float_min <= / 1024.
Proof.
  unfold float_min. replace 1024 with (2 ^ 10) by (simpl; lra).
  apply Rinv_le_contravar; [apply pow_lt; lra|].
  apply Rle_pow; [lra|lia].
Qed.

Lemma no_underflow_intro (data : list (list Z)) (d : nat) (P W : list R) :
  Forall (fun row => (0 <= zsum row <= Z.of_nat d)%Z) data ->
  length W = length P -> Forall (fun p => 0 <= p <= 1) P ->
  (forall n k, (n < length data)%nat -> (k < length P)%nat ->
     float_min <= heads_probability d (Z.to_nat (zsum (nth n data []))) (nth k P 0)
                  * nth k W 0) ->
  no_underflow data d (P, W).
Proof.
  intros Hheads HW HP01 Hj.
  exists (tab (length data)
            (fun n => tab (length P)
               (fun k => heads_probability d (Z.to_nat (zsum (nth n data []))) (nth k P 0)
                         * nth k W 0))).
  split.
  - cbn [fst snd].
    rewrite (weighted_likelihoods_tab data d (length P) P W Hheads eq_refl HW HP01).
    apply f_equal. unfold lift_m. rewrite tab_map. apply tab_ext. intros n _.
    rewrite tab_map. reflexivity.
  - apply Forall_tab. intros n Hn. apply Forall_tab. intros k Hk. apply Hj; assumption.
Qed.

Lemma three_samples_in_range :
  no_underflow three_samples 2 ([1 / 4; 3 / 4], [33 / 100; 33 / 100]).
Proof.
  apply no_underflow_intro.
  - repeat constructor; simpl; lia.
  - reflexivity.
  - repeat constructor; lra.
  - intros n k Hn Hk. apply (Rle_trans _ _ _ float_min_small).
    simpl in Hn, Hk.
    destruct n as [|[|[|n]]]; [| | |lia];
      (destruct k as [|[|k]]; [| |lia]);
      unfold heads_probability, C; simpl; lra.
Qed.

(** X19.  One turn of the loop of [coin_probabilities], from biases
    strictly between 0 and 1 and positive priors of sum at most 1 whose
    weighted likelihoods do not underflow, on samples of which one has a
    head and one has a tail: [compute_responsibilities] and
    [update_parameters] return finite values, the new biases lie
    between 0 and 1, the new priors are positive and sum to 1, and, if
    the weighted likelihoods of the new parameters do not underflow
    either, their [log_likelihood] is not below the [log_likelihood] of
    the old ones. *)
Theorem coin_turn_ascends (data : list (list Z)) (d K : nat) (P W : list R) :
  (0 < d)%nat -> (0 < K)%nat ->
  Forall (fun row => (0 <= zsum row <= Z.of_nat d)%Z) data ->
  (exists row, In row data /\ (0 < zsum row)%Z) ->
  (exists row, In row data /\ (zsum row < Z.of_nat d)%Z) ->
  length P = K -> length W = K ->
  Forall (fun p => 0 < p < 1) P -> Forall (fun w => 0 < w) W ->
  sigma K (fun k => nth k W 0) <= 1 ->
  no_underflow data d (P, W) ->
  exists (R' : list (list R)) (P' W' : list R) (ll : R),
    Coin.compute_responsibilities data (Z.of_nat d) (lift_v P) (lift_v W) = Ok (lift_m R')
    /\ Coin.update_parameters data (Z.of_nat d) (lift_m R') = Ok (lift_v P', lift_v W')
    /\ Coin.log_likelihood data (Z.of_nat d) (lift_v P) (lift_v W) = Ok (Fin ll)
    /\ length P' = K /\ length W' = K
    /\ Forall (fun p => 0 <= p <= 1) P' /\ Forall (fun w => 0 < w) W'
    /\ sigma K (fun k => nth k W' 0) = 1
    /\ (no_underflow data d (P', W') ->
        exists ll' : R,
          Coin.log_likelihood data (Z.of_nat d) (lift_v P') (lift_v W') = Ok (Fin ll')
          /\ ll <= ll').
Proof.
  intros Hd HK Hheads Hhead Htail HP HW HPr HWp HWs _.
  destruct (coin_turn data d K P W Hd HK Hheads Hhead Htail HP HW HPr HWp HWs)
    as (R' & P' & W' & ll & ll' & E1 & E2 & E3 & E4 & Hle & HP' & HW' & HPr' & HWp' & HWs').
  exists R', P', W', ll.
  repeat (split; [first [assumption|exact E1|exact E2|exact E3]|]).
  split; [eapply Forall_impl; [|exact HPr']; intros p Hp; cbv beta in *; lra|].
  split; [exact HWp'|]. split; [exact HWs'|].
  intros _. exists ll'. split; [exact E4|exact Hle].
Qed.

Lemma coin_turn_ascends_witness :
  exists (R' : list (list R)) (P' W' : list R) (ll : R),
    Coin.compute_responsibilities three_samples (Z.of_nat 2)
      (lift_v [1 / 4; 3 / 4]) (lift_v [33 / 100; 33 / 100]) = Ok (lift_m R')
    /\ Coin.update_parameters three_samples (Z.of_nat 2) (lift_m R')
       = Ok (lift_v P', lift_v W')
    /\ Coin.log_likelihood three_samples (Z.of_nat 2)
         (lift_v [1 / 4; 3 / 4]) (lift_v [33 / 100; 33 / 100]) = Ok (Fin ll)
    /\ length P' = 2%nat /\ length W' = 2%nat
    /\ Forall (fun p => 0 <= p <= 1) P' /\ Forall (fun w => 0 < w) W'
    /\ sigma 2 (fun k => nth k W' 0) = 1
    /\ (no_underflow three_samples 2 (P', W') ->
        exists ll' : R,
          Coin.log_likelihood three_samples (Z.of_nat 2) (lift_v P') (lift_v W')
          = Ok (Fin ll')
          /\ ll <= ll').
Proof.
  apply (coin_turn_ascends three_samples 2 2 [1 / 4; 3 / 4] [33 / 100; 33 / 100]).
  - lia.
  - lia.
  - repeat constructor; simpl; lia.
  - exists [1; 0]%Z. split; [left; reflexivity|simpl; lia].
  - exists [0; 0]%Z. split; [right; left; reflexivity|simpl; lia].
  - reflexivity.
  - reflexivity.
  - repeat constructor; lra.
  - repeat constructor; lra.
  - simpl. lra.
  - exact three_samples_in_range.
Defined.

(** ** Responsibilities *)

(** X20.  For biases strictly between 0 and 1 and positive priors
    whose weighted likelihoods do not underflow,
    [compute_responsibilities] returns, for every sample, positive
    numbers that sum to 1; raising all the priors by one factor that
    keeps their sum at most 1 does not change them. *)
Theorem compute_responsibilities_rows (data : list (list Z)) (d K : nat) (P W : list R)
  (c : R) :
  (0 < K)%nat -> Forall (fun row => (0 <= zsum row <= Z.of_nat d)%Z) data ->
  length P = K -> length W = K ->
  Forall (fun p => 0 < p < 1) P -> Forall (fun w => 0 < w) W ->
  no_underflow data d (P, W) ->
  1 <= c -> c * sigma K (fun k => nth k W 0) <= 1 ->
  exists R' : list (list R),
    Coin.compute_responsibilities data (Z.of_nat d) (lift_v P) (lift_v W) = Ok (lift_m R')
    /\ Coin.compute_responsibilities data (Z.of_nat d) (lift_v P) (lift_v (map (Rmult c) W))
       = Ok (lift_m R')
    /\ length R' = length data
    /\ forall n, (n < length data)%nat ->
         sigma K (entry R' n) = 1 /\ forall k, (k < K)%nat -> 0 < entry R' n k.
Proof.
  intros HK Hheads HP HW HPr HWp _ Hc1 _.
  assert (Hc : 0 < c) by lra.
  pose (joint := fun n k => heads_probability d (Z.to_nat (zsum (nth n data []))) (nth k P 0)
                            * nth k W 0).
  assert (Hj : forall n k, (n < length data)%nat -> (k < K)%nat -> 0 < joint n k).
  { intros n k Hn Hk. unfold joint. apply Rmult_lt_0_compat.
    - apply heads_probability_pos; [|apply (Forall_nth_R _ P k HPr); lia].
      pose proof (heads_range data d Hheads n Hn). lia.
    - apply (Forall_nth_R _ W k HWp). lia. }
  assert (He : forall n, (n < length data)%nat -> 0 < sigma K (joint n))
    by (intros n Hn; apply sigma_pos; [exact HK|]; intros k Hk; apply Hj; assumption).
  assert (HP01 : Forall (fun p => 0 <= p <= 1) P)
    by (eapply Forall_impl; [|exact HPr]; intros; cbv beta in *; lra).
  exists (tab (length data) (fun n => tab K (fun k => joint n k / sigma K (joint n)))).
  assert (Hlift : lift_m (tab (length data)
                            (fun n => tab K (fun k => joint n k / sigma K (joint n))))
                  = tab (length data)
                        (fun n => tab K (fun k => Fin (joint n k / sigma K (joint n))))).
  { unfold lift_m. rewrite tab_map. apply tab_ext. intros n _. apply tab_map. }
  split; [|split; [|split]].
  - rewrite Hlift. apply (compute_responsibilities_tab data d K P W Hheads HP HW HP01).
    intros n Hn. apply Rgt_not_eq. apply (He n Hn).
  - assert (Hscaled : forall n k,
              heads_probability d (Z.to_nat (zsum (nth n data []))) (nth k P 0)
              * nth k (map (Rmult c) W) 0 = c * joint n k).
    { intros n k. unfold joint.
      replace (nth k (map (Rmult c) W) 0) with (c * nth k W 0); [ring|].
      rewrite <- (map_nth (Rmult c) W 0 k). rewrite Rmult_0_r. reflexivity. }
    rewrite Hlift.
    rewrite (compute_responsibilities_tab data d K P (map (Rmult c) W) Hheads HP
               ltac:(rewrite length_map; exact HW) HP01).
    + apply f_equal. apply tab_ext. intros n Hn. apply tab_ext. intros k Hk.
      apply f_equal. rewrite Hscaled.
      rewrite (sigma_ext K _ (fun k => c * joint n k)) by (intros; apply Hscaled).
      rewrite sigma_scal. specialize (He n Hn). field. lra.
    + intros n Hn. rewrite (sigma_ext K _ (fun k => c * joint n k))
        by (intros; apply Hscaled).
      rewrite sigma_scal. specialize (He n Hn). apply Rgt_not_eq.
      apply Rmult_lt_0_compat; assumption.
  - apply tab_length.
  - intros n Hn. split.
    + rewrite (sigma_ext K _ (fun k => joint n k / sigma K (joint n)))
        by (intros k Hk;
            apply (entry_tab2 (length data) K n k
                     (fun n k => joint n k / sigma K (joint n))); assumption).
      rewrite (sigma_div K (sigma K (joint n)) (joint n)). specialize (He n Hn).
      field. lra.
    + intros k Hk.
      rewrite (entry_tab2 (length data) K n k
                 (fun n k => joint n k / sigma K (joint n))) by assumption.
      unfold Rdiv.
      apply Rmult_lt_0_compat; [apply Hj; assumption|].
      apply Rinv_0_lt_compat. apply He. exact Hn.
Qed.

Lemma compute_responsibilities_rows_witness :
  exists R' : list (list R),
    Coin.compute_responsibilities three_samples (Z.of_nat 2)
      (lift_v [1 / 4; 3 / 4]) (lift_v [33 / 100; 33 / 100]) = Ok (lift_m R')
    /\ Coin.compute_responsibilities three_samples (Z.of_nat 2)
         (lift_v [1 / 4; 3 / 4]) (lift_v (map (Rmult (100 / 99)) [33 / 100; 33 / 100]))
       = Ok (lift_m R')
    /\ length R' = length three_samples
    /\ forall n, (n < length three_samples)%nat ->
         sigma 2 (entry R' n) = 1 /\ forall k, (k < 2)%nat -> 0 < entry R' n k.
Proof.
  apply (compute_responsibilities_rows three_samples 2 2 [1 / 4; 3 / 4]
           [33 / 100; 33 / 100] (100 / 99)).
  - lia.
  - repeat constructor; simpl; lia.
  - reflexivity.
  - reflexivity.
  - repeat constructor; lra.
  - repeat constructor; lra.
  - exact three_samples_in_range.
  - lra.
  - simpl. lra.
Defined.

(** ** The M-step of the coins *)

(** X21.  On responsibilities that are non-negative, sum to 1 on every
    row and have positive column sums, [update_parameters] returns
    biases between 0 and 1 and priors that are positive and sum to 1. *)
Theorem update_parameters_ranges (data : list (list Z)) (d K : nat) (Rm : list (list R)) :
  (0 < length data)%nat -> (0 < d)%nat ->
  Forall (fun row => (0 <= zsum row <= Z.of_nat d)%Z) data ->
  length Rm = length data -> rows_of K Rm ->
  (forall n k, (n < length data)%nat -> (k < K)%nat -> 0 <= entry Rm n k) ->
  (forall n, (n < length data)%nat -> sigma K (entry Rm n) = 1) ->
  (forall k, (k < K)%nat -> 0 < sigma (length data) (fun n => entry Rm n k)) ->
  exists P' W' : list R,
    Coin.update_parameters data (Z.of_nat d) (lift_m Rm) = Ok (lift_v P', lift_v W')
    /\ length P' = K /\ length W' = K
    /\ Forall (fun p => 0 <= p <= 1) P' /\ Forall (fun w => 0 < w) W'
    /\ sigma K (fun k => nth k W' 0) = 1.
Proof.
  intros HN Hd Hheads Hlen Hrows Hnn Hrow Hcol.
  assert (HNR : 0 < INR (length data)) by (apply lt_0_INR; exact HN).
  assert (HdR : 0 < INR d) by (apply lt_0_INR; exact Hd).
  pose (p' := fun k => sigma (length data)
                         (fun n => entry Rm n k * IZR (zsum (nth n data [])))
                       / (INR d * sigma (length data) (fun n => entry Rm n k))).
  pose (w' := fun k => sigma (length data) (fun n => entry Rm n k) / INR (length data)).
  exists (tab K p'), (tab K w').
  split; [|split; [|split; [|split; [|split]]]].
  - rewrite (lift_m_tab2 K Rm Hrows), Hlen.
    rewrite (update_parameters_tab data d K (entry Rm) HN Hd)
      by (intros k Hk; apply Rgt_not_eq; apply Hcol; exact Hk).
    unfold lift_v. rewrite !tab_map. reflexivity.
  - apply tab_length.
  - apply tab_length.
  - apply Forall_tab. intros k Hk. unfold p'. specialize (Hcol k Hk).
    assert (Hlow : 0 <= sigma (length data)
                          (fun n => entry Rm n k * IZR (zsum (nth n data [])))).
    { apply sigma_nonneg. intros n Hn. apply Rmult_le_pos; [apply Hnn; assumption|].
      apply IZR_le. apply (heads_range data d Hheads n Hn). }
    assert (Hhigh : sigma (length data)
                      (fun n => entry Rm n k * IZR (zsum (nth n data [])))
                    <= INR d * sigma (length data) (fun n => entry Rm n k)).
    { rewrite <- sigma_scal. apply sigma_le. intros n Hn.
      assert (IZR (zsum (nth n data [])) <= INR d).
      { rewrite INR_IZR_INZ. apply IZR_le. apply (heads_range data d Hheads n Hn). }
      specialize (Hnn n k Hn Hk). nra. }
    assert (Hden : 0 < INR d * sigma (length data) (fun n => entry Rm n k))
      by (apply Rmult_lt_0_compat; assumption).
    split.
    + unfold Rdiv. apply Rmult_le_pos; [exact Hlow|]. left. apply Rinv_0_lt_compat.
      exact Hden.
    + apply (Rmult_le_reg_r (INR d * sigma (length data) (fun n => entry Rm n k)));
        [exact Hden|].
      unfold Rdiv. rewrite Rmult_assoc, Rinv_l by (apply Rgt_not_eq; exact Hden). lra.
  - apply Forall_tab. intros k Hk. unfold w', Rdiv.
    apply Rmult_lt_0_compat; [apply Hcol; exact Hk|]. apply Rinv_0_lt_compat. exact HNR.
  - rewrite (sigma_ext K _ w') by (intros k Hk; apply tab_nth; exact Hk).
    unfold w'. rewrite (sigma_div K (INR (length data))).
    rewrite (sigma_swap K (length data) (fun k n => entry Rm n k)).
    rewrite (sigma_ext (length data) _ (fun _ => 1)) by (intros n Hn; apply Hrow; exact Hn).
    rewrite sigma_const. field. apply Rgt_not_eq. exact HNR.
Qed.

Lemma update_parameters_ranges_witness :
  exists P' W' : list R,
    Coin.update_parameters three_samples (Z.of_nat 2)
      (lift_m [[1 / 2; 1 / 2]; [1; 0]; [0; 1]]) = Ok (lift_v P', lift_v W')
    /\ length P' = 2%nat /\ length W' = 2%nat
    /\ Forall (fun p => 0 <= p <= 1) P' /\ Forall (fun w => 0 < w) W'
    /\ sigma 2 (fun k => nth k W' 0) = 1.
Proof.
  apply (update_parameters_ranges three_samples 2 2 [[1 / 2; 1 / 2]; [1; 0]; [0; 1]]).
  - simpl. lia.
  - lia.
  - repeat constructor; simpl; lia.
  - reflexivity.
  - repeat constructor.
  - intros [|[|[|n]]] [|[|k]] Hn Hk; simpl in Hn; try lia; unfold entry; simpl; lra.
  - intros [|[|[|n]]] Hn; simpl in Hn; try lia; unfold entry; simpl; lra.
  - intros [|[|k]] Hk; try lia; unfold entry; simpl; lra.
Defined.

(** ** The loop of the coins *)





(** X22.  The priors of [coin_probabilities] are three, whatever
    [num_coins] is: with a number of coins other than 3 and 1, and at
    least one turn to make, the call raises [ValueError]. *)
Theorem coin_probabilities_three_coins (G : generator)
  (random_rand : nat -> random_state G -> list R * random_state G)
  (data : list (list Z)) (num_flips num_coins max_iter : Z) (tolerance : float64)
  (s : random_state G) :
  length (fst (random_rand (Z.to_nat num_coins) s)) = Z.to_nat num_coins ->
  num_coins <> 3%Z -> num_coins <> 1%Z -> (0 < max_iter)%Z ->
  fst (Coin.coin_probabilities G random_rand data num_flips num_coins max_iter tolerance s)
  = Raise ValueError.
Proof.
  intros Hlen H3 H1 Hturns. unfold Coin.coin_probabilities.
  destruct (num_coins <? 0)%Z eqn:Hneg; [reflexivity|].
  apply Z.ltb_ge in Hneg.
  destruct (random_rand (Z.to_nat num_coins) s) as [drawn s'] eqn:Hdrawn.
  cbn [fst] in *.
  destruct (Z.to_nat max_iter) as [|turns] eqn:Hmax; [lia|].
  cbn [Coin.coin_loop]. unfold Coin.compute_responsibilities, Coin.weighted_likelihoods.
  replace (Coin.compatible (length (lift_v drawn)) (length [Fin (33 / 100); Fin (33 / 100);
                                                         Fin (33 / 100)]))
    with false; [reflexivity|].
  symmetry. unfold lift_v. rewrite length_map, Hlen. cbn [length]. unfold Coin.compatible.
  apply orb_false_iff. split; [apply orb_false_iff; split|].
  - apply Nat.eqb_neq. lia.
  - apply Nat.eqb_neq. lia.
  - reflexivity.
Qed.

Lemma coin_probabilities_three_coins_witness :
  fst (Coin.coin_probabilities rotating quarters three_samples 2 2 100
         (Fin (1 / 10000)) 0%Z)
  = Raise ValueError.
Proof.
  apply (coin_probabilities_three_coins rotating quarters three_samples 2 2 100
           (Fin (1 / 10000)) 0%Z).
  - reflexivity.
  - lia.
  - lia.
  - lia.
Defined.







